(** * repokit: a shallow embedding of the command-line tool and its properties

    The development follows the layout of the repository:

    - [JS]         the string built-ins of the JavaScript run time the code
                   calls ([trim], [startsWith], [includes], [replace], ...);
    - [Validation] [src/utils/validation.js];
    - [Ssh]        [src/utils/ssh.js];
    - the program monad: calls to the file system, to child processes, to the
      console and to the prompt, with their traces;
    - [Config]     [src/utils/config.js];
    - [Git], [Github]  [src/utils/git.js], [src/utils/github.js];
    - [Init]       [src/commands/init.js] (the version with validation, the
                   safety checks of [--here] and the choice of an SSH key);
    - [Cli]        the [config] command of [src/index.js].

    A JavaScript string is a sequence of code units; here a character is one
    of the 256 code units of [ascii], so a string of the model is a
    JavaScript string all of whose code units are below 256. *)

From Stdlib Require Import Ascii String.
From stdpp Require Import gmap strings list pretty.

Set Warnings "-register-all".

(** ** Results of functions that may throw *)

Inductive result (A : Type) : Type :=
| Ok (a : A)
| Error (message : string).
Arguments Ok {A} a.
Arguments Error {A} message.

(** ** JavaScript values

    The values that flow through the program: what [JSON.parse] returns,
    what the options object of the command line holds, and [undefined].  A
    number is kept as the text [String(n)] prints for it (so [0] and [-0]
    are both ["0"]); the code never computes with numbers. *)

Inductive value : Type :=
| VUndefined
| VNull
| VBool (b : bool)
| VNum (repr : string)
| VStr (s : string)
| VArr (items : list value)
| VObj (fields : list (string * value)).

Module JS.

(** [WhiteSpace] and [LineTerminator] code units below 256: TAB, LF, VT, FF,
    CR, SP and NBSP.  These are what [trim] strips and what [\s] matches. *)
Definition is_white_space (c : ascii) : bool :=
  match c with
  | "009" | "010" | "011" | "012" | "013" | " " | "160" => true
  | _ => false
  end%char.

(** [LineTerminator] code units below 256: LF and CR ([.] in a regular
    expression matches anything else). *)
Definition is_line_terminator (c : ascii) : bool :=
  match c with
  | "010" | "013" => true
  | _ => false
  end%char.

Fixpoint trimStart (s : string) : string :=
  match s with
  | "" => ""
  | String c s' => if is_white_space c then trimStart s' else s
  end.

Fixpoint trimEnd (s : string) : string :=
  match s with
  | "" => ""
  | String c s' =>
      match trimEnd s' with
      | "" => if is_white_space c then "" else String c ""
      | t => String c t
      end
  end.

(** [s.trim()] *)
Definition trim (s : string) : string := trimEnd (trimStart s).

(** [s.startsWith(p)] *)
Fixpoint startsWith (p s : string) : bool :=
  match p, s with
  | "", _ => true
  | String a p', String b s' => if decide (a = b) then startsWith p' s' else false
  | String _ _, "" => false
  end.

(** [s.includes(p)] *)
Fixpoint includes (p s : string) : bool :=
  startsWith p s ||
  match s with
  | "" => false
  | String _ s' => includes p s'
  end.

(** Every code unit of [s] satisfies [f]. *)
Fixpoint all_chars (f : ascii → bool) (s : string) : bool :=
  match s with
  | "" => true
  | String c s' => f c && all_chars f s'
  end.

(** The code units of a string. *)
Definition chars (s : string) : list ascii := list_ascii_of_string s.

(** A text between double quotes, as a template literal with quotes around a
    placeholder builds it. *)
Definition quoted (s : string) : string :=
  String "034" (s +:+ String "034" "").

(** [s.split('\n')] *)
Fixpoint split_lines (s : string) : list string :=
  match s with
  | "" => [""]
  | String c s' =>
      if decide (c = "010"%char) then "" :: split_lines s'
      else match split_lines s' with
           | l :: ls => String c l :: ls
           | [] => [String c ""]
           end
  end.

(** The rest of [s] after the prefix [p], when [s] starts with [p]. *)
Fixpoint strip_prefix (p s : string) : option string :=
  match p, s with
  | "", _ => Some s
  | String a p', String b s' => if decide (a = b) then strip_prefix p' s' else None
  | String _ _, "" => None
  end.

(** The text before and the text after the first occurrence of [p] in [s]. *)
Fixpoint split_first (p s : string) : option (string * string) :=
  match strip_prefix p s with
  | Some after => Some ("", after)
  | None =>
      match s with
      | "" => None
      | String c s' =>
          match split_first p s' with
          | Some (before, after) => Some (String c before, after)
          | None => None
          end
      end
  end.

(** [GetSubstitution] for a pattern that is a string (no capture groups):
    in the replacement text [$$] stands for [$], [$&] for the matched text,
    [$`] for the text before it and [$'] for the text after it; every other
    character, a lone [$] too, stands for itself. *)
Fixpoint get_substitution (matched before after replacement : string) : string :=
  match replacement with
  | "" => ""
  | String "$" (String "$" r) =>
      String "$" (get_substitution matched before after r)
  | String "$" (String "&" r) =>
      matched +:+ get_substitution matched before after r
  | String "$" (String "`" r) =>
      before +:+ get_substitution matched before after r
  | String "$" (String "'" r) =>
      after +:+ get_substitution matched before after r
  | String c r => String c (get_substitution matched before after r)
  end.

(** [s.replace(p, replacement)] for a string [p]: the first occurrence of
    [p] only, wherever it is. *)
Definition replace (p replacement s : string) : string :=
  match split_first p s with
  | Some (before, after) =>
      before +:+ get_substitution p before after replacement +:+ after
  | None => s
  end.

(** [Canonicalize] of a case-insensitive regular expression without the
    [u] flag, on the characters a pattern of ASCII letters can match: a
    small ASCII letter becomes the capital one, and no character above 127
    is mapped to an ASCII one. *)
Definition canonicalize (c : ascii) : ascii :=
  let n := nat_of_ascii c in
  if (97 <=? n)%nat && (n <=? 122)%nat then ascii_of_nat (n - 32) else c.

(** The rest of [s] after a prefix equal to [p] up to the case of letters. *)
Fixpoint strip_prefix_ci (p s : string) : option string :=
  match p, s with
  | "", _ => Some s
  | String a p', String b s' =>
      if decide (canonicalize a = canonicalize b) then strip_prefix_ci p' s'
      else None
  | String _ _, "" => None
  end.

(** [(.+)$]: the rest of the input, if it is not empty and holds no line
    terminator. *)
Definition capture_rest (s : string) : option string :=
  match s with
  | "" => None
  | _ => if all_chars (λ c, negb (is_line_terminator c)) s then Some s else None
  end.

(** [\s*(.+)$] by backtracking: [\s*] is greedy, so a longer run of white
    space is tried before a shorter one. *)
Fixpoint spaces_then_rest (s : string) : option string :=
  match s with
  | "" => None
  | String c s' =>
      if is_white_space c then
        match spaces_then_rest s' with
        | Some g => Some g
        | None => capture_rest s
        end
      else capture_rest s
  end.

(** [s.match(/^<keyword>\s+(.+)$/i)]: the text of group 1 when the whole of
    [s] matches.  [keyword] is made of ASCII letters. *)
Definition match_directive (keyword s : string) : option string :=
  match strip_prefix_ci keyword s with
  | Some (String c rest) =>
      if is_white_space c then spaces_then_rest rest else None
  | _ => None
  end.

(** [String(v)], which a template literal applies to a placeholder. *)
Fixpoint to_string (v : value) : string :=
  match v with
  | VUndefined => "undefined"
  | VNull => "null"
  | VBool true => "true"
  | VBool false => "false"
  | VNum repr => repr
  | VStr s => s
  | VArr items =>
      (fix join (l : list value) : string :=
         match l with
         | [] => ""
         | x :: l' =>
             let sx := match x with
                       | VUndefined | VNull => ""
                       | _ => to_string x
                       end in
             match l' with
             | [] => sx
             | _ => sx +:+ "," +:+ join l'
             end
         end) items
  | VObj _ => "[object Object]"
  end.

(** [s.repeat(n)] *)
Fixpoint repeat_string (n : nat) (s : string) : string :=
  match n with
  | O => ""
  | S n' => s +:+ repeat_string n' s
  end.

(** Truthiness ([ToBoolean]). *)
Definition truthy (v : value) : bool :=
  match v with
  | VUndefined | VNull => false
  | VBool b => b
  | VNum r => negb (String.eqb r "0")
  | VStr s => negb (String.eqb s "")
  | VArr _ | VObj _ => true
  end.

End JS.

(** * [src/utils/validation.js] *)

Module Validation.

Definition MAX_PROJECT_NAME_LENGTH : nat := 100.

(** The character class [[a-zA-Z0-9._-]]: three ranges of code units and
    three literal characters. *)
Definition name_class (c : ascii) : bool :=
  let n := nat_of_ascii c in
  ((97 <=? n)%nat && (n <=? 122)%nat) || ((65 <=? n)%nat && (n <=? 90)%nat)
  || ((48 <=? n)%nat && (n <=? 57)%nat)
  || bool_decide (c = "."%char) || bool_decide (c = "_"%char)
  || bool_decide (c = "-"%char).

(** [VALID_NAME_PATTERN.test(s)] for [/^[a-zA-Z0-9._-]+$/]: one character of
    the class or more, from the start of the input to its end. *)
Definition VALID_NAME_PATTERN_test (s : string) : bool :=
  negb (String.eqb s "") && JS.all_chars name_class s.

Definition validateProjectName (name : value) : result string :=
  match name with
  | VStr name =>
      if String.eqb name "" then Error "Project name is required"
      else
        let trimmedName := JS.trim name in
        if (String.length trimmedName =? 0)%nat then
          Error "Project name cannot be empty"
        else if (MAX_PROJECT_NAME_LENGTH <? String.length trimmedName)%nat then
          Error "Project name must be 100 characters or less"
        else if JS.startsWith "." trimmedName then
          Error "Project name cannot start with a period"
        else if JS.startsWith "-" trimmedName then
          Error "Project name cannot start with a hyphen"
        else if negb (VALID_NAME_PATTERN_test trimmedName) then
          Error "Project name can only contain letters, numbers, hyphens, underscores, and periods"
        else if JS.includes ".." trimmedName then
          Error ("Project name cannot contain " +:+ JS.quoted "..")
        else Ok trimmedName
  | _ =>
      (* [!name || typeof name !== 'string'] *)
      Error "Project name is required"
  end.

Definition validateGitHubName := validateProjectName.

End Validation.

(** * [src/utils/ssh.js] *)

Module Ssh.

(** The object the loop of [getGitHubSSHKeys] builds for a [Host] block;
    [identityFile] is [None] for [null]. *)
Record host_block : Type := HostBlock {
  host : string;
  name : string;
  identityFile : option string;
  isGitHub : bool;
}.

(** An element of the array [getGitHubSSHKeys] returns. *)
Record ssh_key : Type := SshKey {
  key_name : string;
  key_host : string;
  key_identityFile : option string;
}.

(** The state of the loop: [hosts] and [currentHost]. *)
Definition loop_state : Type := list host_block * option host_block.

(** [if (currentHost && currentHost.isGitHub) hosts.push(currentHost)] *)
Definition flush (hosts : list host_block) (currentHost : option host_block)
  : list host_block :=
  match currentHost with
  | Some h => if isGitHub h then hosts ++ [h] else hosts
  | None => hosts
  end.

(** The body of [for (const line of lines)]. *)
Definition loop_body (home : string) (st : loop_state) (line : string)
  : loop_state :=
  let '(hosts, currentHost) := st in
  let trimmed := JS.trim line in
  match JS.match_directive "Host" trimmed with
  | Some hostValue =>
      (flush hosts currentHost,
       Some {| host := hostValue; name := hostValue; identityFile := None;
               isGitHub := JS.includes "github.com" hostValue |})
  | None =>
      match currentHost with
      | None => st
      | Some h =>
          match JS.match_directive "HostName" trimmed with
          | Some hostName =>
              if decide (hostName = "github.com") then
                (hosts, Some {| host := host h; name := name h;
                                identityFile := identityFile h;
                                isGitHub := true |})
              else st
          | None =>
              match JS.match_directive "IdentityFile" trimmed with
              | Some path =>
                  (hosts, Some {| host := host h; name := name h;
                                  identityFile := Some (JS.replace "~" home path);
                                  isGitHub := isGitHub h |})
              | None => st
              end
          end
      end
  end.

(** The function of [hosts.map(...)]. *)
Definition friendly (h : host_block) : ssh_key :=
  let friendlyName :=
    if JS.startsWith "github.com-" (host h) then
      JS.replace "github.com-" "" (host h)
    else if decide (host h = "github.com") then "default"
    else host h in
  {| key_name := friendlyName; key_host := host h;
     key_identityFile := identityFile h |}.

(** [getGitHubSSHKeys] from the point where the file has been read: [home]
    is [homedir()] and [content] the text of the configuration file. *)
Definition parse_config (home content : string) : list ssh_key :=
  let lines := JS.split_lines content in
  let '(hosts, currentHost) := foldl (loop_body home) ([], None) lines in
  friendly <$> flush hosts currentHost.

(** [getSSHCommand] *)
Definition getSSHCommand (identityFile : string) : string :=
  "ssh -i " +:+ identityFile.

End Ssh.

(** * Programs

    The code talks to the file system ([fs]), to child processes
    ([execSync]), to the console ([console], the [ora] spinner) and to the
    user (the [select] prompt of [@inquirer/prompts]).  A program is a tree
    of such calls; what the environment answers to a call decides how the
    program goes on. *)

Inductive Cmd : Type :=
| existsSync (path : string)
| readFileSync (path : string)
| writeFileSync (path data : string)
| mkdirSync (path : string)
| execSync (command : string) (cwd : option string)
| select (message : string) (choices : list (string * option string))
| console_log (text : string)
| console_error (text : string)
| console_warn (text : string)
| ora_start (text : string)
| ora_succeed (text : string)
| ora_fail (text : string).

(** What a call answers.  A call that may throw answers [Error] with the
    message of the exception.  The prompt answers the [value] of the choice
    the user made. *)
Definition Resp (c : Cmd) : Type :=
  match c with
  | existsSync _ => bool
  | readFileSync _ => result string
  | writeFileSync _ _ => result unit
  | mkdirSync _ => result unit
  | execSync _ _ => result string
  | select _ _ => result (option string)
  | console_log _ | console_error _ | console_warn _ => unit
  | ora_start _ | ora_succeed _ | ora_fail _ => unit
  end.

Inductive Prog (A : Type) : Type :=
| Ret (a : A)
| Throw (message : string)
| Exit (code : Z)
| Vis (c : Cmd) (k : Resp c → Prog A).
Arguments Ret {A} a.
Arguments Throw {A} message.
Arguments Exit {A} code.
Arguments Vis {A} c k.

Fixpoint bind {A B : Type} (p : Prog A) (f : A → Prog B) : Prog B :=
  match p with
  | Ret a => f a
  | Throw e => Throw e
  | Exit n => Exit n
  | Vis c k => Vis c (λ r, bind (k r) f)
  end.

#[global] Instance Prog_ret : MRet Prog := @Ret.
#[global] Instance Prog_bind : MBind Prog := λ A B f p, bind p f.

(** [try { p } catch (error) { handler(error.message) }]; [process.exit]
    inside [p] is not caught. *)
Fixpoint try_catch {A : Type} (p : Prog A) (handler : string → Prog A) : Prog A :=
  match p with
  | Ret a => Ret a
  | Throw e => handler e
  | Exit n => Exit n
  | Vis c k => Vis c (λ r, try_catch (k r) handler)
  end.

Definition call (c : Cmd) : Prog (Resp c) := Vis c Ret.

(** A call that throws when the environment answers [Error]. *)
Definition throwing {A : Type} (r : result A) : Prog A :=
  match r with
  | Ok a => Ret a
  | Error e => Throw e
  end.

(** [process.exit(code)] *)
Definition process_exit {A : Type} (code : Z) : Prog A := Exit code.

(** ** Runs *)

Inductive Outcome (A : Type) : Type :=
| Returned (a : A)
| Thrown (message : string)
| Exited (code : Z).
Arguments Returned {A} a.
Arguments Thrown {A} message.
Arguments Exited {A} code.

Inductive Event : Type := Ev (c : Cmd) (r : Resp c).

(** [run h p s]: the program [p] in an environment with state [s] that
    answers the calls by [h]. *)
Fixpoint run {S A : Type} (h : ∀ c : Cmd, S → Resp c * S) (p : Prog A) (s : S)
  : Outcome A * list Event * S :=
  match p with
  | Ret a => (Returned a, [], s)
  | Throw e => (Thrown e, [], s)
  | Exit n => (Exited n, [], s)
  | Vis c k =>
      let '(r, s1) := h c s in
      let '(o, tr, s2) := run h (k r) s1 in
      (o, Ev c r :: tr, s2)
  end.

(** [runs p tr o]: some environment makes [p] perform the calls of [tr],
    with the answers of [tr], and end as [o]. *)
Fixpoint runs {A : Type} (p : Prog A) (tr : list Event) (o : Outcome A) : Prop :=
  match p with
  | Ret a => tr = [] ∧ o = Returned a
  | Throw e => tr = [] ∧ o = Thrown e
  | Exit n => tr = [] ∧ o = Exited n
  | Vis c k => ∃ (r : Resp c) (tr' : list Event), tr = Ev c r :: tr' ∧ runs (k r) tr' o
  end.

(** The calls of a trace, without the answers. *)
Definition calls (tr : list Event) : list Cmd :=
  (λ e, match e with Ev c _ => c end) <$> tr.

(** The calls that act on the world outside the console: the file system
    calls that write and the child processes. *)
Definition is_action (c : Cmd) : bool :=
  match c with
  | writeFileSync _ _ | mkdirSync _ | execSync _ _ => true
  | _ => false
  end.

Definition actions (tr : list Event) : list Cmd := filter is_action (calls tr).

(** The calls that write to the file system. *)
Definition is_write (c : Cmd) : bool :=
  match c with
  | writeFileSync _ _ | mkdirSync _ => true
  | _ => false
  end.

(** ** The run time

    What the code takes from Node.js besides the calls above: the home and
    working directories (neither changes during a run), [path.join] and
    [path.resolve] on two segments, and [JSON]. *)

Record Runtime : Type := {
  homedir : string;
  cwd : string;
  join : string → string → string;
  resolve : string → string → string;
  JSON_parse : string → result value;
  (** [JSON.stringify(v, null, 2)] *)
  JSON_stringify : value → string;
}.

(** A JavaScript object used as a record of named fields. *)
Abbreviation object := (gmap string value).

(** [o.k] *)
Definition get (o : object) (k : string) : value := default VUndefined (o !! k).

(** The own enumerable properties of a value, which the spread syntax
    [{...v}] copies: the fields of an object, the elements of an array and
    the characters of a string under their indices, nothing for the rest. *)
Definition own_properties (v : value) : list (string * value) :=
  match v with
  | VObj fields => fields
  | VArr items => imap (λ i x, (pretty i, x)) items
  | VStr s => imap (λ i c, (pretty i, VStr (String c ""))) (JS.chars s)
  | _ => []
  end.

(** [{ ...target, ...source }]: a later property replaces an earlier one of
    the same name. *)
Definition spread (target : object) (source : value) : object :=
  foldl (λ o kv, <[kv.1 := kv.2]> o) target (own_properties source).

(** The object as the value [JSON.stringify] and the spread syntax see. *)
Definition to_value (o : object) : value := VObj (map_to_list o).

Definition nl : string := String "010" "".

(** [chalk] only adds colour; the text is what the model keeps. *)
Definition chalk (s : string) : string := s.

(** * [src/utils/config.js] *)

Module Config.
Section WithRuntime.
Context (rt : Runtime).

Definition CONFIG_FILE : string := join rt (homedir rt) ".repokitrc".

Definition DEFAULT_CONFIG : object :=
  <["defaultOrg" := VNull]> (<["defaultVisibility" := VStr "private"]> ∅).

Definition loadConfig : Prog object :=
  present ← call (existsSync CONFIG_FILE);
  if negb present then mret (spread ∅ (to_value DEFAULT_CONFIG))
  else
    try_catch
      (content ← call (readFileSync CONFIG_FILE) ≫= throwing;
       userConfig ← throwing (JSON_parse rt content);
       mret (spread (spread ∅ (to_value DEFAULT_CONFIG)) userConfig))
      (λ _,
         call (console_warn
                 ("Warning: Could not parse " +:+ CONFIG_FILE +:+ ", using defaults"));;
         mret (spread ∅ (to_value DEFAULT_CONFIG))).

Definition saveConfig (config : object) : Prog unit :=
  try_catch
    (call (writeFileSync CONFIG_FILE (JSON_stringify rt (to_value config)))
       ≫= throwing)
    (λ message, Throw ("Failed to save config: " +:+ message)).

Definition getConfigPath : string := CONFIG_FILE.

Definition configExists : Prog bool := call (existsSync CONFIG_FILE).

End WithRuntime.
End Config.

(** * [src/utils/git.js] *)

Module Git.
Section WithRuntime.
Context (rt : Runtime).

(** [exec(command, { cwd: dir })]: the output of the child process, trimmed;
    it throws when the process fails. *)
Definition exec (command dir : string) : Prog string :=
  out ← call (execSync command (Some dir)) ≫= throwing;
  mret (JS.trim out).

Definition isGitRepo (dir : string) : Prog bool :=
  call (existsSync (join rt dir ".git")).

Definition gitInit (dir : string) : Prog unit :=
  exec "git init" dir;; mret tt.

Definition gitAddAll (dir : string) : Prog unit :=
  exec "git add -A" dir;; mret tt.

Definition gitCommit (dir message : string) : Prog unit :=
  exec ("git commit -m " +:+ JS.quoted message) dir;; mret tt.

Definition gitAddRemote (dir url : string) : Prog unit :=
  exec ("git remote add origin " +:+ url) dir;; mret tt.

(** [gitPush(dir, branch = 'main')]: two parameters. *)
Definition gitPush (dir branch : string) : Prog unit :=
  exec ("git push -u origin " +:+ branch) dir;; mret tt.

Definition gitRenameBranch (dir newName : string) : Prog unit :=
  exec ("git branch -M " +:+ newName) dir;; mret tt.

End WithRuntime.
End Git.

(** * [src/utils/github.js] *)

Module Github.

(** [exec(command)]: no working directory is given. *)
Definition exec (command : string) : Prog string :=
  out ← call (execSync command None) ≫= throwing;
  mret (JS.trim out).

Definition isGhInstalled : Prog bool :=
  try_catch (exec "which gh";; mret true) (λ _, mret false).

Definition isGhAuthenticated : Prog bool :=
  try_catch (exec "gh auth status";; mret true) (λ _, mret false).

Definition getGhUsername : Prog string :=
  exec "gh api user --jq .login".

(** [createRepoOnly({ name, isPublic, org })]; the caller always passes the
    three fields. *)
Definition createRepoOnly (name : string) (isPublic : bool) (org : value)
  : Prog string :=
  let visibility := if isPublic then "--public" else "--private" in
  fullName ←
    (if JS.truthy org then mret (JS.to_string org +:+ "/" +:+ name)
     else username ← getGhUsername; mret (username +:+ "/" +:+ name));
  exec ("gh repo create " +:+ fullName +:+ " " +:+ visibility);;
  mret ("git@github.com:" +:+ fullName +:+ ".git").

Definition repoExists (name : string) (org : value) : Prog bool :=
  try_catch
    (let fullName :=
       if JS.truthy org then JS.to_string org +:+ "/" +:+ name else name in
     exec ("gh repo view " +:+ fullName);;
     mret true)
    (λ _, mret false).

(** [getOrganizations] *)
Definition getOrganizations : Prog (list string) :=
  try_catch
    (result ← exec ("gh api user/orgs --jq " +:+ JS.quoted ".[].login");
     mret (filter (λ s, JS.truthy (VStr s) = true) (JS.split_lines result)))
    (λ _, mret []).

End Github.

(** * [getGitHubSSHKeys] of [src/utils/ssh.js], with its file access *)

Module SshIO.
Section WithRuntime.
Context (rt : Runtime).

Definition SSH_CONFIG_PATH : string :=
  join rt (join rt (homedir rt) ".ssh") "config".

Definition getGitHubSSHKeys : Prog (list Ssh.ssh_key) :=
  present ← call (existsSync SSH_CONFIG_PATH);
  if negb present then mret []
  else
    content ← call (readFileSync SSH_CONFIG_PATH) ≫= throwing;
    mret (Ssh.parse_config (homedir rt) content).

End WithRuntime.
End SshIO.

(** [if (b) { p }] *)
Definition when (b : bool) (p : Prog unit) : Prog unit :=
  if b then p else mret tt.

(** The line of forty box-drawing characters, ['─'.repeat(40)]. *)
Definition hrule : string := JS.repeat_string 40 "─".

(** * [src/commands/init.js] *)

Module Init.

(** The options object [commander] passes: a flag is [true] or absent. *)
Record Options : Type := {
  opt_public : bool;
  opt_private : bool;
  opt_here : bool;
  opt_force : bool;
  opt_org : option string;
}.

Section WithRuntime.
Context (rt : Runtime).

Definition createReadme (dir projectName : string) : Prog unit :=
  let content := "# " +:+ projectName +:+ nl in
  call (writeFileSync (join rt dir "README.md") content) ≫= throwing.

(** Validate project name early to prevent command injection *)
Definition validate_name (projectName : string) : Prog string :=
  match Validation.validateProjectName (VStr projectName) with
  | Ok validatedName => mret validatedName
  | Error message =>
      call (console_error (chalk (nl +:+ "Error: " +:+ message)));;
      process_exit 1
  end.

(** Determine visibility (CLI flag > config default) *)
Definition resolve_visibility (options : Options) (config : object) : bool :=
  if opt_public options then true
  else if opt_private options then false
  else match get config "defaultVisibility" with
       | VStr s => bool_decide (s = "public")
       | _ => false
       end.

(** Determine organization (CLI flag > config default):
    [options.org ?? config.defaultOrg] *)
Definition resolve_org (options : Options) (config : object) : value :=
  match opt_org options with
  | Some org => VStr org
  | None => get config "defaultOrg"
  end.

(** Validate organization name to prevent command injection *)
Definition validate_org (org : value) : Prog unit :=
  when (JS.truthy org)
    match Validation.validateGitHubName org with
    | Ok _ => mret tt
    | Error message =>
        call (console_error
                (chalk (nl +:+ "Error: Invalid organization name - " +:+ message)));;
        process_exit 1
    end.

(** Determine target directory *)
Definition target_dir (options : Options) (projectName : string) : string :=
  if opt_here options then cwd rt else resolve rt (cwd rt) projectName.

Definition banner (projectName targetDir : string) (isPublic : bool) (org : value)
  : Prog unit :=
  call (console_log "");;
  call (console_log (chalk "repokit init"));;
  call (console_log (chalk hrule));;
  call (console_log ("  Project:    " +:+ chalk projectName));;
  call (console_log ("  Directory:  " +:+ chalk targetDir));;
  call (console_log ("  Visibility: " +:+ chalk (if isPublic then "public" else "private")));;
  call (console_log ("  Owner:      " +:+
          chalk (if JS.truthy org then JS.to_string org else "personal account")));;
  call (console_log (chalk hrule));;
  call (console_log "").

(** Preflight checks *)
Definition preflight (projectName : string) (org : value) : Prog unit :=
  call (ora_start "Running preflight checks...");;
  installed ← Github.isGhInstalled;
  when (negb installed)
    (call (ora_fail "GitHub CLI (gh) is not installed");;
     call (console_log (chalk (nl +:+ "Install it with: brew install gh")));;
     process_exit 1);;
  authenticated ← Github.isGhAuthenticated;
  when (negb authenticated)
    (call (ora_fail "GitHub CLI is not authenticated");;
     call (console_log (chalk (nl +:+ "Authenticate with: gh auth login")));;
     process_exit 1);;
  taken ← Github.repoExists projectName org;
  when taken
    (call (ora_fail
             ("Repository " +:+
              JS.quoted (if JS.truthy org
                         then JS.to_string org +:+ "/" +:+ projectName
                         else projectName) +:+
              " already exists on GitHub"));;
     process_exit 1);;
  call (ora_succeed "Preflight checks passed").

(** Safety checks for --here flag *)
Definition safety_checks (options : Options) (targetDir : string) : Prog unit :=
  when (opt_here options)
    (isRepo ← Git.isGitRepo rt targetDir;
     when (isRepo && negb (opt_force options))
       (call (console_error (chalk (nl +:+ "Error: Current directory is already a git repository.")));;
        call (console_error (chalk "Use --force to proceed anyway (will rename branch to main)."));;
        process_exit 1);;
     let readmePath := join rt targetDir "README.md" in
     hasReadme ← call (existsSync readmePath);
     when (hasReadme && negb (opt_force options))
       (call (console_error (chalk (nl +:+ "Error: README.md already exists.")));;
        call (console_error (chalk "Use --force to proceed anyway (will overwrite README.md)."));;
        process_exit 1)).

(** Step 1: Create directory (if not using current) *)
Definition step_directory (options : Options) (projectName targetDir : string)
  : Prog unit :=
  when (negb (opt_here options))
    (call (ora_start "Creating project directory...");;
     present ← call (existsSync targetDir);
     when present
       (call (ora_fail ("Directory " +:+ JS.quoted projectName +:+ " already exists"));;
        process_exit 1);;
     try_catch
       (call (mkdirSync targetDir) ≫= throwing;;
        call (ora_succeed "Created project directory"))
       (λ message,
          call (ora_fail ("Failed to create directory: " +:+ message));;
          process_exit 1)).

(** Step 2: Create README.md *)
Definition step_readme (projectName targetDir : string) : Prog unit :=
  call (ora_start "Creating README.md...");;
  try_catch
    (createReadme targetDir projectName;;
     call (ora_succeed "Created README.md"))
    (λ message,
       call (ora_fail ("Failed to create README.md: " +:+ message));;
       process_exit 1).

(** Step 3: Initialize git *)
Definition step_git (targetDir : string) : Prog unit :=
  call (ora_start "Initializing git repository...");;
  try_catch
    (isRepo ← Git.isGitRepo rt targetDir;
     when (negb isRepo) (Git.gitInit targetDir);;
     Git.gitRenameBranch targetDir "main";;
     call (ora_succeed "Initialized git repository"))
    (λ message,
       call (ora_fail ("Failed to initialize git: " +:+ message));;
       process_exit 1).

(** Step 4: Make first commit *)
Definition step_commit (targetDir : string) : Prog unit :=
  call (ora_start "Creating initial commit...");;
  try_catch
    (Git.gitAddAll targetDir;;
     Git.gitCommit targetDir "Initial commit";;
     call (ora_succeed "Created initial commit"))
    (λ message,
       call (ora_fail ("Failed to create commit: " +:+ message));;
       process_exit 1).

(** Step 5: Create GitHub repo *)
Definition step_github (projectName : string) (isPublic : bool) (org : value)
  : Prog string :=
  call (ora_start "Creating GitHub repository...");;
  try_catch
    (repoUrl ← Github.createRepoOnly projectName isPublic org;
     call (ora_succeed "Created GitHub repository");;
     mret repoUrl)
    (λ message,
       call (ora_fail ("Failed to create GitHub repo: " +:+ message));;
       process_exit 1).

(** Step 6: Add remote *)
Definition step_remote (targetDir repoUrl : string) : Prog unit :=
  call (ora_start "Setting up remote...");;
  try_catch
    (Git.gitAddRemote targetDir repoUrl;;
     call (ora_succeed "Set up remote origin"))
    (λ message,
       call (ora_fail ("Failed to add remote: " +:+ message));;
       process_exit 1).

(** [`${key.name} (${key.identityFile})`] *)
Definition choice_of (key : Ssh.ssh_key) : string * option string :=
  (Ssh.key_name key +:+ " (" +:+
   match Ssh.key_identityFile key with Some f => f | None => "null" end +:+ ")",
   Ssh.key_identityFile key).

(** Step 7, first half: select the SSH key. *)
Definition select_identity : Prog (option string) :=
  sshKeys ← SshIO.getGitHubSSHKeys rt;
  if (1 <? length sshKeys)%nat then
    call (console_log "");;
    selectedKey ←
      call (select "Select SSH key to use for push:" (choice_of <$> sshKeys))
        ≫= throwing;
    call (console_log "");;
    mret selectedKey
  else if (length sshKeys =? 1)%nat then
    mret (match sshKeys with
          | key :: _ => Ssh.key_identityFile key
          | [] => None
          end)
  else mret None.

(** The call [gitPush(targetDir, 'main', selectedIdentityFile)].  [gitPush]
    has the two parameters [dir] and [branch]; a third argument is bound to
    no parameter. *)
Definition gitPush_call (dir branch : string) (identityFile : option string)
  : Prog unit :=
  Git.gitPush dir branch.

(** Step 7, second half: push to main. *)
Definition step_push (targetDir : string) (selectedIdentityFile : option string)
  : Prog unit :=
  call (ora_start "Pushing to GitHub...");;
  try_catch
    (gitPush_call targetDir "main" selectedIdentityFile;;
     call (ora_succeed "Pushed to GitHub"))
    (λ message,
       call (ora_fail ("Failed to push: " +:+ message));;
       process_exit 1).

(** Success message *)
Definition report (options : Options) (projectName targetDir : string) (org : value)
  : Prog unit :=
  call (console_log "");;
  call (console_log (chalk "Done!"));;
  owner ← (if JS.truthy org then mret (JS.to_string org) else Github.getGhUsername);
  let githubUrl := "https://github.com/" +:+ owner +:+ "/" +:+ projectName in
  call (console_log "");;
  call (console_log ("  " +:+ chalk "Repository:" +:+ " " +:+ chalk githubUrl));;
  call (console_log ("  " +:+ chalk "Local path:" +:+ " " +:+ chalk targetDir));;
  call (console_log "");;
  when (negb (opt_here options))
    (call (console_log (chalk ("  cd " +:+ projectName +:+ " to get started")));;
     call (console_log "")).

(** Steps 1 to 7. *)
Definition steps (options : Options) (projectName targetDir : string)
    (isPublic : bool) (org : value) : Prog unit :=
  step_directory options projectName targetDir;;
  step_readme projectName targetDir;;
  step_git targetDir;;
  step_commit targetDir;;
  repoUrl ← step_github projectName isPublic org;
  step_remote targetDir repoUrl;;
  selectedIdentityFile ← select_identity;
  step_push targetDir selectedIdentityFile.

Definition initCommand (projectName : string) (options : Options) : Prog unit :=
  config ← Config.loadConfig rt;
  projectName ← validate_name projectName;
  let isPublic := resolve_visibility options config in
  let org := resolve_org options config in
  validate_org org;;
  let targetDir := target_dir options projectName in
  banner projectName targetDir isPublic org;;
  preflight projectName org;;
  safety_checks options targetDir;;
  steps options projectName targetDir isPublic org;;
  report options projectName targetDir org.

End WithRuntime.
End Init.

(** * The [config] command of [src/index.js] *)

Module Cli.

(** The options object of [config]: [--org <name>], [--visibility <type>]
    and the flag [--show]. *)
Record ConfigOptions : Type := {
  cfg_org : option string;
  cfg_visibility : option string;
  cfg_show : bool;
}.

(** Truthiness of an option that is a string or absent. *)
Definition given (o : option string) : bool :=
  match o with
  | Some s => JS.truthy (VStr s)
  | None => false
  end.

Section WithRuntime.
Context (rt : Runtime).

(** If --show or no options provided, show current config *)
Definition show_config (config : object) : Prog unit :=
  call (console_log "");;
  call (console_log (chalk "repokit configuration"));;
  call (console_log (chalk hrule));;
  call (console_log ("  Config file: " +:+ chalk (Config.getConfigPath rt)));;
  present ← Config.configExists rt;
  call (console_log ("  File exists: " +:+ chalk (if (present : bool) then "yes" else "no")));;
  call (console_log (chalk hrule));;
  call (console_log ("  Default org:        " +:+
          chalk (if JS.truthy (get config "defaultOrg")
                 then JS.to_string (get config "defaultOrg")
                 else "(personal account)")));;
  call (console_log ("  Default visibility: " +:+
          chalk (JS.to_string (get config "defaultVisibility"))));;
  call (console_log "").

(** Update org if provided *)
Definition update_org (options : ConfigOptions) (config : object) : Prog object :=
  match cfg_org options with
  | Some org =>
      if JS.truthy (VStr org) then
        if decide (org = "personal") then
          call (console_log (chalk "Set default org to personal account"));;
          mret (<["defaultOrg" := VNull]> config)
        else
          call (console_log (chalk ("Set default org to " +:+ JS.quoted org)));;
          mret (<["defaultOrg" := VStr org]> config)
      else mret config
  | None => mret config
  end.

(** Update visibility if provided *)
Definition update_visibility (options : ConfigOptions) (config : object)
  : Prog object :=
  match cfg_visibility options with
  | Some visibility =>
      if JS.truthy (VStr visibility) then
        when (negb (bool_decide (visibility ∈ ["public"; "private"])))
          (call (console_error
                   (chalk ("Visibility must be " +:+ JS.quoted "public" +:+
                           " or " +:+ JS.quoted "private")));;
           process_exit 1);;
        call (console_log
                (chalk ("Set default visibility to " +:+ JS.quoted visibility)));;
        mret (<["defaultVisibility" := VStr visibility]> config)
      else mret config
  | None => mret config
  end.

(** The action of the [config] command. *)
Definition configAction (options : ConfigOptions) : Prog unit :=
  config ← Config.loadConfig rt;
  if cfg_show options
     || (negb (given (cfg_org options)) && negb (given (cfg_visibility options)))
  then show_config config
  else
    config ← update_org options config;
    config ← update_visibility options config;
    Config.saveConfig rt config.

End WithRuntime.
End Cli.

(** * A world to run the programs in

    Files with their text, directories, paths that cannot be written, the
    answers of the child processes and of the prompt. *)

Record World : Type := {
  files : gmap string string;
  dirs : gset string;
  locked : gset string;
  processes : string → option string → result string;
  prompt : result (option string);
}.

Definition set_files (w : World) (f : gmap string string) : World :=
  {| files := f; dirs := dirs w; locked := locked w;
     processes := processes w; prompt := prompt w |}.

Definition set_dirs (w : World) (d : gset string) : World :=
  {| files := files w; dirs := d; locked := locked w;
     processes := processes w; prompt := prompt w |}.

Definition world (c : Cmd) (w : World) : Resp c * World :=
  match c return Resp c * World with
  | existsSync p => (bool_decide (is_Some (files w !! p) ∨ p ∈ dirs w), w)
  | readFileSync p =>
      (match files w !! p with
       | Some text => Ok text
       | None => Error ("ENOENT: no such file or directory, open '" +:+ p +:+ "'")
       end, w)
  | writeFileSync p text =>
      if decide (p ∈ locked w)
      then (Error ("EACCES: permission denied, open '" +:+ p +:+ "'"), w)
      else (Ok tt, set_files w (<[p := text]> (files w)))
  | mkdirSync p =>
      if decide (p ∈ locked w)
      then (Error ("EACCES: permission denied, mkdir '" +:+ p +:+ "'"), w)
      else (Ok tt, set_dirs w ({[p]} ∪ dirs w))
  | execSync command dir => (processes w command dir, w)
  | select _ _ => (prompt w, w)
  | console_log _ => (tt, w)
  | console_error _ => (tt, w)
  | console_warn _ => (tt, w)
  | ora_start _ => (tt, w)
  | ora_succeed _ => (tt, w)
  | ora_fail _ => (tt, w)
  end.

(** * The rules of the name validator, as the specification words them *)

Module ValidationSpec.

(** The rules, in the order in which they are applied. *)
Inductive rule : Type :=
| NonEmpty
| MaxLength
| NoLeadingPeriod
| NoLeadingHyphen
| Charset
| NoDotDot.

Definition rank (r : rule) : nat :=
  match r with
  | NonEmpty => 0
  | MaxLength => 1
  | NoLeadingPeriod => 2
  | NoLeadingHyphen => 3
  | Charset => 4
  | NoDotDot => 5
  end.

(** The characters of [[A-Za-z0-9._-]], one by one. *)
Definition allowed : string :=
  "ABCDEFGHIJKLMNOPQRSTUVWXYZabcdefghijklmnopqrstuvwxyz0123456789._-".

(** [violates r t]: the trimmed name [t] breaks rule [r]. *)
Definition violates (r : rule) (t : string) : Prop :=
  match r with
  | NonEmpty => t = ""
  | MaxLength => 100 < String.length t
  | NoLeadingPeriod => ∃ u, t = String "." u
  | NoLeadingHyphen => ∃ u, t = String "-" u
  | Charset => ∃ c, c ∈ JS.chars t ∧ c ∉ JS.chars allowed
  | NoDotDot => ∃ u v, t = u +:+ ".." +:+ v
  end.

(** The message of a rule.  The rule on emptiness has two: one for the
    empty string itself and one for a name made of white space only. *)
Definition message (r : rule) (name : string) : string :=
  match r with
  | NonEmpty =>
      if decide (name = "") then "Project name is required"
      else "Project name cannot be empty"
  | MaxLength => "Project name must be 100 characters or less"
  | NoLeadingPeriod => "Project name cannot start with a period"
  | NoLeadingHyphen => "Project name cannot start with a hyphen"
  | Charset =>
      "Project name can only contain letters, numbers, hyphens, underscores, and periods"
  | NoDotDot => "Project name cannot contain " +:+ JS.quoted ".."
  end.

End ValidationSpec.

(** * The host blocks of an SSH configuration, as the specification words them *)

Module SshSpec.

(** The alias of a [Host <pattern>] line. *)
Definition host_line (line : string) : option string :=
  JS.match_directive "Host" (JS.trim line).

(** The value of a [HostName <value>] line. *)
Definition hostname_line (line : string) : option string :=
  JS.match_directive "HostName" (JS.trim line).

(** A block: the alias of its [Host] line and the lines that follow it, up
    to the next [Host] line or the end of the input. *)
Record block : Type := Block {
  alias : string;
  body : list string;
}.

(** The lines before the next [Host] line. *)
Fixpoint body_of (lines : list string) : list string :=
  match lines with
  | [] => []
  | line :: rest =>
      match host_line line with
      | Some _ => []
      | None => line :: body_of rest
      end
  end.

(** The blocks of a configuration, in the order of the file; the lines
    before the first [Host] line belong to no block. *)
Fixpoint blocks (lines : list string) : list block :=
  match lines with
  | [] => []
  | line :: rest =>
      match host_line line with
      | Some a => {| alias := a; body := body_of rest |} :: blocks rest
      | None => blocks rest
      end
  end.

(** A block is related to the hosting provider if its alias contains the
    canonical host name or one of its [HostName] lines equals it. *)
Definition related (b : block) : bool :=
  JS.includes "github.com" (alias b)
  || existsb (λ line, bool_decide (hostname_line line = Some "github.com")) (body b).

(** The block a [Host] line opens. *)
Definition open_block (a : string) : Ssh.host_block :=
  {| Ssh.host := a; Ssh.name := a; Ssh.identityFile := None;
     Ssh.isGitHub := JS.includes "github.com" a |}.

(** What a line of the body changes in the open block. *)
Definition absorb_line (home : string) (h : Ssh.host_block) (line : string)
  : Ssh.host_block :=
  match hostname_line line with
  | Some hostName =>
      if decide (hostName = "github.com") then
        {| Ssh.host := Ssh.host h; Ssh.name := Ssh.name h;
           Ssh.identityFile := Ssh.identityFile h; Ssh.isGitHub := true |}
      else h
  | None =>
      match JS.match_directive "IdentityFile" (JS.trim line) with
      | Some path =>
          {| Ssh.host := Ssh.host h; Ssh.name := Ssh.name h;
             Ssh.identityFile := Some (JS.replace "~" home path);
             Ssh.isGitHub := Ssh.isGitHub h |}
      | None => h
      end
  end.

(** The object the loop has built for a block when the block is closed. *)
Definition close_block (home : string) (b : block) : Ssh.host_block :=
  foldl (absorb_line home) (open_block (alias b)) (body b).

(** The configuration of the example: a block for [github.com-work] with an
    identity file, and a block for an unrelated host. *)
Definition example_config : string :=
  "Host github.com-work" +:+ nl +:+
  "  IdentityFile ~/.ssh/work" +:+ nl +:+
  nl +:+
  "Host example.com" +:+ nl +:+
  "  IdentityFile ~/.ssh/other" +:+ nl.

End SshSpec.

(** * A run time to run the programs with

    [JSON.stringify(v, null, 2)] after the ECMAScript definition, and a
    reader for the JSON texts made of objects, arrays, strings, [true],
    [false] and [null] (a text with a number is not read).  Paths are joined
    with a slash. *)

Module Json.

Definition dquote : ascii := "034"%char.

Definition hex_digit (n : nat) : ascii :=
  nth n (JS.chars "0123456789abcdef") "0"%char.

(** [QuoteJSONString], one code unit at a time. *)
Definition escape_char (c : ascii) : string :=
  match c with
  | "008"%char => "\b"
  | "009"%char => "\t"
  | "010"%char => "\n"
  | "012"%char => "\f"
  | "013"%char => "\r"
  | "034"%char => String "\" (String dquote "")
  | "\"%char => "\\"
  | _ =>
      let n := nat_of_ascii c in
      if (n <? 32)%nat then
        "\u00" +:+ String (hex_digit (n / 16)) (String (hex_digit (n mod 16)) "")
      else String c ""
  end.

Fixpoint escape (s : string) : string :=
  match s with
  | "" => ""
  | String c s' => escape_char c +:+ escape s'
  end.

Definition quote (s : string) : string :=
  String dquote (escape s +:+ String dquote "").

Fixpoint join_with (sep : string) (l : list string) : string :=
  match l with
  | [] => ""
  | [x] => x
  | x :: l' => x +:+ sep +:+ join_with sep l'
  end.

(** The text of an object or of an array from the texts of its parts, at
    the indentation [indent], with a gap of two spaces. *)
Definition wrap (indent opening closing : string) (parts : list string) : string :=
  let inner := indent +:+ "  " in
  match parts with
  | [] => opening +:+ closing
  | _ => opening +:+ nl +:+ inner +:+ join_with ("," +:+ nl +:+ inner) parts
         +:+ nl +:+ indent +:+ closing
  end.

(** What separates two members of an object at the first level. *)
Definition separator : string := "," +:+ nl +:+ "  ".

(** [SerializeJSONProperty] with a gap of two spaces; [None] is
    [undefined]. *)
Fixpoint stringify_at (indent : string) (v : value) : option string :=
  let inner := indent +:+ "  " in
  match v with
  | VUndefined => None
  | VNull => Some "null"
  | VBool true => Some "true"
  | VBool false => Some "false"
  | VNum repr => Some repr
  | VStr s => Some (quote s)
  | VArr items =>
      Some (wrap indent "[" "]"
              ((fix elements (l : list value) : list string :=
                  match l with
                  | [] => []
                  | x :: l' => default "null" (stringify_at inner x) :: elements l'
                  end) items))
  | VObj fields =>
      Some (wrap indent "{" "}"
              ((fix members (l : list (string * value)) : list string :=
                  match l with
                  | [] => []
                  | (k, x) :: l' =>
                      match stringify_at inner x with
                      | Some text => (quote k +:+ ": " +:+ text) :: members l'
                      | None => members l'
                      end
                  end) fields))
  end.

(** The texts of the members of an object whose members are indented by
    [inner]. *)
Fixpoint members (inner : string) (fields : list (string * value)) : list string :=
  match fields with
  | [] => []
  | (k, x) :: fields' =>
      match stringify_at inner x with
      | Some text => (quote k +:+ ": " +:+ text) :: members inner fields'
      | None => members inner fields'
      end
  end.

Definition stringify (v : value) : string := default "undefined" (stringify_at "" v).

Definition is_space (c : ascii) : bool :=
  match c with
  | " " | "009" | "010" | "013" => true
  | _ => false
  end%char.

Fixpoint skip_spaces (s : string) : string :=
  match s with
  | String c s' => if is_space c then skip_spaces s' else s
  | "" => ""
  end.

Definition hex_value (c : ascii) : option nat :=
  let n := nat_of_ascii c in
  if (48 <=? n)%nat && (n <=? 57)%nat then Some (n - 48)
  else if (97 <=? n)%nat && (n <=? 102)%nat then Some (n - 87)
  else if (65 <=? n)%nat && (n <=? 70)%nat then Some (n - 55)
  else None.

(** The character of a two-character escape. *)
Definition unescape (c : ascii) : option ascii :=
  match c with
  | "b" => Some "008"
  | "t" => Some "009"
  | "n" => Some "010"
  | "f" => Some "012"
  | "r" => Some "013"
  | "034" => Some "034"
  | "\" => Some "\"
  | "/" => Some "/"
  | _ => None
  end%char.

(** A string literal from after its opening quote: the text and the rest of
    the input.  A [\u] escape of a code unit above 255 is not read. *)
Fixpoint read_string (s : string) : option (string * string) :=
  match s with
  | "" => None
  | String "034" rest => Some ("", rest)
  | String "\" (String "u" (String h1 (String h2 (String h3 (String h4 rest))))) =>
      match hex_value h1, hex_value h2, hex_value h3, hex_value h4 with
      | Some 0, Some 0, Some d3, Some d4 =>
          match read_string rest with
          | Some (text, rest') => Some (String (ascii_of_nat (16 * d3 + d4)) text, rest')
          | None => None
          end
      | _, _, _, _ => None
      end
  | String "\" (String e rest) =>
      match unescape e, read_string rest with
      | Some c, Some (text, rest') => Some (String c text, rest')
      | _, _ => None
      end
  | String c rest =>
      if (nat_of_ascii c <? 32)%nat then None
      else match read_string rest with
           | Some (text, rest') => Some (String c text, rest')
           | None => None
           end
  end.

Fixpoint read_value (fuel : nat) (s : string) : option (value * string) :=
  match fuel with
  | O => None
  | S fuel =>
      match skip_spaces s with
      | String "n" (String "u" (String "l" (String "l" rest))) => Some (VNull, rest)
      | String "t" (String "r" (String "u" (String "e" rest))) => Some (VBool true, rest)
      | String "f" (String "a" (String "l" (String "s" (String "e" rest)))) =>
          Some (VBool false, rest)
      | String "034" rest =>
          match read_string rest with
          | Some (text, rest') => Some (VStr text, rest')
          | None => None
          end
      | String "[" rest =>
          match skip_spaces rest with
          | String "]" rest' => Some (VArr [], rest')
          | _ =>
              match read_elements fuel rest with
              | Some (items, rest') => Some (VArr items, rest')
              | None => None
              end
          end
      | String "{" rest =>
          match skip_spaces rest with
          | String "}" rest' => Some (VObj [], rest')
          | _ =>
              match read_members fuel rest with
              | Some (fields, rest') => Some (VObj fields, rest')
              | None => None
              end
          end
      | _ => None
      end
  end
with read_elements (fuel : nat) (s : string) : option (list value * string) :=
  match fuel with
  | O => None
  | S fuel =>
      match read_value fuel s with
      | Some (v, rest) =>
          match skip_spaces rest with
          | String "," rest' =>
              match read_elements fuel rest' with
              | Some (vs, rest'') => Some (v :: vs, rest'')
              | None => None
              end
          | String "]" rest' => Some ([v], rest')
          | _ => None
          end
      | None => None
      end
  end
with read_members (fuel : nat) (s : string) : option (list (string * value) * string) :=
  match fuel with
  | O => None
  | S fuel =>
      match skip_spaces s with
      | String "034" rest =>
          match read_string rest with
          | Some (k, rest1) =>
              match skip_spaces rest1 with
              | String ":" rest2 =>
                  match read_value fuel rest2 with
                  | Some (v, rest3) =>
                      match skip_spaces rest3 with
                      | String "," rest4 =>
                          match read_members fuel rest4 with
                          | Some (fields, rest5) => Some ((k, v) :: fields, rest5)
                          | None => None
                          end
                      | String "}" rest4 => Some ([(k, v)], rest4)
                      | _ => None
                      end
                  | None => None
                  end
              | _ => None
              end
          | None => None
          end
      | _ => None
      end
  end.

Definition parse (s : string) : result value :=
  match read_value (S (String.length s)) s with
  | Some (v, rest) =>
      match skip_spaces rest with
      | "" => Ok v
      | _ => Error "Unexpected non-whitespace character after JSON"
      end
  | None => Error "Unexpected token in JSON"
  end.

End Json.

Definition node : Runtime := {|
  homedir := "/home/user";
  cwd := "/work";
  join := λ a b, a +:+ "/" +:+ b;
  resolve := λ a b, a +:+ "/" +:+ b;
  JSON_parse := Json.parse;
  JSON_stringify := Json.stringify;
|}.

(** * The preference store, as the specification words it *)

Module ConfigSpec.

(** A valid preferences record: an organisation that is absent ([null]) or a
    string, a visibility that is [public] or [private]; either field may be
    missing. *)
Definition valid_preferences (p : object) : Prop :=
  ∀ k v, p !! k = Some v →
    (k = "defaultOrg" ∧ (v = VNull ∨ ∃ org, v = VStr org))
    ∨ (k = "defaultVisibility" ∧ (v = VStr "public" ∨ v = VStr "private")).

(** [merge defaults p]: the fields of [p], and the fields of [defaults] that
    [p] does not have. *)
Definition merge (defaults p : object) : object := p ∪ defaults.

(** What the code relies on from [JSON]: the text written for a valid
    preferences record is read back as that record. *)
Definition JSON_round_trip (rt : Runtime) : Prop :=
  ∀ p, valid_preferences p →
    JSON_parse rt (JSON_stringify rt (to_value p)) = Ok (to_value p).

(** A value that is [null] or a string. *)
Definition scalar (v : value) : Prop := v = VNull ∨ ∃ s, v = VStr s.

End ConfigSpec.

(** * The [config] command, as the specification words it *)

Module CliSpec.

(** The error line of an invalid visibility. *)
Definition visibility_error : Event :=
  Ev (console_error
        (chalk ("Visibility must be " +:+ JS.quoted "public" +:+ " or "
                +:+ JS.quoted "private"))) tt.

(** [repokit config --show --visibility staging] *)
Definition show_staging : Cli.ConfigOptions :=
  {| Cli.cfg_org := None; Cli.cfg_visibility := Some "staging"; Cli.cfg_show := true |}.

(** [repokit config --org acme --visibility staging] *)
Definition acme_staging : Cli.ConfigOptions :=
  {| Cli.cfg_org := Some "acme"; Cli.cfg_visibility := Some "staging";
     Cli.cfg_show := false |}.

End CliSpec.

(** * Worlds for the examples *)

Module Examples.

(** The child processes of a machine where [gh] is installed and logged in
    as [octocat], and where no repository exists yet on the remote side:
    [gh repo view] fails, every other command succeeds. *)
Definition processes_ok (command : string) (dir : option string) : result string :=
  if JS.startsWith "gh repo view " command then
    Error ("Command failed: " +:+ command)
  else if String.eqb command "gh api user --jq .login" then Ok ("octocat" +:+ nl)
  else Ok "".

(** An empty file system. *)
Definition fresh : World :=
  {| files := ∅; dirs := ∅; locked := ∅; processes := processes_ok;
     prompt := Ok None |}.

(** A file system with an SSH configuration that has one GitHub identity. *)
Definition with_identity : World :=
  {| files := {[ "/home/user/.ssh/config" :=
                   "Host github.com-work" +:+ nl +:+
                   "  IdentityFile ~/.ssh/work" +:+ nl ]};
     dirs := ∅; locked := ∅; processes := processes_ok; prompt := Ok None |}.

(** [repokit init demo] *)
Definition init_plain : Init.Options :=
  {| Init.opt_public := false; Init.opt_private := false; Init.opt_here := false;
     Init.opt_force := false; Init.opt_org := None |}.

(** [repokit init demo --public --private] *)
Definition init_both : Init.Options :=
  {| Init.opt_public := true; Init.opt_private := true; Init.opt_here := false;
     Init.opt_force := false; Init.opt_org := None |}.

(** [repokit init demo --here] *)
Definition init_here : Init.Options :=
  {| Init.opt_public := false; Init.opt_private := false; Init.opt_here := true;
     Init.opt_force := false; Init.opt_org := None |}.

(** The working directory is already a repository. *)
Definition in_repository : World :=
  {| files := ∅; dirs := {[ "/work/.git" ]}; locked := ∅;
     processes := processes_ok; prompt := Ok None |}.

End Examples.

(** * Notions used to state the properties of the commands *)

(** [spec p Q]: every run of [p] satisfies [Q]. *)
Definition spec {A : Type} (p : Prog A) (Q : list Event → Outcome A → Prop) : Prop :=
  ∀ tr o, runs p tr o → Q tr o.

Definition cmd_of (e : Event) : Cmd :=
  match e with Ev c _ => c end.

(** The call did not throw. *)
Definition succeeded (e : Event) : bool :=
  match e with
  | Ev c r =>
      match c return Resp c → bool with
      | readFileSync _ => λ r, match r with Ok _ => true | Error _ => false end
      | writeFileSync _ _ => λ r, match r with Ok _ => true | Error _ => false end
      | mkdirSync _ => λ r, match r with Ok _ => true | Error _ => false end
      | execSync _ _ => λ r, match r with Ok _ => true | Error _ => false end
      | select _ _ => λ r, match r with Ok _ => true | Error _ => false end
      | _ => λ _, true
      end r
  end.

(** The calls that change the directory, the local repository or the remote
    one: [mkdirSync], [writeFileSync], the [git] commands (they are the
    child processes given a working directory) and [gh repo create]. *)
Definition is_effect (c : Cmd) : bool :=
  match c with
  | writeFileSync _ _ | mkdirSync _ => true
  | execSync _ (Some _) => true
  | execSync command None => JS.startsWith "gh repo create " command
  | _ => false
  end.

(** The effects of a run, in order, each with whether it succeeded. *)
Definition effects (tr : list Event) : list (Cmd * bool) :=
  (λ e, (cmd_of e, succeeded e)) <$> filter (λ e, is_effect (cmd_of e)) tr.

(** The child processes that only read: the three of the preflight checks
    and the lookup of the user name. *)
Definition is_query (c : Cmd) : bool :=
  match c with
  | execSync command None =>
      String.eqb command "which gh"
      || String.eqb command "gh auth status"
      || JS.startsWith "gh repo view " command
      || String.eqb command "gh api user --jq .login"
  | _ => false
  end.

(** A call that is an effect, a query, or no action at all. *)
Definition accounted (c : Cmd) : Prop :=
  is_action c = false ∨ is_effect c = true ∨ is_query c = true.

(** [always P p]: every call of every run of [p] satisfies [P]. *)
Definition always {A : Type} (P : Cmd → Prop) (p : Prog A) : Prop :=
  spec p (λ tr _, Forall P (calls tr)).

(** An abort-on-first-failure run over the list of steps [W]: the effects
    are the first steps of [W], in order; all succeeded but possibly the
    last; a failed one ends the run with exit status 1; the run returns only
    when all of [W] is done; it may also end between two steps (an exception,
    or an exit with status 1). *)
Inductive conforms : list Cmd → list (Cmd * bool) → Outcome unit → Prop :=
| conforms_done : conforms [] [] (Returned tt)
| conforms_ok c W E o : conforms W E o → conforms (c :: W) ((c, true) :: E) o
| conforms_fail c W : conforms (c :: W) [(c, false)] (Exited 1)
| conforms_stop W o :
    o ≠ Returned tt → (∀ n, o = Exited n → n = 1%Z) → conforms W [] o.

(** The outcome without the value returned. *)
Definition void {A : Type} (o : Outcome A) : Outcome unit :=
  match o with
  | Returned _ => Returned tt
  | Thrown e => Thrown e
  | Exited n => Exited n
  end.

Module InitSpec.

(** The spinner line that ends the preflight checks. *)
Definition preflight_passed : Event := Ev (ora_succeed "Preflight checks passed") tt.

Definition is_preflight_passed (e : Event) : bool :=
  match e with
  | Ev (ora_succeed text) _ => String.eqb text "Preflight checks passed"
  | _ => false
  end.

(** The trace does not hold the line that ends the preflight checks. *)
Definition before_preflight (tr : list Event) : Prop :=
  existsb is_preflight_passed tr = false.

Section WithRuntime.
Context (rt : Runtime).

(** The option of [gh repo create] for a visibility. *)
Definition visibility_flag (isPublic : bool) : string :=
  if isPublic then "--public" else "--private".

(** A call that creates the remote repository does it with the visibility
    [isPublic]. *)
Definition creates_with (isPublic : bool) (c : Cmd) : Prop :=
  ∀ command cwd, c = execSync command cwd →
    JS.startsWith "gh repo create " command = true →
    ∃ fullName,
      command = "gh repo create " +:+ fullName +:+ " " +:+ visibility_flag isPublic.

(** The steps of the workflow for the project [name] in the new directory
    [dir], in order: the directory, the README, version control (initialised
    unless [isRepo]) and the branch [main], the commit, the remote repository
    [fullName], the remote [origin], the push. *)
Definition workflow (name dir fullName visibility : string) (isRepo : bool)
  : list Cmd :=
  [ mkdirSync dir;
    writeFileSync (join rt dir "README.md") ("# " +:+ name +:+ nl) ]
  ++ (if isRepo then [] else [execSync "git init" (Some dir)])
  ++ [ execSync "git branch -M main" (Some dir);
       execSync "git add -A" (Some dir);
       execSync ("git commit -m " +:+ JS.quoted "Initial commit") (Some dir);
       execSync ("gh repo create " +:+ fullName +:+ " " +:+ visibility) None;
       execSync ("git remote add origin " +:+ ("git@github.com:" +:+ fullName +:+ ".git"))
         (Some dir);
       execSync "git push -u origin main" (Some dir) ].

End WithRuntime.
End InitSpec.

(** * Notions used to state the progress of [init] and the name of the
      repository it creates *)

Module WorkflowNotions.

(** The events of a run after the line that ends the preflight checks. *)
Fixpoint after_passed (tr : list Event) : list Event :=
  match tr with
  | [] => []
  | e :: tr' => if InitSpec.is_preflight_passed e then tr' else after_passed tr'
  end.

(** A call that creates a remote repository. *)
Definition is_create (c : Cmd) : bool :=
  match c with
  | execSync command _ => JS.startsWith "gh repo create " command
  | _ => false
  end.

(** The owner of the new repository: the organisation in force, or else the
    user name that [gh api user] answered in the run, trimmed. *)
Definition owner_in (org : value) (tr : list Event) (owner : string) : Prop :=
  if JS.truthy org then owner = JS.to_string org
  else ∃ out,
         Ev (execSync "gh api user --jq .login" None) (Ok out) ∈ tr
         ∧ owner = JS.trim out.

(** Every creation of a repository in the run is that of [<owner>/<name>]
    with the visibility [isPublic]. *)
Definition creations_named (name : string) (org : value) (isPublic : bool)
    (tr : list Event) : Prop :=
  ∀ c r, Ev c r ∈ tr → is_create c = true →
    ∃ owner,
      c = execSync ("gh repo create " +:+ (owner +:+ "/" +:+ name) +:+ " "
                    +:+ InitSpec.visibility_flag isPublic) None
      ∧ owner_in org tr owner.

(** [creates_named name org isPublic p]: the creations of every run of [p]
    are so named. *)
Definition creates_named {A : Type} (name : string) (org : value)
    (isPublic : bool) (p : Prog A) : Prop :=
  spec p (λ tr _, creations_named name org isPublic tr).

(** A call that lets the workflow go on: it succeeded, and it did not find
    the directory [dir]. *)
Definition fine (dir : string) (e : Event) : Prop :=
  succeeded e = true ∧ e ≠ Ev (existsSync dir) true.

(** [goes_on dir p]: a run of [p] all of whose calls are fine returns. *)
Definition goes_on {A : Type} (dir : string) (p : Prog A) : Prop :=
  spec p (λ tr o, Forall (fine dir) tr → ∃ a, o = Returned a).

End WorkflowNotions.

(** * Notions used to state further properties of the commands *)

Module InitNotions.
Section WithRuntime.
Import Init.
Context (rt : Runtime).

(** What is left of a run of [init] once the preflight checks have ended. *)
Definition after_preflight (options : Options) (name : string) (config : object)
  : Prog unit :=
  let isPublic := resolve_visibility options config in
  let org := resolve_org options config in
  let dir := target_dir rt options name in
  safety_checks rt options dir;;
  steps rt options name dir isPublic org;;
  report options name dir org.

(** The spinner line that ends step 6. *)
Definition remote_set_up : Event := Ev (ora_succeed "Set up remote origin") tt.

(** The calls of [init] whose exception nothing catches: the read of the
    SSH configuration, the prompt for the key, the lookup of the user name
    for the report. *)
Definition uncaught (e : string) (ev : Event) : Prop :=
  ev = Ev (readFileSync (SshIO.SSH_CONFIG_PATH rt)) (Error e)
  ∨ (∃ choices, ev = Ev (select "Select SSH key to use for push:" choices) (Error e))
  ∨ ev = Ev (execSync "gh api user --jq .login" None) (Error e).

(** A run that throws does so after step 6, at one of the uncaught calls;
    a run that returns has done step 6. *)
Definition throws_late (tr : list Event) (o : Outcome unit) : Prop :=
  (o = Returned tt → remote_set_up ∈ tr)
  ∧ ∀ e, o = Thrown e →
      remote_set_up ∈ tr ∧ ∃ ev, last tr = Some ev ∧ uncaught e ev.

End WithRuntime.
End InitNotions.

(** The child processes of the preflight checks. *)
Definition is_check (c : Cmd) : bool :=
  match c with
  | execSync command None =>
      String.eqb command "which gh"
      || String.eqb command "gh auth status"
      || JS.startsWith "gh repo view " command
  | _ => false
  end.

(** A preflight check with the answer that stops the run: [which gh] or
    [gh auth status] failed, or [gh repo view] found the repository. *)
Definition failed_check (e : Event) : bool :=
  match e with
  | Ev c r =>
      match c return Resp c → bool with
      | execSync command cwd => λ r,
          match cwd, r with
          | None, Ok _ => JS.startsWith "gh repo view " command
          | None, Error _ =>
              String.eqb command "which gh" || String.eqb command "gh auth status"
          | Some _, _ => false
          end
      | _ => λ _, false
      end r
  end.

(** The characters of the commands besides those of the quoted commit
    message: the characters of a name, white space, and [/], [:], [@]. *)
Definition plain_char (c : ascii) : bool :=
  Validation.name_class c || JS.is_white_space c
  || bool_decide (c = "/"%char) || bool_decide (c = ":"%char)
  || bool_decide (c = "@"%char).

Definition plain (s : string) : bool := JS.all_chars plain_char s.

(** A call that is no child process, or whose command is the commit command
    or is made of plain characters. *)
Definition plain_command (c : Cmd) : Prop :=
  match c with
  | execSync command _ =>
      command = "git commit -m " +:+ JS.quoted "Initial commit"
      ∨ plain command = true
  | _ => True
  end.

(** An answer that goes into later commands, the user name [gh] gives, is
    made of plain characters once trimmed. *)
Definition plain_answer (e : Event) : bool :=
  match e with
  | Ev c r =>
      match c return Resp c → bool with
      | execSync command _ => λ r,
          match r with
          | Ok out =>
              negb (String.eqb command "gh api user --jq .login")
              || plain (JS.trim out)
          | Error _ => true
          end
      | _ => λ _, true
      end r
  end.

(** [plainly p R]: in a run of [p] with plain answers every command is
    plain, and a value returned satisfies [R]. *)
Definition plainly {A : Type} (p : Prog A) (R : A → Prop) : Prop :=
  spec p (λ tr o,
    Forall (λ e, plain_answer e = true) tr →
    Forall plain_command (calls tr) ∧ ∀ a, o = Returned a → R a).

(** [nothrow p]: no run of [p] ends with an exception. *)
Definition nothrow {A : Type} (p : Prog A) : Prop :=
  spec p (λ _ o, ∀ e, o ≠ Thrown e).

(** * The identity file of a block, as the configuration file gives it *)

Module IdentitySpec.

(** The path of an [IdentityFile <path>] line. *)
Definition identity_line (line : string) : option string :=
  JS.match_directive "IdentityFile" (JS.trim line).

(** The paths of the [IdentityFile] lines of a block, in the order of the
    file. *)
Definition identity_paths (b : SshSpec.block) : list string :=
  omap identity_line (SshSpec.body b).

End IdentitySpec.

(** * What [config] stores *)

Module UpdateSpec.
Section WithRuntime.
Context (rt : Runtime).

(** The preferences file of the world is absent, or holds the text of a
    valid preferences record. *)
Definition stored_valid (w : World) : Prop :=
  files w !! Config.CONFIG_FILE rt = None
  ∨ ∃ p, ConfigSpec.valid_preferences p
         ∧ files w !! Config.CONFIG_FILE rt
           = Some (JSON_stringify rt (to_value p)).

(** The organisation [config] stores for the option [--org]: none for
    [personal]. *)
Definition org_value (org : string) : value :=
  if decide (org = "personal") then VNull else VStr org.

(** The configuration [config] stores: the one it loaded, with the
    organisation and the visibility that are given. *)
Definition updated (options : Cli.ConfigOptions) (config : object) : object :=
  let config :=
    match Cli.cfg_org options with
    | Some org =>
        if Cli.given (Some org) then <["defaultOrg" := org_value org]> config
        else config
    | None => config
    end in
  match Cli.cfg_visibility options with
  | Some visibility =>
      if Cli.given (Some visibility)
      then <["defaultVisibility" := VStr visibility]> config
      else config
  | None => config
  end.

End WithRuntime.
End UpdateSpec.

(** * Calls that stay within the project *)

Module FrameSpec.
Section WithRuntime.
Context (rt : Runtime).

(** A call that stays within the project: a directory created is [dir], a
    file written is the README of [dir] with the title [name], a child
    process given a working directory runs in [dir]. *)
Definition within (dir name : string) (c : Cmd) : Prop :=
  match c with
  | mkdirSync path => path = dir
  | writeFileSync path text =>
      path = join rt dir "README.md" ∧ text = "# " +:+ name +:+ nl
  | execSync _ (Some cwd) => cwd = dir
  | _ => True
  end.

(** A call of [config] that acts on the world writes the preferences file. *)
Definition preferences_only (c : Cmd) : Prop :=
  match c with
  | writeFileSync path _ => path = Config.CONFIG_FILE rt
  | mkdirSync _ | execSync _ _ => False
  | _ => True
  end.

End WithRuntime.
End FrameSpec.

(** * More worlds and options to run the programs with *)

Module MoreExamples.

(** [repokit init demo --org "my org"] *)
Definition init_bad_org : Init.Options :=
  {| Init.opt_public := false; Init.opt_private := false; Init.opt_here := false;
     Init.opt_force := false; Init.opt_org := Some "my org" |}.

(** A machine without [gh]. *)
Definition without_gh : World :=
  {| files := ∅; dirs := ∅; locked := ∅;
     processes := λ command dir,
       if String.eqb command "which gh" then Error "Command failed: which gh"
       else Examples.processes_ok command dir;
     prompt := Ok None |}.

(** The directory of the project is there already. *)
Definition with_directory : World :=
  {| files := ∅; dirs := {[ "/work/demo" ]}; locked := ∅;
     processes := Examples.processes_ok; prompt := Ok None |}.

(** Two GitHub identities, and a user who closes the prompt. *)
Definition with_two_identities : World :=
  {| files := {[ "/home/user/.ssh/config" :=
                   "Host github.com-work" +:+ nl +:+
                   "  IdentityFile ~/.ssh/work" +:+ nl +:+
                   "Host github.com" +:+ nl +:+
                   "  IdentityFile ~/.ssh/id_ed25519" +:+ nl ]};
     dirs := ∅; locked := ∅; processes := Examples.processes_ok;
     prompt := Error "User force closed the prompt" |}.

(** A preferences file that sets the organisation only. *)
Definition with_preferences : World :=
  {| files := {[ "/home/user/.repokitrc" :=
                   Json.stringify (VObj [("defaultOrg", VStr "acme")]) ]};
     dirs := ∅; locked := ∅; processes := Examples.processes_ok;
     prompt := Ok None |}.

(** A preferences file whose text is not JSON. *)
Definition with_broken_preferences : World :=
  {| files := {[ "/home/user/.repokitrc" := "{oops" ]};
     dirs := ∅; locked := ∅; processes := Examples.processes_ok;
     prompt := Ok None |}.

(** The user belongs to two organisations. *)
Definition with_organizations : World :=
  {| files := ∅; dirs := ∅; locked := ∅;
     processes := λ _ _, Ok ("acme" +:+ nl +:+ nl +:+ "octo-org" +:+ nl);
     prompt := Ok None |}.

(** The preferences file cannot be written. *)
Definition read_only : World :=
  {| files := ∅; dirs := ∅; locked := {[ "/home/user/.repokitrc" ]};
     processes := Examples.processes_ok; prompt := Ok None |}.

(** [repokit config --org acme --visibility public] *)
Definition acme_public : Cli.ConfigOptions :=
  {| Cli.cfg_org := Some "acme"; Cli.cfg_visibility := Some "public";
     Cli.cfg_show := false |}.

End MoreExamples.

(* ================================================================== *)
(** * Properties *)
(* ================================================================== *)

(** ** Strings *)

Section StringFacts.
Implicit Types (s p u v : string) (c : ascii).

Lemma append_nil_l s : "" +:+ s = s.
Proof. reflexivity. Qed.

Lemma append_cons c s u : String c s +:+ u = String c (s +:+ u).
Proof. reflexivity. Qed.

Lemma append_nil_r s : s +:+ "" = s.
Proof. induction s as [|c s IH]; [done | by rewrite append_cons, IH]. Qed.

Lemma append_assoc s u v : (s +:+ u) +:+ v = s +:+ u +:+ v.
Proof. induction s as [|c s IH]; [done | by rewrite !append_cons, IH]. Qed.

Lemma strip_prefix_Some p s v : JS.strip_prefix p s = Some v ↔ s = p +:+ v.
Proof.
  revert s. induction p as [|a p IH]; intros s; simpl.
  - split; [by intros [= ->] | by intros ->].
  - destruct s as [|b s]; [split; [done | intros [=]] |].
    destruct (decide (a = b)) as [->|Hne].
    + rewrite IH, append_cons. split; [by intros -> | by intros [= ->]].
    + rewrite append_cons. split; [done | intros [= ? ?]; done].
Qed.

Lemma startsWith_strip p s : JS.startsWith p s = bool_decide (is_Some (JS.strip_prefix p s)).
Proof.
  revert s. induction p as [|a p IH]; intros s; simpl; [done |].
  destruct s as [|b s]; [done |].
  destruct (decide (a = b)); [apply IH | done].
Qed.

Lemma startsWith_spec p s : JS.startsWith p s = true ↔ ∃ v, s = p +:+ v.
Proof.
  rewrite startsWith_strip, bool_decide_eq_true. split.
  - intros [v Hv]. exists v. by apply strip_prefix_Some.
  - intros [v Hv]. exists v. by apply strip_prefix_Some.
Qed.

Lemma includes_spec p s : JS.includes p s = true ↔ ∃ u v, s = u +:+ p +:+ v.
Proof.
  induction s as [|c s IH]; simpl.
  - rewrite orb_false_r, startsWith_spec. split.
    + intros [v Hv]. by exists "", v.
    + intros (u & v & Hv). destruct u; [by exists v | done].
  - rewrite orb_true_iff, IH, startsWith_spec. split.
    + intros [[v Hv] | (u & v & Hv)]; [by exists "", v |].
      exists (String c u), v. by rewrite append_cons, Hv.
    + intros (u & v & Hv). destruct u as [|c' u].
      * left. by exists v.
      * right. rewrite append_cons in Hv. injection Hv as -> ->. by exists u, v.
Qed.

Lemma all_chars_spec (f : ascii → bool) s :
  JS.all_chars f s = true ↔ ∀ c, c ∈ JS.chars s → f c = true.
Proof.
  unfold JS.chars. induction s as [|a s IH]; simpl.
  - split; [intros _ c Hc; by apply elem_of_nil in Hc | done].
  - rewrite andb_true_iff, IH. split.
    + intros [Ha Hs] c [->|Hc]%elem_of_cons; auto.
    + intros H. split; [apply H; left | intros c Hc; apply H; by right].
Qed.

Lemma all_chars_false (f : ascii → bool) s :
  JS.all_chars f s = false → ∃ c, c ∈ JS.chars s ∧ f c = false.
Proof.
  unfold JS.chars. induction s as [|a s IH]; simpl; [done |].
  destruct (f a) eqn:Ha; simpl.
  - intros (c & Hc & Hf)%IH. exists c. split; [by right | done].
  - intros _. exists a. split; [by left | done].
Qed.

End StringFacts.

(** ** The name validator *)

Section ValidationFacts.
Import Validation ValidationSpec.

Lemma name_class_allowed c : name_class c = bool_decide (c ∈ JS.chars allowed).
Proof. by destruct c as [[] [] [] [] [] [] [] []]; vm_compute. Qed.

Lemma pattern_test_spec t :
  VALID_NAME_PATTERN_test t = true ↔ t ≠ "" ∧ ¬ violates Charset t.
Proof.
  unfold VALID_NAME_PATTERN_test. rewrite andb_true_iff, negb_true_iff, all_chars_spec.
  rewrite String.eqb_neq. simpl. split.
  - intros [Hne Hall]. split; [done |]. intros (c & Hc & Hnot).
    apply Hall in Hc. rewrite name_class_allowed, bool_decide_eq_true in Hc. done.
  - intros [Hne Hv]. split; [done |]. intros c Hc.
    rewrite name_class_allowed. apply bool_decide_eq_true.
    destruct (decide (c ∈ JS.chars allowed)); [done |].
    exfalso. apply Hv. eauto.
Qed.

Lemma pattern_test_false t :
  t ≠ "" → VALID_NAME_PATTERN_test t = false → violates Charset t.
Proof.
  unfold VALID_NAME_PATTERN_test. intros Hne%String.eqb_neq. rewrite Hne. simpl.
  intros (c & Hc & Hf)%all_chars_false. exists c. split; [done |].
  rewrite name_class_allowed in Hf. by apply bool_decide_eq_false in Hf.
Qed.

Lemma leading_spec (a : ascii) t :
  JS.startsWith (String a "") t = true ↔ ∃ u, t = String a u.
Proof. rewrite startsWith_spec. done. Qed.

Lemma message_rule r1 r2 n1 n2 : message r1 n1 = message r2 n2 → r1 = r2.
Proof.
  destruct r1, r2; simpl; repeat case_decide; try done; intros [=].
Qed.

(** C3. The name validator accepts a string exactly when its trimmed form
    breaks none of the six rules, and then returns the trimmed form; when
    the trimmed form breaks a rule, it fails with the message of the first
    rule broken, in the order non-empty, length, leading period, leading
    hyphen, character set, [..]; the messages of two rules differ. *)
Theorem validateProjectName_spec (name : string) :
  let t := JS.trim name in
  match validateProjectName (VStr name) with
  | Ok validated => validated = t ∧ ∀ r, ¬ violates r t
  | Error m =>
      ∃ r, violates r t ∧ (∀ r', rank r' < rank r → ¬ violates r' t)
           ∧ m = message r name
  end
  ∧ ∀ r1 r2 n1 n2, message r1 n1 = message r2 n2 → r1 = r2.
Proof.
  intros t. split; [| apply message_rule].
  unfold validateProjectName. fold t.
  destruct (String.eqb name "") eqn:Hname.
  { apply String.eqb_eq in Hname as ->. exists NonEmpty. simpl.
    split; [done |]. split; [intros r' Hr'; lia | done]. }
  apply String.eqb_neq in Hname.
  destruct (String.length t =? 0)%nat eqn:Hlen.
  { apply Nat.eqb_eq in Hlen. exists NonEmpty. simpl.
    split; [by destruct t |]. split; [intros r' Hr'; lia |].
    by rewrite decide_False. }
  apply Nat.eqb_neq in Hlen.
  assert (Hne : t ≠ "") by (by intros Ht; rewrite Ht in Hlen).
  destruct (MAX_PROJECT_NAME_LENGTH <? String.length t)%nat eqn:Hmax.
  { apply Nat.ltb_lt in Hmax. exists MaxLength. simpl.
    split; [done |]. split; [| done].
    intros [] Hr'; simpl in *; try lia; done. }
  apply Nat.ltb_ge in Hmax. unfold MAX_PROJECT_NAME_LENGTH in Hmax.
  destruct (JS.startsWith "." t) eqn:Hdot.
  { apply leading_spec in Hdot. exists NoLeadingPeriod. simpl.
    split; [done |]. split; [| done].
    intros [] Hr'; simpl in *; try lia; done. }
  assert (Hdot' : ¬ violates NoLeadingPeriod t).
  { intros H%leading_spec. congruence. }
  destruct (JS.startsWith "-" t) eqn:Hhyp.
  { apply leading_spec in Hhyp. exists NoLeadingHyphen. simpl.
    split; [done |]. split; [| done].
    intros [] Hr'; simpl in Hr'; try lia; try done. simpl; lia. }
  assert (Hhyp' : ¬ violates NoLeadingHyphen t).
  { intros H%leading_spec. congruence. }
  destruct (VALID_NAME_PATTERN_test t) eqn:Hpat; simpl.
  2:{ exists Charset. split.
      - by apply pattern_test_false.
      - split; [| done].
        intros [] Hr'; simpl in Hr'; try lia; try done. simpl; lia. }
  apply pattern_test_spec in Hpat as [_ Hcs].
  destruct (JS.includes ".." t) eqn:Hdd.
  { apply includes_spec in Hdd. exists NoDotDot. split; [done |]. split; [| done].
    intros [] Hr'; simpl in Hr'; try lia; try done. simpl; lia. }
  split; [done |].
  intros [] Hv; try done.
  - simpl in Hv. lia.
  - apply includes_spec in Hv. congruence.
Qed.
End ValidationFacts.

(** ** The SSH identity lister *)

Section SshFacts.
Import Ssh SshSpec.
Implicit Types (home line : string) (h : host_block) (hosts : list host_block).

#[local] Arguments loop_body : simpl never.
#[local] Arguments absorb_line : simpl never.
#[local] Arguments host_line : simpl never.

Lemma flush_app hosts cur : flush hosts cur = hosts ++ flush [] cur.
Proof. destruct cur as [h|]; simpl; [destruct (isGitHub h) |]; by rewrite ?app_nil_r. Qed.

Lemma loop_body_host home hosts cur line a :
  host_line line = Some a →
  loop_body home (hosts, cur) line = (flush hosts cur, Some (open_block a)).
Proof. unfold host_line, loop_body. by intros ->. Qed.

Lemma loop_body_other home hosts cur line :
  host_line line = None →
  loop_body home (hosts, cur) line = (hosts, (λ h, absorb_line home h line) <$> cur).
Proof.
  unfold host_line, loop_body, absorb_line, hostname_line. intros ->.
  destruct cur as [h|]; simpl; [| done].
  destruct (JS.match_directive "HostName" _) as [v|]; [by case_decide |].
  by destruct (JS.match_directive "IdentityFile" _).
Qed.

(** The loop, from any state: the blocks closed so far, then the open block
    once the rest of its body is read, then the blocks of the lines left. *)
Lemma loop_blocks home lines : ∀ hosts cur,
  (let '(hs, c) := foldl (loop_body home) (hosts, cur) lines in flush hs c)
  = hosts
    ++ flush [] ((λ h, foldl (absorb_line home) h (body_of lines)) <$> cur)
    ++ filter (λ h, isGitHub h = true) (close_block home <$> blocks lines).
Proof.
  induction lines as [|line lines IH]; intros hosts cur; simpl.
  - rewrite flush_app, app_nil_r. by destruct cur.
  - destruct (host_line line) as [a|] eqn:Hl.
    + rewrite (loop_body_host _ _ _ _ a) by done. rewrite IH. simpl.
      rewrite (flush_app hosts cur), <- app_assoc. f_equal. f_equal.
      { by destruct cur. }
      change (list_fmap block host_block (close_block home) (blocks lines))
        with (close_block home <$> blocks lines).
      rewrite filter_cons. unfold close_block at 2 3. simpl.
      destruct (isGitHub _) eqn:E; by case_decide.
    + rewrite loop_body_other by done. rewrite IH. by destruct cur.
Qed.

Lemma absorb_host home h ls : host (foldl (absorb_line home) h ls) = host h.
Proof.
  revert h. induction ls as [|l ls IH]; intros h; simpl; [done |].
  rewrite IH. unfold absorb_line.
  destruct (hostname_line l); [by case_decide |].
  by destruct (JS.match_directive "IdentityFile" _).
Qed.

Lemma absorb_isGitHub home h ls :
  isGitHub (foldl (absorb_line home) h ls)
  = isGitHub h
    || existsb (λ line, bool_decide (hostname_line line = Some "github.com")) ls.
Proof.
  revert h. induction ls as [|l ls IH]; intros h; simpl; [by rewrite orb_false_r |].
  rewrite IH. unfold absorb_line.
  destruct (hostname_line l) as [v|] eqn:Hv.
  - case_decide as Heq.
    + subst v. simpl. by rewrite orb_true_r.
    + rewrite (bool_decide_eq_false_2 (Some v = _)) by congruence. done.
  - simpl. by destruct (JS.match_directive "IdentityFile" _).
Qed.

Lemma close_block_related home b : isGitHub (close_block home b) = related b.
Proof. unfold close_block. by rewrite absorb_isGitHub. Qed.

Lemma close_block_host home b : host (close_block home b) = alias b.
Proof. unfold close_block. by rewrite absorb_host. Qed.

Lemma parse_config_blocks home content :
  parse_config home content
  = friendly <$> filter (λ h, isGitHub h = true)
                   (close_block home <$> blocks (JS.split_lines content)).
Proof.
  unfold parse_config.
  pose proof (loop_blocks home (JS.split_lines content) [] None) as H.
  destruct (foldl _ _ _) as [hs c]. by rewrite H.
Qed.

Lemma split_first_prefix p s after :
  JS.strip_prefix p s = Some after → JS.split_first p s = Some ("", after).
Proof. intros H. destruct s; simpl; by rewrite H. Qed.

Lemma replace_prefix p replacement v :
  JS.replace p replacement (p +:+ v)
  = JS.get_substitution p "" v replacement +:+ v.
Proof.
  unfold JS.replace. rewrite (split_first_prefix p _ v); [done |].
  by apply strip_prefix_Some.
Qed.

Lemma get_substitution_other matched before after c r :
  c ≠ "$"%char →
  JS.get_substitution matched before after (String c r)
  = String c (JS.get_substitution matched before after r).
Proof. by destruct c as [[] [] [] [] [] [] [] []]. Qed.

Lemma get_substitution_plain matched before after r :
  "$"%char ∉ JS.chars r → JS.get_substitution matched before after r = r.
Proof.
  unfold JS.chars. induction r as [|c r IH]; [done |].
  intros H. simpl in H. apply not_elem_of_cons in H as [Hc Hr].
  rewrite get_substitution_other by done. by rewrite IH.
Qed.

Lemma split_first_absent (a : ascii) s :
  a ∉ JS.chars s → JS.split_first (String a "") s = None.
Proof.
  unfold JS.chars. induction s as [|c s IH]; [done |]. simpl.
  intros [Hc Hs]%not_elem_of_cons.
  rewrite decide_False by done. by rewrite IH.
Qed.

(** A leading [~] becomes the home directory, if the name of the home
    directory holds no [$]. *)
Lemma replace_leading_tilde home rest :
  "$"%char ∉ JS.chars home → JS.replace "~" home (String "~" rest) = home +:+ rest.
Proof.
  intros Hhome. change (String "~" rest) with ("~" +:+ rest).
  by rewrite replace_prefix, get_substitution_plain.
Qed.

(** A path without [~] is left as it is. *)
Lemma replace_no_tilde home path :
  "~"%char ∉ JS.chars path → JS.replace "~" home path = path.
Proof. intros H. unfold JS.replace. by rewrite split_first_absent. Qed.

Lemma friendly_host h : key_host (friendly h) = host h.
Proof. done. Qed.

Lemma friendly_name h :
  key_name (friendly h)
  = if JS.startsWith "github.com-" (host h) then JS.replace "github.com-" "" (host h)
    else if decide (host h = "github.com") then "default" else host h.
Proof. done. Qed.

Lemma friendly_name_suffix h suffix :
  host h = "github.com-" +:+ suffix → key_name (friendly h) = suffix.
Proof.
  intros Hh. rewrite friendly_name.
  rewrite (proj2 (startsWith_spec _ _)) by eauto.
  rewrite Hh. by rewrite replace_prefix.
Qed.

Lemma friendly_name_default h :
  host h = "github.com" → key_name (friendly h) = "default".
Proof. intros Hh. rewrite friendly_name. by rewrite Hh. Qed.

Lemma friendly_name_other h :
  (∀ suffix, host h ≠ "github.com-" +:+ suffix) → host h ≠ "github.com" →
  key_name (friendly h) = host h.
Proof.
  intros Hns Hnd. rewrite friendly_name.
  destruct (JS.startsWith _ _) eqn:Hsw.
  - apply startsWith_spec in Hsw as [v Hv]. by destruct (Hns v).
  - by rewrite decide_False.
Qed.

Lemma example_config_parse home :
  parse_config home example_config
  = [ {| key_name := "work"; key_host := "github.com-work";
         key_identityFile := Some (JS.replace "~" home "~/.ssh/work") |} ].
Proof. by cbv -[JS.replace]. Qed.

(** X18. The lister returns one entry for each GitHub-related [Host] block of
    the configuration, in the order of the file, and none for the other
    blocks.  The friendly name of an alias [github.com-<suffix>] is
    [<suffix>], that of the alias [github.com] is [default], that of another
    alias is the alias.  For the configuration of the example (a block
    [Host github.com-work] with [IdentityFile ~/.ssh/work], and a block for
    [example.com]) it returns the single entry of name [work] and identity
    file [<home>/.ssh/work]; the name of the home directory is taken without
    the character [$], which [replace] reads as the start of a pattern. *)
Theorem getGitHubSSHKeys_blocks :
  (∀ home content,
     let keys := parse_config home content in
     key_host <$> keys
     = alias <$> filter (λ b, related b = true) (blocks (JS.split_lines content))
     ∧ ∀ key, key ∈ keys →
         (∀ suffix, key_host key = "github.com-" +:+ suffix → key_name key = suffix)
         ∧ (key_host key = "github.com" → key_name key = "default")
         ∧ ((∀ suffix, key_host key ≠ "github.com-" +:+ suffix) →
            key_host key ≠ "github.com" → key_name key = key_host key))
  ∧ (∀ home, "$"%char ∉ JS.chars home →
       parse_config home example_config
       = [ {| key_name := "work"; key_host := "github.com-work";
              key_identityFile := Some (home +:+ "/.ssh/work") |} ]).
Proof.
  split.
  - intros home content keys. subst keys. rewrite parse_config_blocks. split.
    + rewrite <- list_fmap_compose.
      induction (blocks _) as [|b bs IH]; [done |].
      rewrite fmap_cons, !filter_cons, close_block_related.
      destruct (related b) eqn:Hb.
      * rewrite !decide_True by done. rewrite !fmap_cons, IH. simpl.
        by rewrite close_block_host.
      * rewrite !decide_False by done. apply IH.
    + intros key (h & -> & _)%list_elem_of_fmap. rewrite friendly_host.
      split; [apply friendly_name_suffix |].
      split; [apply friendly_name_default | apply friendly_name_other].
  - intros home Hhome.
    by rewrite example_config_parse, replace_leading_tilde.
Qed.

(** The theorem at the home directory [/home/u]. *)
Lemma getGitHubSSHKeys_blocks_witness :
  parse_config "/home/u" example_config
  = [ {| key_name := "work"; key_host := "github.com-work";
         key_identityFile := Some "/home/u/.ssh/work" |} ].
Proof.
  apply (proj2 getGitHubSSHKeys_blocks "/home/u"). vm_compute.
  intros H. by repeat (apply elem_of_cons in H as [H|H]; [discriminate H |]);
    apply elem_of_nil in H.
Defined.

(** C7. The configuration of the example (a block [Host github.com-work]
    with [IdentityFile ~/.ssh/work], and a block for [example.com]) read
    with the home directory [/home/$&x]: the single entry has the name
    [work], but its identity file is [/home/~x/.ssh/work], not
    [/home/$&x/.ssh/work]: [replace] reads the [$&] of the home directory as
    the matched text, the [~]. *)
Lemma getGitHubSSHKeys_home_pattern :
  parse_config "/home/$&x" example_config
  = [ {| key_name := "work"; key_host := "github.com-work";
         key_identityFile := Some "/home/~x/.ssh/work" |} ].
Proof. by vm_compute. Qed.

(** C8. An [IdentityFile] line whose path holds a [~] that is not the first
    character: the path is not recorded unchanged, the [~] inside it is
    replaced by the home directory. *)
Lemma identityFile_inner_tilde :
  parse_config "/home/u"
    ("Host github.com" +:+ nl +:+ "  IdentityFile /keys/id~rsa" +:+ nl)
  = [ {| key_name := "default"; key_host := "github.com";
         key_identityFile := Some "/keys/id/home/ursa" |} ].
Proof. by vm_compute. Qed.

End SshFacts.

(** ** Programs and their runs *)

Section RunFacts.
Context {A : Type}.
Implicit Types (p : Prog A) (tr : list Event) (o : Outcome A).

#[global] Instance Cmd_eq_dec : EqDecision Cmd.
Proof. solve_decision. Defined.

Lemma Ev_inj c (r r' : Resp c) : Ev c r = Ev c r' → r = r'.
Proof.
  intros H. injection H as H.
  by apply (Eqdep_dec.inj_pair2_eq_dec _ Cmd_eq_dec) in H.
Qed.

Lemma Ev_cmd c c' (r : Resp c) (r' : Resp c') : Ev c r = Ev c' r' → c = c'.
Proof. by intros [=]. Qed.

(** What [run] computes is a run. *)
Lemma run_runs {S : Type} (h : ∀ c : Cmd, S → Resp c * S) p (s : S) :
  runs p (run h p s).1.2 (run h p s).1.1.
Proof.
  revert s. induction p as [a|e|n|c k IH]; intros s; simpl; try done.
  destruct (h c s) as [r s1]. specialize (IH r s1).
  destruct (run h (k r) s1) as [[o tr] s2]. simpl in *. eauto.
Qed.

(** A program has one outcome for a trace. *)
Lemma runs_outcome p tr o o' : runs p tr o → runs p tr o' → o = o'.
Proof.
  revert tr. induction p as [a|e|n|c k IH]; intros tr; simpl.
  1-3: by intros [_ ->] [_ ->].
  intros (r & tr1 & -> & H1) (r' & tr2 & Heq & H2).
  injection Heq as Hr <-.
  apply (Eqdep_dec.inj_pair2_eq_dec _ Cmd_eq_dec) in Hr. subst r'. eauto.
Qed.

End RunFacts.

Section BindFacts.
Context {A B : Type}.

Lemma runs_bind (p : Prog A) (f : A → Prog B) tr o :
  runs (p ≫= f) tr o ↔
    (∃ a tr1 tr2, runs p tr1 (Returned a) ∧ runs (f a) tr2 o ∧ tr = tr1 ++ tr2)
    ∨ (∃ e, runs p tr (Thrown e) ∧ o = Thrown e)
    ∨ (∃ n, runs p tr (Exited n) ∧ o = Exited n).
Proof.
  change (p ≫= f) with (bind p f).
  revert tr. induction p as [a|e|n|c k IH]; intros tr; simpl.
  - split.
    + intros H. left. by exists a, [], tr.
    + intros [(a' & tr1 & tr2 & [-> [= <-]] & H' & ->) | [(e & [_ [=]] & _) | (n & [_ [=]] & _)]].
      done.
  - split.
    + intros [-> ->]. right; left. by exists e.
    + intros [(a' & tr1 & tr2 & [_ [=]] & _) | [(e' & [-> [= <-]] & ->) | (n & [_ [=]] & _)]].
      done.
  - split.
    + intros [-> ->]. right; right. by exists n.
    + intros [(a' & tr1 & tr2 & [_ [=]] & _) | [(e' & [_ [=]] & _) | (n' & [-> [= <-]] & ->)]].
      done.
  - split.
    + intros (r & tr' & -> & H). apply IH in H as [(a & tr1 & tr2 & H1 & H2 & ->) | [(e & H1 & ->) | (n & H1 & ->)]].
      * left. exists a, (Ev c r :: tr1), tr2. eauto 10.
      * right; left. exists e. eauto 10.
      * right; right. exists n. eauto 10.
    + intros [(a & tr1 & tr2 & (r & tr' & -> & H1) & H2 & ->) | [(e & (r & tr' & -> & H1) & ->) | (n & (r & tr' & -> & H1) & ->)]];
        exists r; eexists; (split; [done |]); apply IH; eauto 10.
Qed.

End BindFacts.

Lemma runs_try_catch {A : Type} (p : Prog A) (h : string → Prog A) tr o :
  runs (try_catch p h) tr o ↔
    (∃ a, runs p tr (Returned a) ∧ o = Returned a)
    ∨ (∃ e tr1 tr2, runs p tr1 (Thrown e) ∧ runs (h e) tr2 o ∧ tr = tr1 ++ tr2)
    ∨ (∃ n, runs p tr (Exited n) ∧ o = Exited n).
Proof.
  revert tr. induction p as [a|e|n|c k IH]; intros tr; simpl.
  - split.
    + intros [-> ->]. left. by exists a.
    + intros [(a' & [-> [= <-]] & ->) | [(e & tr1 & tr2 & [_ [=]] & _) | (n & [_ [=]] & _)]].
      done.
  - split.
    + intros H. right; left. by exists e, [], tr.
    + intros [(a' & [_ [=]] & _) | [(e' & tr1 & tr2 & [-> [= <-]] & H' & ->) | (n & [_ [=]] & _)]].
      done.
  - split.
    + intros [-> ->]. right; right. by exists n.
    + intros [(a' & [_ [=]] & _) | [(e' & tr1 & tr2 & [_ [=]] & _) | (n' & [-> [= <-]] & ->)]].
      done.
  - split.
    + intros (r & tr' & -> & H). apply IH in H as [(a & H1 & ->) | [(e & tr1 & tr2 & H1 & H2 & ->) | (n & H1 & ->)]].
      * left. exists a. eauto 10.
      * right; left. exists e, (Ev c r :: tr1), tr2. eauto 10.
      * right; right. exists n. eauto 10.
    + intros [(a & (r & tr' & -> & H1) & ->) | [(e & tr1 & tr2 & (r & tr' & -> & H1) & H2 & ->) | (n & (r & tr' & -> & H1) & ->)]];
        exists r; eexists; (split; [done |]); apply IH; eauto 10.
Qed.

(** ** Rules to derive [spec] *)

Section SpecRules.
Context {A : Type}.
Implicit Types (p : Prog A) (Q : list Event → Outcome A → Prop).

Lemma spec_ret (a : A) Q : Q [] (Returned a) → spec (mret a) Q.
Proof. by intros H tr o [-> ->]. Qed.

Lemma spec_throw e Q : Q [] (Thrown e) → spec (Throw e) Q.
Proof. by intros H tr o [-> ->]. Qed.

Lemma spec_exit n Q : Q [] (Exited n) → spec (process_exit n) Q.
Proof. by intros H tr o [-> ->]. Qed.

Lemma spec_mono p Q Q' : spec p Q' → (∀ tr o, Q' tr o → Q tr o) → spec p Q.
Proof. intros H HQ tr o Hr. auto. Qed.

Lemma spec_throwing (r : result A) Q :
  (∀ a, r = Ok a → Q [] (Returned a)) → (∀ e, r = Error e → Q [] (Thrown e)) →
  spec (throwing r) Q.
Proof. destruct r; intros H1 H2 tr o [-> ->]; auto. Qed.

Lemma spec_try_catch p (h : string → Prog A) Q :
  spec p (λ tr1 o1,
            match o1 with
            | Thrown e => spec (h e) (λ tr2 o, Q (tr1 ++ tr2) o)
            | _ => Q tr1 o1
            end) →
  spec (try_catch p h) Q.
Proof.
  intros H tr o [(a & Hr & ->) | [(e & tr1 & tr2 & H1 & H2 & ->) | (n & Hr & ->)]]%runs_try_catch.
  - apply (H _ _ Hr).
  - apply (H _ _ H1 _ _ H2).
  - apply (H _ _ Hr).
Qed.

End SpecRules.

Lemma spec_call (c : Cmd) (Q : list Event → Outcome (Resp c) → Prop) :
  (∀ r, Q [Ev c r] (Returned r)) → spec (call c) Q.
Proof. intros H tr o (r & tr' & -> & -> & ->). apply H. Qed.

Lemma spec_bind {A B : Type} (p : Prog A) (f : A → Prog B)
    (Q : list Event → Outcome B → Prop) :
  spec p (λ tr1 o1,
            match o1 with
            | Returned a => spec (f a) (λ tr2 o, Q (tr1 ++ tr2) o)
            | Thrown e => Q tr1 (Thrown e)
            | Exited n => Q tr1 (Exited n)
            end) →
  spec (p ≫= f) Q.
Proof.
  intros H tr o [(a & tr1 & tr2 & H1 & H2 & ->) | [(e & Hr & ->) | (n & Hr & ->)]]%runs_bind.
  - apply (H _ _ H1 _ _ H2).
  - apply (H _ _ Hr).
  - apply (H _ _ Hr).
Qed.

Lemma spec_when (b : bool) (p : Prog unit) (Q : list Event → Outcome unit → Prop) :
  (b = true → spec p Q) → (b = false → Q [] (Returned tt)) → spec (when b p) Q.
Proof. destruct b; simpl; intros H1 H2; [auto | by apply spec_ret, H2]. Qed.

Lemma spec_vis {A : Type} (c : Cmd) (k : Resp c → Prog A)
    (Q : list Event → Outcome A → Prop) :
  (∀ r, spec (k r) (λ tr o, Q (Ev c r :: tr) o)) → spec (Vis c k) Q.
Proof. intros H tr o (r & tr' & -> & Hr). by apply (H r). Qed.

(** Symbolic execution of a goal [spec p Q] for a program [p] given by its
    code: the program is computed up to its next call, the call is answered
    by a variable, and a test on an answer is decided by cases. *)
Ltac stuck_at p :=
  lazymatch p with
  | bind ?q _ => stuck_at q
  | try_catch ?q _ => stuck_at q
  | when ?b _ => destruct b eqn:?
  | throwing ?r => destruct r eqn:?
  | (if ?b then _ else _) => destruct b eqn:?
  | (match ?x with _ => _ end) => destruct x eqn:?
  end.

Ltac spec_step :=
  lazymatch goal with
  | |- spec (Vis _ _) _ => apply spec_vis; intros ?
  | |- spec (Ret _) _ => apply (spec_ret (A:=_))
  | |- spec (Throw _) _ => apply spec_throw
  | |- spec (Exit _) _ => apply (spec_exit (A:=_))
  | |- spec ?p _ => stuck_at p
  end.

Ltac spec_norm :=
  repeat progress
    (unfold mbind, mret, Prog_bind, Prog_ret, call, process_exit;
     cbn [bind try_catch when throwing]).

Ltac spec_run :=
  lazymatch goal with
  | |- spec _ ?Q =>
      let post := fresh "post" in
      set (post := Q); repeat (spec_norm; spec_step); subst post; cbv beta
  end.

(** ** [loadConfig] and [saveConfig] *)

Section ConfigFacts.
Import Config.

(** Spreading a list of fields without a repeated name is a union. *)
Lemma foldl_insert_union (l : list (string * value)) : ∀ m : object,
  NoDup l.*1 →
  foldl (λ o kv, <[kv.1 := kv.2]> o) m l = list_to_map l ∪ m.
Proof.
  induction l as [|[k v] l IH]; intros m Hnd; simpl.
  - by rewrite (left_id_L ∅ (∪)).
  - apply NoDup_cons in Hnd as [Hk Hnd]. rewrite IH by done.
    rewrite <- insert_union_r by (by apply not_elem_of_list_to_map_1).
    by rewrite insert_union_l.
Qed.

Lemma spread_to_value (m p : object) : spread m (to_value p) = p ∪ m.
Proof.
  unfold spread, to_value, own_properties.
  rewrite foldl_insert_union by apply NoDup_fst_map_to_list.
  by rewrite list_to_map_to_list.
Qed.

Lemma spread_default : spread ∅ (to_value DEFAULT_CONFIG) = DEFAULT_CONFIG.
Proof. by rewrite spread_to_value, (right_id_L ∅ (∪)). Qed.

Section WithRuntime.
Context (rt : Runtime).

Lemma Ev_eq_inv c (r r' : Resp c) tr tr' :
  Ev c r :: tr = Ev c r' :: tr' → r = r' ∧ tr = tr'.
Proof. intros H. split; [apply Ev_inj |]; congruence. Qed.

(** C6. Loading the preferences never fails the caller: a run of [loadConfig]
    is one of four, and each returns a record.  The file is absent: nothing
    is read and the record is the built-in defaults, whose organisation is
    [null] and whose visibility is [private].  The file is there and is
    read, but its text is not JSON: one warning is printed and the record is
    the built-in defaults.  The file is there but reading it fails: the same
    warning, the same record.  The file is there and its text is JSON: the
    record is the defaults overridden by the fields of the file, and nothing
    is printed.  Each of the four is a run of [loadConfig]. *)
Theorem loadConfig_never_fails (tr : list Event) (o : Outcome object) :
  let warning :=
    Ev (console_warn ("Warning: Could not parse " +:+ CONFIG_FILE rt
                      +:+ ", using defaults")) tt in
  (runs (loadConfig rt) tr o ↔
     (tr = [Ev (existsSync (CONFIG_FILE rt)) false]
      ∧ o = Returned DEFAULT_CONFIG)
     ∨ (∃ content message,
          tr = [Ev (existsSync (CONFIG_FILE rt)) true;
                Ev (readFileSync (CONFIG_FILE rt)) (Ok content); warning]
          ∧ JSON_parse rt content = Error message
          ∧ o = Returned DEFAULT_CONFIG)
     ∨ (∃ message,
          tr = [Ev (existsSync (CONFIG_FILE rt)) true;
                Ev (readFileSync (CONFIG_FILE rt)) (Error message); warning]
          ∧ o = Returned DEFAULT_CONFIG)
     ∨ (∃ content userConfig,
          tr = [Ev (existsSync (CONFIG_FILE rt)) true;
                Ev (readFileSync (CONFIG_FILE rt)) (Ok content)]
          ∧ JSON_parse rt content = Ok userConfig
          ∧ o = Returned (spread DEFAULT_CONFIG userConfig)))
  ∧ get DEFAULT_CONFIG "defaultOrg" = VNull
  ∧ get DEFAULT_CONFIG "defaultVisibility" = VStr "private".
Proof.
  intros warning. split; [| done]. split.
  - revert tr o.
    match goal with |- ∀ tr o, _ → @?Q tr o =>
      change (spec (loadConfig rt) Q) end.
    unfold loadConfig. spec_run.
    all: rewrite ?spread_default.
    all: repeat match goal with r : Resp (console_warn _) |- _ => destruct r end.
    all: match goal with r : Resp (existsSync _) |- _ => destruct r end.
    all: try match goal with H : negb _ = _ |- _ => discriminate H end.
    all: first
      [ left; split; reflexivity
      | right; left; do 2 eexists;
        split; [reflexivity | split; [eassumption | reflexivity]]
      | right; right; left; eexists; split; reflexivity
      | right; right; right; do 2 eexists;
        split; [reflexivity | split; [eassumption | reflexivity]] ].
  - unfold loadConfig.
    intros [[-> ->] | [(content & message & -> & Hp & ->)
                      | [(message & -> & ->)
                        | (content & userConfig & -> & Hp & ->)]]].
    + exists false, []. by rewrite spread_default.
    + exists true, [Ev (readFileSync (CONFIG_FILE rt)) (Ok content); warning].
      split; [done |]. cbn [negb]. apply runs_try_catch. right; left.
      exists message, [Ev (readFileSync (CONFIG_FILE rt)) (Ok content)], [warning].
      split; [| split; [| done]].
      * exists (Ok content), []. split; [done |]. simpl. rewrite Hp. done.
      * exists tt, []. by rewrite spread_default.
    + exists true, [Ev (readFileSync (CONFIG_FILE rt)) (Error message); warning].
      split; [done |]. cbn [negb]. apply runs_try_catch. right; left.
      exists message, [Ev (readFileSync (CONFIG_FILE rt)) (Error message)], [warning].
      split; [| split; [| done]].
      * exists (Error message), []. done.
      * exists tt, []. by rewrite spread_default.
    + exists true, [Ev (readFileSync (CONFIG_FILE rt)) (Ok content)].
      split; [done |]. cbn [negb]. apply runs_try_catch. left.
      eexists. split; [| reflexivity].
      exists (Ok content), []. split; [done |]. simpl. rewrite Hp.
      by rewrite spread_default.
Qed.

End WithRuntime.

(** The theorem for a preferences file whose text is [{oops]: the file is
    read, the warning is printed, and the record is the built-in defaults. *)
Lemma loadConfig_never_fails_witness :
  let r := run world (loadConfig node) MoreExamples.with_broken_preferences in
  let warning :=
    Ev (console_warn ("Warning: Could not parse /home/user/.repokitrc, using defaults"))
      tt in
  r.1.2 = [Ev (existsSync "/home/user/.repokitrc") true;
           Ev (readFileSync "/home/user/.repokitrc") (Ok "{oops"); warning]
  ∧ r.1.1 = Returned DEFAULT_CONFIG.
Proof.
  intros r warning.
  assert (r.1.2 = [Ev (existsSync "/home/user/.repokitrc") true;
           Ev (readFileSync "/home/user/.repokitrc") (Ok "{oops"); warning]) as Htr
    by (vm_compute; reflexivity).
  split; [exact Htr |].
  pose proof (run_runs world (loadConfig node)
                MoreExamples.with_broken_preferences) as Hrun.
  fold r in Hrun.
  apply (proj1 (loadConfig_never_fails node r.1.2 r.1.1)) in Hrun.
  rewrite Htr in Hrun. clear Htr.
  destruct Hrun as [[H _] | [(content & message & _ & _ & Ho)
                    | [(message & H & _) | (content & userConfig & H & _)]]].
  - apply (f_equal length) in H. discriminate H.
  - exact Ho.
  - apply Ev_eq_inv in H as [_ H]. apply Ev_eq_inv in H as [H _]. discriminate H.
  - apply (f_equal length) in H. discriminate H.
Defined.


End ConfigFacts.

(** ** The JSON reader reads what [stringify] writes for a flat record *)

Section JsonFacts.
Import Json.
#[local] Arguments String.append : simpl nomatch.

Lemma read_string_escape_char c tail text rest :
  read_string tail = Some (text, rest) →
  read_string (escape_char c +:+ tail) = Some (String c text, rest).
Proof.
  intros H. destruct c as [[] [] [] [] [] [] [] []]; simpl; by rewrite H.
Qed.

Lemma read_string_escape s rest :
  read_string (escape s +:+ String dquote rest) = Some (s, rest).
Proof.
  induction s as [|c s IH]; [done |].
  cbn [escape]. rewrite append_assoc. by apply read_string_escape_char.
Qed.

Lemma read_string_quote s rest :
  read_string (escape s +:+ String dquote "" +:+ rest) = Some (s, rest).
Proof. apply read_string_escape. Qed.

Lemma stringify_at_obj indent fields :
  stringify_at indent (VObj fields)
  = Some (wrap indent "{" "}" (members (indent +:+ "  ") fields)).
Proof.
  cbn [stringify_at]. do 2 f_equal.
  induction fields as [|[k x] fields IH]; [done |].
  cbn [members]. rewrite <- IH. by destruct (stringify_at _ x).
Qed.

Lemma length_append (s t : string) :
  String.length (s +:+ t) = String.length s + String.length t.
Proof. induction s as [|c s IH]; [done |]. cbn. by rewrite IH. Qed.

Lemma join_with_cons sep x l :
  l ≠ [] → join_with sep (x :: l) = x +:+ sep +:+ join_with sep l.
Proof. by destruct l. Qed.

Lemma read_value_scalar fuel v text rest :
  ConfigSpec.scalar v → stringify_at "  " v = Some text →
  read_value (S fuel) (String " " (text +:+ rest)) = Some (v, rest).
Proof.
  intros [-> | [s ->]] [= <-]; [done |].
  unfold quote. cbn. rewrite append_assoc. cbn.
  by rewrite read_string_escape.
Qed.

(** The members of a flat object, as [stringify] lays them out, are read
    back. *)
Lemma read_members_flat fields : ∀ fuel rest,
  fields ≠ [] → Forall (λ kv, ConfigSpec.scalar kv.2) fields →
  length fields < fuel →
  read_members fuel
    (nl +:+ "  " +:+ join_with separator (members "  " fields) +:+ nl +:+ "}" +:+ rest)
  = Some (fields, rest).
Proof.
  induction fields as [|[k v] fields IH]; intros fuel rest Hne Hflat Hfuel; [done |].
  apply Forall_cons in Hflat as [Hv Hflat]. simpl in Hv.
  destruct fuel as [|fuel]; [simpl in Hfuel; lia |].
  destruct fuel as [|fuel]; [simpl in Hfuel; lia |].
  assert (∃ text, stringify_at "  " v = Some text) as [text Htext].
  { destruct Hv as [-> | [s ->]]; eauto. }
  remember (S fuel) as f1 eqn:Hf1.
  cbn [members]. rewrite Htext.
  destruct fields as [|kv' fields].
  - cbn [members join_with]. unfold quote, nl. cbn. rewrite !append_assoc. cbn.
    rewrite read_string_escape. cbn. rewrite ?append_assoc, Hf1.
    rewrite (read_value_scalar fuel v text) by done. done.
  - assert (members "  " (kv' :: fields) ≠ []) as Hm.
    { destruct kv' as [k' v']. apply Forall_cons in Hflat as [Hv' _].
      simpl in Hv'. cbn [members]. by destruct Hv' as [-> | [s ->]]. }
    remember (kv' :: fields) as l eqn:Hl.
    specialize (IH f1 rest). unfold nl, separator in IH. cbn in IH.
    rewrite join_with_cons by done.
    unfold quote, nl, separator. cbn. rewrite !append_assoc. cbn.
    rewrite read_string_escape. cbn. rewrite ?append_assoc, ?append_nil_l.
    rewrite Hf1, (read_value_scalar fuel v text) by done. rewrite <- Hf1. cbn.
    rewrite IH; [done | by subst l | done | subst f1 l; simpl in *; lia].
Qed.

Lemma members_flat_cons k v fields :
  ConfigSpec.scalar v → ∃ text,
    members "  " ((k, v) :: fields) = (quote k +:+ ": " +:+ text) :: members "  " fields.
Proof. intros [-> | [s ->]]; cbn [members stringify_at]; eauto. Qed.

Lemma members_flat_length fields :
  Forall (λ kv, ConfigSpec.scalar kv.2) fields →
  length (members "  " fields) = length fields
  ∧ Forall (λ m, ∃ t, m = String dquote t) (members "  " fields).
Proof.
  induction 1 as [|[k v] fields Hv _ [IH1 IH2]]; [done |].
  destruct (members_flat_cons k v fields Hv) as [text ->]. simpl. split; [by rewrite IH1 |].
  constructor; [| done]. unfold quote. eexists. by cbn.
Qed.

Lemma members_flat_ne fields :
  fields ≠ [] → Forall (λ kv, ConfigSpec.scalar kv.2) fields →
  members "  " fields ≠ [].
Proof.
  intros Hne [Hlen _]%members_flat_length Hm. rewrite Hm in Hlen.
  by destruct fields.
Qed.

Lemma join_with_quoted sep ms :
  ms ≠ [] → Forall (λ m, ∃ t, m = String dquote t) ms →
  (∃ t, join_with sep ms = String dquote t)
  ∧ length ms ≤ String.length (join_with sep ms).
Proof.
  intros Hne Hall. induction Hall as [|m ms [t ->] _ IH]; [done |].
  destruct ms as [|m' ms]; [cbn; split; [eauto | lia] |].
  rewrite join_with_cons by done. split; [cbn; eauto |].
  destruct IH as [_ IH]; [done |].
  rewrite !length_append. simpl in *. lia.
Qed.

(** The text of a flat object that has a member is read back. *)
Lemma read_value_flat fields fuel rest :
  fields ≠ [] → Forall (λ kv, ConfigSpec.scalar kv.2) fields →
  length fields < fuel →
  read_value (S fuel)
    ("{" +:+ nl +:+ "  " +:+ join_with separator (members "  " fields)
       +:+ nl +:+ "}" +:+ rest)
  = Some (VObj fields, rest).
Proof.
  intros Hne Hflat Hfuel.
  pose proof (read_members_flat fields fuel rest Hne Hflat Hfuel) as HM.
  destruct (members_flat_length fields Hflat) as [Hlen Hq].
  destruct (join_with_quoted separator (members "  " fields)) as [[t Ht] _];
    [by apply members_flat_ne | done |].
  rewrite Ht in *. unfold nl in *. cbn in HM. cbn. by rewrite HM.
Qed.

(** The reader and the writer of [node] agree on the valid preferences
    records. *)
Lemma node_round_trip : ConfigSpec.JSON_round_trip node.
Proof.
  intros p Hp. cbn [JSON_parse JSON_stringify node]. unfold to_value.
  assert (Forall (λ kv, ConfigSpec.scalar kv.2) (map_to_list p)) as Hflat.
  { apply Forall_forall. intros [k v] Hkv%elem_of_map_to_list.
    destruct (Hp k v Hkv) as [[_ H] | [_ [-> | ->]]];
      [done | right; eauto | right; eauto]. }
  unfold stringify. rewrite stringify_at_obj.
  unfold default. cbn [from_option]. unfold id.
  change ("" +:+ "  ") with "  ".
  destruct (map_to_list p) as [|kv fields] eqn:Hl; [done |].
  rewrite <- Hl in *.
  assert (map_to_list p ≠ []) as Hne by (by rewrite Hl).
  destruct (members_flat_length _ Hflat) as [Hlen Hq].
  destruct (join_with_quoted separator (members "  " (map_to_list p))) as [_ Hjoin];
    [by apply members_flat_ne | done |].
  assert (wrap "" "{" "}" (members "  " (map_to_list p))
          = "{" +:+ nl +:+ "  " +:+ join_with separator (members "  " (map_to_list p))
              +:+ nl +:+ "}" +:+ "") as ->.
  { unfold wrap. destruct (members "  " (map_to_list p)); [| done].
    rewrite Hl in Hlen. done. }
  unfold parse. rewrite read_value_flat; [done | done | done |].
  rewrite !length_append. simpl. lia.
Qed.

End JsonFacts.

(** ** Saving, then loading *)

Section RoundTrip.
Import Config ConfigSpec.

Lemma get_merge (defaults p : object) k :
  get (merge defaults p) k
  = match p !! k with Some v => v | None => get defaults k end.
Proof.
  unfold get, merge. rewrite lookup_union.
  destruct (p !! k), (defaults !! k); done.
Qed.

(** C5. In a world where [JSON] reads back what it writes for a valid
    preferences record: after a valid record [p] has been saved, loading
    returns the built-in defaults merged with [p], in which a field of [p]
    has the value [p] gives it and a field absent from [p] has its default
    value. *)
Theorem save_then_load (rt : Runtime) (p : object) (w w' : World) (tr : list Event) :
  JSON_round_trip rt → valid_preferences p →
  run world (saveConfig rt p) w = (Returned tt, tr, w') →
  (run world (loadConfig rt) w').1.1 = Returned (merge DEFAULT_CONFIG p)
  ∧ ∀ k, get (merge DEFAULT_CONFIG p) k
         = match p !! k with Some v => v | None => get DEFAULT_CONFIG k end.
Proof.
  intros Hjson Hp Hsave. split; [| intros k; apply get_merge].
  unfold saveConfig in Hsave. cbn in Hsave.
  destruct (decide (CONFIG_FILE rt ∈ locked w)) as [|Hfree]; [done |].
  cbn in Hsave. injection Hsave as <- <-.
  unfold loadConfig. cbn -[spread].
  rewrite lookup_insert_eq. cbn -[spread].
  rewrite lookup_insert_eq. cbn -[spread].
  rewrite Hjson by done. cbn -[spread].
  by rewrite spread_default, spread_to_value.
Qed.

(** The theorem for the record that sets the organisation only, saved in an
    empty world. *)
Lemma save_then_load_witness :
  let p : object := {["defaultOrg" := VStr "acme"]} in
  let w : World := {| files := ∅; dirs := ∅; locked := ∅;
                      processes := λ _ _, Ok ""; prompt := Ok None |} in
  (run world (loadConfig node) (run world (saveConfig node p) w).2).1.1
  = Returned (merge DEFAULT_CONFIG p)
  ∧ get (merge DEFAULT_CONFIG p) "defaultOrg" = VStr "acme"
  ∧ get (merge DEFAULT_CONFIG p) "defaultVisibility" = VStr "private".
Proof.
  intros p w.
  assert (Hp : valid_preferences p).
  { intros k v [<- <-]%lookup_singleton_Some. left. eauto. }
  destruct (run world (saveConfig node p) w) as [[o tr] w'] eqn:Hsave.
  assert (o = Returned tt) as -> by (by vm_compute in Hsave; injection Hsave as <- _ _).
  destruct (save_then_load node p w w' tr node_round_trip Hp Hsave) as [Hload Hget].
  split; [exact Hload |]. rewrite !Hget. by vm_compute.
Defined.

End RoundTrip.

(** ** The push and the selected identity *)

Section PushFacts.
Import Init.

(** C2. On a machine whose SSH configuration has one GitHub identity, the
    lister finds it, and the run pushes with the plain command
    [git push -u origin main] in the project directory: the identity file
    appears in no command of the run. *)
Lemma push_ignores_identity :
  let run_init := run world (initCommand node "demo" Examples.init_plain)
                    Examples.with_identity in
  (run world (SshIO.getGitHubSSHKeys node) Examples.with_identity).1.1
  = Returned [ {| Ssh.key_name := "work"; Ssh.key_host := "github.com-work";
                  Ssh.key_identityFile := Some "/home/user/.ssh/work" |} ]
  ∧ run_init.1.1 = Returned tt
  ∧ last (effects run_init.1.2)
    = Some (execSync "git push -u origin main" (Some "/work/demo"), true)
  ∧ Forall (λ c, match c with
                 | execSync command _ => JS.includes ".ssh/work" command = false
                 | _ => True
                 end) (calls run_init.1.2).
Proof.
  intros run_init. split; [by vm_compute |]. split; [by vm_compute |].
  split; [by vm_compute |].
  apply Forall_forall. intros c Hc. vm_compute in Hc.
  repeat (apply elem_of_cons in Hc as [-> | Hc]; [by vm_compute |]).
  by apply elem_of_nil in Hc.
Qed.

(** The command of the push step does not depend on the identity it is
    given. *)
Lemma step_push_any_identity (dir : string) (identityFile identityFile' : option string) :
  step_push dir identityFile = step_push dir identityFile'.
Proof. reflexivity. Qed.

End PushFacts.

(** ** Traces *)

Section TraceFacts.
Implicit Types (tr : list Event) (e : Event).

Lemma effects_app tr1 tr2 : effects (tr1 ++ tr2) = effects tr1 ++ effects tr2.
Proof. unfold effects. by rewrite filter_app, fmap_app. Qed.

Lemma effects_cons e tr :
  effects (e :: tr)
  = (if is_effect (cmd_of e) then [(cmd_of e, succeeded e)] else []) ++ effects tr.
Proof.
  unfold effects. rewrite filter_cons.
  by destruct (is_effect (cmd_of e)).
Qed.

Lemma is_write_effect c : is_write c = true → is_effect c = true.
Proof. by destruct c. Qed.

(** A run without effects wrote nothing. *)
Lemma effects_nil_no_write tr :
  effects tr = [] → Forall (λ c, is_write c = false) (calls tr).
Proof.
  induction tr as [|e tr IH]; [constructor |].
  rewrite effects_cons. intros [He Htr]%app_eq_nil.
  constructor; [| by apply IH].
  destruct e as [c r]. simpl in *.
  destruct (is_write c) eqn:Hw; [| done].
  by rewrite (is_write_effect c Hw) in He.
Qed.

Lemma calls_app tr1 tr2 : calls (tr1 ++ tr2) = calls tr1 ++ calls tr2.
Proof. unfold calls. by rewrite fmap_app. Qed.

End TraceFacts.

(** ** The [config] command *)

Section CliFacts.
Import Cli.

Import CliSpec.

(** C9, as amended. An invocation of [config] without [--show] whose
    visibility value is not empty and is neither [public] nor [private]
    prints the error, exits with status 1 and writes no file, whatever the
    organisation option is. *)
Theorem config_invalid_visibility (rt : Runtime) (options : ConfigOptions)
    (visibility : string) (tr : list Event) (o : Outcome unit) :
  runs (configAction rt options) tr o →
  cfg_show options = false →
  cfg_visibility options = Some visibility →
  visibility ≠ "" → visibility ≠ "public" → visibility ≠ "private" →
  o = Exited 1
  ∧ visibility_error ∈ tr
  ∧ Forall (λ c, is_write c = false) (calls tr).
Proof.
  intros Hrun Hshow Hvis Hne Hpub Hpriv. revert tr o Hrun.
  change (spec (configAction rt options) (λ tr o,
    o = Exited 1 ∧ visibility_error ∈ tr
    ∧ Forall (λ c, is_write c = false) (calls tr))).
  assert (JS.truthy (VStr visibility) = true) as Htruthy.
  { by destruct visibility. }
  assert (bool_decide (visibility ∈ ["public"; "private"]) = false) as Hin.
  { apply bool_decide_eq_false.
    intros [->|[->|[]%elem_of_nil]%elem_of_cons]%elem_of_cons; done. }
  destruct options as [org vis show]. simpl in Hshow, Hvis. subst vis show.
  unfold configAction, Config.loadConfig, update_org, update_visibility,
    Config.saveConfig, given.
  cbn [cfg_show cfg_org cfg_visibility]. rewrite Htruthy, Hin.
  rewrite andb_false_r. cbn [orb negb].
  spec_run.
  all: repeat match goal with r : Resp _ |- _ => destruct r end.
  all: split; [done |]; split; [| by repeat constructor].
  all: unfold visibility_error;
    repeat first [apply list_elem_of_here | apply list_elem_of_further].
Qed.

(** The theorem for [config --org acme --visibility staging] in an empty
    world. *)
Lemma config_invalid_visibility_witness :
  let r := run world (configAction node acme_staging) Examples.fresh in
  r.1.1 = Exited 1 ∧ visibility_error ∈ r.1.2
  ∧ Forall (λ c, is_write c = false) (calls r.1.2).
Proof.
  intros r.
  apply (config_invalid_visibility node acme_staging "staging" r.1.2 r.1.1);
    [apply run_runs | done..].
Defined.

(** C9, as it is stated, fails: with [--show] an invalid visibility value is
    not looked at; the command prints the configuration and returns. *)
Lemma config_show_skips_validation :
  ¬ (∀ (rt : Runtime) (options : ConfigOptions) (visibility : string)
       (tr : list Event) (o : Outcome unit),
       runs (configAction rt options) tr o →
       cfg_visibility options = Some visibility →
       visibility ≠ "public" → visibility ≠ "private" →
       o = Exited 1 ∧ visibility_error ∈ tr
       ∧ Forall (λ c, is_write c = false) (calls tr)).
Proof.
  intros H.
  pose (r := run world (configAction node show_staging) Examples.fresh).
  destruct (H node show_staging "staging" r.1.2 r.1.1) as [Ho _];
    [apply run_runs | done..|].
  by vm_compute in Ho.
Qed.

End CliFacts.

(** ** The phases of [init] before the steps *)

Section PreludeFacts.
Import Init InitSpec.
Context (rt : Runtime).

Lemma before_preflight_app tr1 tr2 :
  before_preflight (tr1 ++ tr2) ↔ before_preflight tr1 ∧ before_preflight tr2.
Proof. unfold before_preflight. rewrite existsb_app. apply orb_false_iff. Qed.

Lemma before_preflight_not_passed tr :
  before_preflight tr → preflight_passed ∉ tr.
Proof.
  unfold before_preflight. intros H Hin.
  assert (existsb is_preflight_passed tr = true); [| congruence].
  apply existsb_exists. exists preflight_passed. split; [| done].
  by apply list_elem_of_In.
Qed.

(** Leaves of a symbolic execution: the answers of the console are [tt],
    and a trace given call by call has its effects computed. *)
Ltac trace_facts :=
  repeat match goal with r : Resp _ |- _ => destruct r end;
  repeat match goal with r : unit |- _ => destruct r end;
  repeat split; try (by eauto); try reflexivity;
  try (right; split; reflexivity).

Lemma loadConfig_quiet :
  spec (Config.loadConfig rt) (λ tr o,
    (∃ config, o = Returned config) ∧ effects tr = [] ∧ before_preflight tr).
Proof.
  unfold Config.loadConfig. spec_run; trace_facts; eauto.
Qed.

Lemma validateProjectName_trim name validated :
  Validation.validateProjectName (VStr name) = Ok validated →
  validated = JS.trim name.
Proof.
  unfold Validation.validateProjectName.
  repeat (match goal with |- context [if ?b then _ else _] => destruct b end;
          try done).
  by intros [= <-].
Qed.

Lemma validate_name_spec name :
  spec (validate_name name) (λ tr o,
    effects tr = [] ∧ before_preflight tr
    ∧ (o = Returned (JS.trim name) ∨ o = Exited 1)).
Proof.
  unfold validate_name.
  destruct (Validation.validateProjectName _) eqn:Hv.
  - apply validateProjectName_trim in Hv as ->. spec_run. trace_facts.
  - spec_run; trace_facts; eauto.
Qed.

Lemma validate_org_spec org :
  spec (validate_org org) (λ tr o,
    effects tr = [] ∧ before_preflight tr ∧ (o = Returned tt ∨ o = Exited 1)).
Proof.
  unfold validate_org. spec_run; trace_facts; eauto.
Qed.

Lemma banner_spec name dir isPublic org :
  spec (banner name dir isPublic org) (λ tr o,
    effects tr = [] ∧ before_preflight tr ∧ o = Returned tt).
Proof.
  unfold banner. spec_run; trace_facts; eauto.
Qed.

Lemma preflight_spec name org :
  spec (preflight name org) (λ tr o,
    effects tr = []
    ∧ (o = Returned tt ∨ (o = Exited 1 ∧ before_preflight tr))).
Proof.
  unfold preflight, Github.isGhInstalled, Github.isGhAuthenticated,
    Github.repoExists, Github.exec.
  spec_run; trace_facts; eauto.
Qed.

(** The run of [init] up to the end of the preflight checks: it either
    exits with status 1, without effect and before the preflight checks
    have passed, or goes on with the safety checks, the steps and the
    report. *)
Lemma initCommand_spec name options (Q : list Event → Outcome unit → Prop) :
  (∀ tr0, effects tr0 = [] → before_preflight tr0 → Q tr0 (Exited 1)) →
  (∀ tr0 config, effects tr0 = [] →
     let name' := JS.trim name in
     let isPublic := resolve_visibility options config in
     let org := resolve_org options config in
     let dir := target_dir rt options name' in
     spec (safety_checks rt options dir;;
           steps rt options name' dir isPublic org;;
           report options name' dir org)
       (λ tr o, Q (tr0 ++ tr) o)) →
  spec (initCommand rt name options) Q.
Proof.
  intros Hexit Hrest. unfold initCommand.
  apply spec_bind. eapply spec_mono; [apply loadConfig_quiet |].
  intros tr0 o0 ([config ->] & He0 & Hm0).
  apply spec_bind. eapply spec_mono; [apply validate_name_spec |].
  intros tr1 o1 (He1 & Hm1 & [-> | ->]).
  2:{ apply Hexit; [by rewrite effects_app, He0, He1 |].
      by apply before_preflight_app. }
  apply spec_bind. eapply spec_mono; [apply validate_org_spec |].
  intros tr2 o2 (He2 & Hm2 & [-> | ->]).
  2:{ rewrite app_assoc. apply Hexit; [by rewrite !effects_app, He0, He1, He2 |].
      by rewrite !before_preflight_app. }
  apply spec_bind. eapply spec_mono; [apply banner_spec |].
  intros tr3 o3 (He3 & Hm3 & ->).
  apply spec_bind. eapply spec_mono; [apply preflight_spec |].
  intros tr4 o4 (He4 & [-> | [-> Hm4]]).
  2:{ rewrite !app_assoc. apply Hexit; [by rewrite !effects_app, He0, He1, He2, He3, He4 |].
      by rewrite !before_preflight_app. }
  eapply spec_mono; [apply (Hrest (tr0 ++ tr1 ++ tr2 ++ tr3 ++ tr4) config) |].
  - by rewrite !effects_app, He0, He1, He2, He3, He4.
  - intros tr o. cbv beta. by rewrite <- !app_assoc.
Qed.

(** The safety checks of [--here] without [--force]: they let the run go on
    only if the directory has neither version-control metadata nor a
    README. *)
Lemma safety_checks_here options dir :
  opt_here options = true → opt_force options = false →
  spec (safety_checks rt options dir) (λ tr o,
    effects tr = []
    ∧ (o = Exited 1
       ∨ (o = Returned tt
          ∧ Ev (existsSync (join rt dir ".git")) false ∈ tr
          ∧ Ev (existsSync (join rt dir "README.md")) false ∈ tr))).
Proof.
  intros Hhere Hforce. unfold safety_checks, Git.isGitRepo.
  rewrite Hhere, Hforce. spec_run.
  all: repeat match goal with r : Resp _ |- _ => destruct r end.
  all: split; [reflexivity |]; try (by left); try done.
  all: right; split; [done |];
    split; repeat first [apply list_elem_of_here | apply list_elem_of_further].
Qed.

(** C4. A run of [init] with [--here] and without [--force], in a directory
    that has version-control metadata, or that has a README: the run exits
    with status 1 and has no effect; it creates no directory and writes no
    file. *)
Theorem init_here_unsafe name options tr o :
  runs (initCommand rt name options) tr o →
  opt_here options = true → opt_force options = false →
  (∀ b, Ev (existsSync (join rt (cwd rt) ".git")) b ∈ tr → b = true)
  ∨ (∀ b, Ev (existsSync (join rt (cwd rt) "README.md")) b ∈ tr → b = true) →
  o = Exited 1 ∧ effects tr = []
  ∧ Forall (λ c, is_write c = false) (calls tr).
Proof.
  intros Hrun Hhere Hforce. revert tr o Hrun.
  apply (initCommand_spec name options (λ tr o,
    (∀ b, Ev (existsSync (join rt (cwd rt) ".git")) b ∈ tr → b = true)
    ∨ (∀ b, Ev (existsSync (join rt (cwd rt) "README.md")) b ∈ tr → b = true) →
    o = Exited 1 ∧ effects tr = []
    ∧ Forall (λ c, is_write c = false) (calls tr))).
  { intros tr0 He0 _ _. split; [done |]. split; [done |].
    by apply effects_nil_no_write. }
  intros tr0 config He0 name' isPublic org dir.
  assert (dir = cwd rt) as Hdir by (unfold dir, target_dir; by rewrite Hhere).
  rewrite Hdir. apply spec_bind.
  eapply spec_mono; [by apply safety_checks_here |].
  intros tr1 o1 [He1 [-> | (-> & Hgit & Hreadme)]].
  - intros _. split; [done |].
    assert (effects (tr0 ++ tr1) = []) by (by rewrite effects_app, He0, He1).
    split; [done | by apply effects_nil_no_write].
  - intros tr2 o2 _ [H | H]; exfalso.
    + specialize (H false). rewrite !elem_of_app in H. discriminate H. auto.
    + specialize (H false). rewrite !elem_of_app in H. discriminate H. auto.
Qed.

End PreludeFacts.

(** The theorem for [init demo --here] in a working directory that is a
    repository. *)
Lemma init_here_unsafe_witness :
  let r := run world (Init.initCommand node "demo" Examples.init_here)
             Examples.in_repository in
  r.1.1 = Exited 1 ∧ effects r.1.2 = []
  ∧ Forall (λ c, is_write c = false) (calls r.1.2).
Proof.
  intros r.
  apply (init_here_unsafe node "demo" Examples.init_here r.1.2 r.1.1);
    [apply run_runs | done | done |].
  left. intros b Hb. vm_compute in Hb.
  repeat (apply elem_of_cons in Hb as [Hb | Hb];
          [try discriminate Hb; by apply Ev_inj in Hb |]).
  by apply elem_of_nil in Hb.
Defined.

(** ** Properties of every call of a program *)

Section AlwaysRules.
Context (P : Cmd → Prop).

Lemma always_ret {A : Type} (a : A) : always P (mret a).
Proof. apply spec_ret. constructor. Qed.

Lemma always_throw {A : Type} e : always P (Throw e : Prog A).
Proof. apply spec_throw. constructor. Qed.

Lemma always_exit {A : Type} n : always P (process_exit n : Prog A).
Proof. apply (spec_exit (A:=A)). constructor. Qed.

Lemma always_throwing {A : Type} (r : result A) : always P (throwing r).
Proof. apply spec_throwing; intros; constructor. Qed.

Lemma always_call c : P c → always P (call c).
Proof. intros Hc. apply spec_call. intros r. by repeat constructor. Qed.

Lemma always_bind {A B : Type} (p : Prog A) (f : A → Prog B) :
  always P p → (∀ a, always P (f a)) → always P (p ≫= f).
Proof.
  intros Hp Hf. apply spec_bind. eapply spec_mono; [apply Hp |].
  intros tr1 o1 H1. destruct o1 as [a|e|n]; try done.
  eapply spec_mono; [apply Hf |]. intros tr2 o2 H2.
  rewrite calls_app. by apply Forall_app.
Qed.

Lemma always_try_catch {A : Type} (p : Prog A) (h : string → Prog A) :
  always P p → (∀ e, always P (h e)) → always P (try_catch p h).
Proof.
  intros Hp Hh. apply spec_try_catch. eapply spec_mono; [apply Hp |].
  intros tr1 o1 H1. destruct o1 as [a|e|n]; try done.
  eapply spec_mono; [apply Hh |]. intros tr2 o2 H2.
  rewrite calls_app. by apply Forall_app.
Qed.

Lemma always_when (b : bool) (p : Prog unit) : always P p → always P (when b p).
Proof. intros Hp. destruct b; [done | apply always_ret]. Qed.

End AlwaysRules.

Create HintDb prog discriminated.
#[global] Hint Unfold
  Config.loadConfig Config.saveConfig Config.configExists
  Git.exec Git.isGitRepo Git.gitInit Git.gitAddAll Git.gitCommit Git.gitAddRemote
  Git.gitPush Git.gitRenameBranch
  Github.exec Github.isGhInstalled Github.isGhAuthenticated Github.getGhUsername
  Github.createRepoOnly Github.repoExists
  SshIO.getGitHubSSHKeys
  Init.createReadme Init.validate_name Init.validate_org Init.banner Init.preflight
  Init.safety_checks Init.step_directory Init.step_readme Init.step_git
  Init.step_commit Init.step_github Init.step_remote Init.select_identity
  Init.gitPush_call Init.step_push Init.report Init.steps Init.initCommand
  : prog.

(** A goal [always P p] for a program given by its code, reduced to the
    goals [P c] for the calls [c] of the code. *)
Ltac always_step :=
  lazymatch goal with
  | |- always _ (_ ≫= _) => apply always_bind; [| intros ?]
  | |- always ?P (call ?c) => apply (always_call P c)
  | |- always _ (mret _) => apply always_ret
  | |- always _ (Throw _) => apply always_throw
  | |- always _ (process_exit _) => apply always_exit
  | |- always _ (throwing _) => apply always_throwing
  | |- always _ (try_catch _ _) => apply always_try_catch; [| intros ?]
  | |- always _ (when _ _) => apply always_when
  | |- always _ (if ?b then _ else _) => destruct b
  | |- always _ (match ?x with _ => _ end) => destruct x
  | |- always _ (let _ := _ in _) => cbv zeta
  | |- always _ _ => progress autounfold with prog
  end.

Ltac always_run := repeat always_step.

Section InitAlways.
Import Init InitSpec.
Context (rt : Runtime).

(** Every action of [init] is an effect or a query. *)
Lemma initCommand_accounted name options :
  always accounted (initCommand rt name options).
Proof.
  always_run.
  all: try (by left).
  all: try (by right; left).
  all: right; right; reflexivity.
Qed.

End InitAlways.

(** ** The visibility of the new repository *)

Section VisibilityFacts.
Import Init InitSpec.
Context (rt : Runtime).

(** A call of the code creates the repository with the visibility
    [isPublic], or is no creation. *)
Ltac creation :=
  intros ? ? [= <- <-] Hcreate;
  first [ discriminate Hcreate | eexists; reflexivity ].

(** C10. With [--public] the repository is public, also when [--private] is
    given too; with [--private] alone it is private; with neither flag it is
    public exactly when the stored default visibility is the string
    [public].  In every run of [init] the configuration that [loadConfig]
    returned decides in this way the option of every [gh repo create]. *)
Theorem resolve_visibility_spec name options :
  (∀ config,
     (opt_public options = true → resolve_visibility options config = true)
     ∧ (opt_public options = false → opt_private options = true →
        resolve_visibility options config = false)
     ∧ (opt_public options = false → opt_private options = false →
        (resolve_visibility options config = true
         ↔ get config "defaultVisibility" = VStr "public")))
  ∧ (∀ tr o, runs (initCommand rt name options) tr o →
     ∃ config tr0 tr1,
       tr = tr0 ++ tr1
       ∧ runs (Config.loadConfig rt) tr0 (Returned config)
       ∧ Forall (creates_with (resolve_visibility options config)) (calls tr)).
Proof.
  split.
  - intros config. unfold resolve_visibility.
    destruct (opt_public options), (opt_private options); (split; [| split]);
      try done; intros _ _.
    destruct (get config "defaultVisibility"); try done.
    rewrite bool_decide_eq_true. split; [by intros -> | by intros [= ->]].
  - intros tr o Hrun. unfold initCommand in Hrun.
    apply runs_bind in Hrun
      as [(config & tr0 & tr1 & H0 & H1 & ->) | [(e & H0 & _) | (n & H0 & _)]].
    + exists config, tr0, tr1. split; [done |]. split; [done |].
      rewrite calls_app. apply Forall_app. split.
      * revert H0. generalize (Returned config). revert tr0.
        change (always (creates_with (resolve_visibility options config))
                  (Config.loadConfig rt)).
        always_run; creation.
      * revert H1. revert tr1 o.
        match goal with |- ∀ tr1 o, runs ?p tr1 o → _ =>
          change (always (creates_with (resolve_visibility options config)) p) end.
        always_run. all: creation.
    + by apply (loadConfig_quiet rt) in H0 as [[? ?] _].
    + by apply (loadConfig_quiet rt) in H0 as [[? ?] _].
Qed.

End VisibilityFacts.

(** The theorem for [init demo --public --private] on a machine where
    everything succeeds: the repository is created public. *)
Lemma resolve_visibility_spec_witness :
  let r := run world (Init.initCommand node "demo" Examples.init_both)
             Examples.fresh in
  Init.resolve_visibility Examples.init_both Config.DEFAULT_CONFIG = true
  ∧ execSync "gh repo create octocat/demo --public" None ∈ calls r.1.2
  ∧ ∃ config,
      Forall (InitSpec.creates_with (Init.resolve_visibility Examples.init_both config))
        (calls r.1.2).
Proof.
  intros r.
  destruct (resolve_visibility_spec node "demo" Examples.init_both) as [Htable Hruns].
  split; [apply (proj1 (Htable Config.DEFAULT_CONFIG)); reflexivity |].
  split.
  { vm_compute. repeat first [apply list_elem_of_here | apply list_elem_of_further]. }
  assert (runs (Init.initCommand node "demo" Examples.init_both) r.1.2 r.1.1)
    as Hrun.
  { apply run_runs. }
  destruct (Hruns r.1.2 r.1.1 Hrun) as (config & tr0 & tr1 & _ & _ & Hall).
  exists config. exact Hall.
Defined.

(** ** Abort-on-first-failure runs *)

Section ConformsFacts.
Implicit Types (W : list Cmd) (E : list (Cmd * bool)) (o : Outcome unit).

Lemma conforms_prefix W E o : conforms W E o → E.*1 `prefix_of` W.
Proof.
  induction 1 as [|c W E o _ IH|c W|W o _ _]; simpl.
  - done.
  - by apply prefix_cons.
  - apply prefix_cons, prefix_nil.
  - apply prefix_nil.
Qed.

Lemma conforms_length W E o : conforms W E o → length E ≤ length W.
Proof. intros H%conforms_prefix%prefix_length. by rewrite length_fmap in H. Qed.

Lemma conforms_failed W E o i c :
  conforms W E o → E !! i = Some (c, false) → S i = length E ∧ o = Exited 1.
Proof.
  intros H. revert i. induction H as [|c' W E o _ IH|c' W|W o _ _]; intros i Hi.
  - done.
  - destruct i as [|i]; [done |]. simpl in Hi.
    destruct (IH i Hi) as [Hl ->]. simpl. by rewrite Hl.
  - destruct i as [|[|i]]; done.
  - done.
Qed.

Lemma conforms_returned W E : conforms W E (Returned tt) → E = (λ c, (c, true)) <$> W.
Proof.
  intros H. remember (Returned tt) as o eqn:Ho.
  induction H as [|c W E o _ IH|c W|W o Hne _]; try done.
  simpl. by rewrite IH.
Qed.

Lemma conforms_exit W E n : conforms W E (Exited n) → n = 1%Z.
Proof.
  intros H. remember (Exited n) as o eqn:Ho.
  induction H as [|c W E o _ IH|c W|W o _ Hn]; try done.
  - by apply IH.
  - by injection Ho.
  - by apply Hn.
Qed.

(** When the steps of [W1] are done, the run goes on with [W2]. *)
Lemma conforms_app_ok W1 W2 E1 E2 o :
  conforms W1 E1 (Returned tt) → conforms W2 E2 o → conforms (W1 ++ W2) (E1 ++ E2) o.
Proof.
  intros H1 H2. remember (Returned tt) as o1 eqn:Ho.
  induction H1 as [|c W E o1 _ IH|c W|W o1 Hne _]; try done.
  simpl. constructor. by apply IH.
Qed.

(** A run that ended within [W1] did nothing of [W2]. *)
Lemma conforms_app_stop W1 W2 E1 o :
  conforms W1 E1 o → o ≠ Returned tt → conforms (W1 ++ W2) E1 o.
Proof.
  intros H1 Ho. induction H1 as [|c W E o _ IH|c W|W o Hne Hn]; try done.
  - simpl. constructor. by apply IH.
  - simpl. constructor.
  - by constructor.
Qed.

(** A run that did all of [W] may still end badly afterwards. *)
Lemma conforms_after W E o :
  conforms W E (Returned tt) → (∀ n, o = Exited n → n = 1%Z) → conforms W E o.
Proof.
  intros H Hn. assert (o = Returned tt ∨ o ≠ Returned tt) as [-> | Hne];
    [destruct o as [[]|e|n]; by eauto | done |].
  remember (Returned tt) as o1 eqn:Ho.
  induction H as [|c W E o1 _ IH|c W|W o1 Hne' _]; try done.
  - by constructor.
  - constructor. by apply IH.
Qed.

End ConformsFacts.

(** ** The steps of [init] *)

Section StepFacts.
Import Init InitSpec.
Context (rt : Runtime).

Lemma is_effect_create x : is_effect (execSync ("gh repo create " +:+ x) None) = true.
Proof. reflexivity. Qed.

(** Leaves of the symbolic execution of a step: the effects of the trace
    are computed and compared with the steps. *)
Ltac effects_compute :=
  repeat match goal with r : Resp _ |- _ => destruct r end;
  repeat match goal with r : unit |- _ => destruct r end;
  try (simpl in *; congruence);
  rewrite ?effects_cons; cbn [cmd_of]; rewrite ?is_effect_create; simpl.

Ltac conforms_leaf :=
  effects_compute;
  repeat first
    [ apply conforms_done
    | apply conforms_ok
    | apply conforms_fail
    | apply conforms_stop; [done | by intros ? [= <-]] ].

Lemma step_directory_spec options name dir :
  opt_here options = false →
  spec (step_directory options name dir) (λ tr o,
    (∀ b, Ev (existsSync dir) b ∈ tr → b = false) →
    conforms [mkdirSync dir] (effects tr) o).
Proof.
  intros Hhere. unfold step_directory. rewrite Hhere. cbn [negb].
  spec_run.
  all: repeat match goal with r : Resp (existsSync _) |- _ => destruct r end;
    try done.
  all: try (intros H; specialize (H true);
            discriminate H; apply list_elem_of_further, list_elem_of_here).
  all: intros _; conforms_leaf.
Qed.

Lemma step_readme_spec name dir :
  spec (step_readme rt name dir) (λ tr o,
    conforms [writeFileSync (join rt dir "README.md") ("# " +:+ name +:+ nl)]
      (effects tr) o).
Proof. unfold step_readme, createReadme. spec_run; conforms_leaf. Qed.

Lemma step_git_spec dir :
  spec (step_git rt dir) (λ tr o,
    ∃ isRepo,
      Ev (existsSync (join rt dir ".git")) isRepo ∈ tr
      ∧ conforms ((if isRepo then [] else [execSync "git init" (Some dir)])
                  ++ [execSync "git branch -M main" (Some dir)])
          (effects tr) o).
Proof.
  unfold step_git, Git.isGitRepo, Git.gitInit, Git.gitRenameBranch, Git.exec.
  spec_run.
  all: eexists; (split; [apply list_elem_of_further, list_elem_of_here |]).
  all: conforms_leaf.
Qed.

Lemma step_commit_spec dir :
  spec (step_commit dir) (λ tr o,
    conforms [execSync "git add -A" (Some dir);
              execSync ("git commit -m " +:+ JS.quoted "Initial commit") (Some dir)]
      (effects tr) o).
Proof.
  unfold step_commit, Git.gitAddAll, Git.gitCommit, Git.exec.
  spec_run; conforms_leaf.
Qed.

Lemma step_github_spec name isPublic org :
  spec (step_github name isPublic org) (λ tr o,
    ∃ fullName,
      conforms [execSync ("gh repo create " +:+ fullName +:+ " "
                          +:+ (if isPublic then "--public" else "--private")) None]
        (effects tr) (void o)
      ∧ ∀ url, o = Returned url → url = "git@github.com:" +:+ fullName +:+ ".git").
Proof.
  unfold step_github, Github.createRepoOnly, Github.getGhUsername, Github.exec.
  spec_run.
  all: repeat match goal with r : Resp _ |- _ => destruct r end.
  all: first
    [ exists ""; split; [solve [conforms_leaf] | done]
    | eexists; split; [solve [conforms_leaf] | by intros ? [= <-]] ].
Qed.

Lemma step_remote_spec dir url :
  spec (step_remote dir url) (λ tr o,
    conforms [execSync ("git remote add origin " +:+ url) (Some dir)] (effects tr) o).
Proof.
  unfold step_remote, Git.gitAddRemote, Git.exec. spec_run; conforms_leaf.
Qed.

Lemma select_identity_spec :
  spec (select_identity rt) (λ tr o,
    effects tr = [] ∧ ((∃ identityFile, o = Returned identityFile) ∨ ∃ e, o = Thrown e)).
Proof.
  unfold select_identity, SshIO.getGitHubSSHKeys. spec_run.
  all: repeat match goal with r : Resp _ |- _ => destruct r end.
  all: split; [reflexivity | eauto].
Qed.

Lemma step_push_spec dir identityFile :
  spec (step_push dir identityFile) (λ tr o,
    conforms [execSync "git push -u origin main" (Some dir)] (effects tr) o).
Proof.
  unfold step_push, gitPush_call, Git.gitPush, Git.exec. spec_run; conforms_leaf.
Qed.

Lemma report_spec options name dir org :
  spec (report options name dir org) (λ tr o,
    effects tr = [] ∧ (o = Returned tt ∨ ∃ e, o = Thrown e)).
Proof.
  unfold report, Github.getGhUsername, Github.exec. spec_run.
  all: repeat match goal with r : Resp _ |- _ => destruct r end.
  all: split; [reflexivity | eauto].
Qed.

(** Two phases in sequence, each an abort-on-first-failure run. *)
Lemma spec_conforms_seq (p q : Prog unit) W1 W2 :
  spec p (λ tr o, conforms W1 (effects tr) o) →
  spec q (λ tr o, conforms W2 (effects tr) o) →
  spec (p;; q) (λ tr o, conforms (W1 ++ W2) (effects tr) o).
Proof.
  intros Hp Hq. apply spec_bind. eapply spec_mono; [apply Hp |].
  intros tr1 o1 H1. destruct o1 as [[]|e|n].
  - eapply spec_mono; [apply Hq |]. intros tr2 o2 H2.
    rewrite effects_app. by apply conforms_app_ok.
  - by apply conforms_app_stop.
  - by apply conforms_app_stop.
Qed.

Lemma push_tail dir :
  spec (select_identity rt ≫= step_push dir) (λ tr o,
    conforms [execSync "git push -u origin main" (Some dir)] (effects tr) o).
Proof.
  apply spec_bind. eapply spec_mono; [apply select_identity_spec |].
  intros tr1 o1 [He [[identityFile ->] | [e ->]]].
  - eapply spec_mono; [apply step_push_spec |]. intros tr2 o2 H2.
    by rewrite effects_app, He.
  - rewrite He. by apply conforms_stop.
Qed.

Lemma github_tail name dir isPublic org :
  spec (step_github name isPublic org ≫= λ repoUrl,
          step_remote dir repoUrl;; select_identity rt ≫= step_push dir)
    (λ tr o,
       ∃ fullName,
         conforms
           ([execSync ("gh repo create " +:+ fullName +:+ " "
                       +:+ (if isPublic then "--public" else "--private")) None]
            ++ [execSync ("git remote add origin "
                          +:+ ("git@github.com:" +:+ fullName +:+ ".git")) (Some dir)]
            ++ [execSync "git push -u origin main" (Some dir)])
           (effects tr) o).
Proof.
  apply spec_bind. eapply spec_mono; [apply step_github_spec |].
  intros tr1 o1 (fullName & H1 & Hurl). destruct o1 as [url|e|n].
  - rewrite (Hurl url eq_refl).
    eapply spec_mono;
      [apply spec_conforms_seq; [apply step_remote_spec | apply push_tail] |].
    intros tr2 o2 H2. exists fullName. rewrite effects_app.
    by apply conforms_app_ok.
  - exists fullName. by apply conforms_app_stop.
  - exists fullName. by apply conforms_app_stop.
Qed.

Lemma commit_tail name dir isPublic org :
  spec (step_commit dir;;
        step_github name isPublic org ≫= λ repoUrl,
          step_remote dir repoUrl;; select_identity rt ≫= step_push dir)
    (λ tr o,
       ∃ fullName,
         conforms
           ([execSync "git add -A" (Some dir);
             execSync ("git commit -m " +:+ JS.quoted "Initial commit") (Some dir)]
            ++ [execSync ("gh repo create " +:+ fullName +:+ " "
                          +:+ (if isPublic then "--public" else "--private")) None]
            ++ [execSync ("git remote add origin "
                          +:+ ("git@github.com:" +:+ fullName +:+ ".git")) (Some dir)]
            ++ [execSync "git push -u origin main" (Some dir)])
           (effects tr) o).
Proof.
  apply spec_bind. eapply spec_mono; [apply step_commit_spec |].
  intros tr1 o1 H1. destruct o1 as [[]|e|n].
  2,3: exists ""; by apply (conforms_app_stop [_; _]).
  eapply spec_mono; [apply github_tail |].
  intros tr2 o2 (fullName & H2). exists fullName.
  rewrite effects_app. by apply (conforms_app_ok [_; _]).
Qed.

(** Steps 1 to 7 in a new directory: the effects of the run follow the
    workflow. *)
Lemma steps_spec options name dir isPublic org :
  opt_here options = false →
  spec (steps rt options name dir isPublic org) (λ tr o,
    (∀ b, Ev (existsSync dir) b ∈ tr → b = false) →
    ∃ isRepo fullName,
      conforms (workflow rt name dir fullName
                  (if isPublic then "--public" else "--private") isRepo)
        (effects tr) o
      ∧ (2 < length (effects tr) → Ev (existsSync (join rt dir ".git")) isRepo ∈ tr)).
Proof.
  intros Hhere. unfold steps.
  apply spec_bind. eapply spec_mono; [by apply step_directory_spec |].
  intros tr1 o1 H1.
  assert (∀ tr (P : bool → Prop),
            (∀ b, Ev (existsSync dir) b ∈ tr1 ++ tr → P b) →
            ∀ b, Ev (existsSync dir) b ∈ tr1 → P b) as Hsub.
  { intros tr P H b Hb. apply H, elem_of_app. by left. }
  destruct o1 as [[]|e|n].
  2,3: intros Hd; specialize (H1 Hd); exists false, ""; split;
    [by apply (conforms_app_stop [_]) |];
    apply conforms_length in H1; simpl in H1; lia.
  apply spec_bind. eapply spec_mono; [apply step_readme_spec |].
  intros tr2 o2 H2. destruct o2 as [[]|e|n].
  2,3: intros Hd; specialize (H1 (Hsub _ _ Hd)); exists false, ""; split;
    [rewrite effects_app; apply (conforms_app_ok [_]); [done |];
     by apply (conforms_app_stop [_]) |];
    rewrite effects_app, length_app;
    apply conforms_length in H1, H2; simpl in H1, H2; lia.
  apply spec_bind. eapply spec_mono; [apply step_git_spec |].
  intros tr3 o3 (isRepo & Hgit & H3).
  assert (∀ tr, Ev (existsSync (join rt dir ".git")) isRepo ∈ tr1 ++ tr2 ++ tr3 ++ tr)
    as Hin.
  { intros tr. rewrite !elem_of_app. auto. }
  destruct o3 as [[]|e|n].
  2,3: intros Hd; specialize (H1 (Hsub _ _ Hd)); exists isRepo, ""; split;
    [| intros _; rewrite <- (app_nil_r tr3); apply Hin];
    rewrite !effects_app; apply (conforms_app_ok [_]); [done |];
    apply (conforms_app_ok [_]); [done |];
    destruct isRepo;
      exact (conforms_app_stop _ [_; _; _; _; _] _ _ H3 ltac:(done)).
  eapply spec_mono; [apply commit_tail |].
  intros tr4 o4 (fullName & H4) Hd. specialize (H1 (Hsub _ _ Hd)).
  exists isRepo, fullName. split; [| intros _; apply Hin].
  rewrite !effects_app. apply (conforms_app_ok [_]); [done |].
  apply (conforms_app_ok [_]); [done |].
  destruct isRepo; exact (conforms_app_ok _ [_; _; _; _; _] _ _ _ H3 H4).
Qed.

Lemma safety_checks_new options dir :
  opt_here options = false →
  spec (safety_checks rt options dir) (λ tr o, tr = [] ∧ o = Returned tt).
Proof. intros Hhere. unfold safety_checks. rewrite Hhere. by spec_run. Qed.

End StepFacts.

(** ** The phases of a run of [init] *)

Section InitRuns.
Import Init InitSpec InitNotions.
Context (rt : Runtime).

Lemma runs_seq {A B : Type} (p : Prog A) (q : Prog B) tr o :
  runs (p;; q) tr o →
  (∃ a tr1 tr2, runs p tr1 (Returned a) ∧ runs q tr2 o ∧ tr = tr1 ++ tr2)
  ∨ (∃ e, runs p tr (Thrown e) ∧ o = Thrown e)
  ∨ (∃ n, runs p tr (Exited n) ∧ o = Exited n).
Proof. intros H. by apply runs_bind in H. Qed.

Lemma runs_load tr o :
  runs (Config.loadConfig rt) tr o → ∃ config, o = Returned config.
Proof. intros H. by apply (loadConfig_quiet rt) in H as [? _]. Qed.

Lemma runs_banner name dir isPublic org tr o :
  runs (banner name dir isPublic org) tr o → o = Returned tt.
Proof. intros H. by apply banner_spec in H as (_ & _ & ?). Qed.

(** The phases of a run of [init] up to the end of the preflight checks. *)
Lemma initCommand_prelude name options tr o :
  runs (initCommand rt name options) tr o →
  ∃ config tr0,
    runs (Config.loadConfig rt) tr0 (Returned config)
    ∧ let org := resolve_org options config in
      let name' := JS.trim name in
      ((∃ message,
          Validation.validateProjectName (VStr name) = Error message
          ∧ tr = tr0 ++ [Ev (console_error (nl +:+ "Error: " +:+ message)) tt]
          ∧ o = Exited 1)
       ∨ (Validation.validateProjectName (VStr name) = Ok name'
          ∧ ((∃ message,
                JS.truthy org = true
                ∧ Validation.validateGitHubName org = Error message
                ∧ tr = tr0 ++ [Ev (console_error
                                    (nl +:+ "Error: Invalid organization name - "
                                     +:+ message)) tt]
                ∧ o = Exited 1)
             ∨ ((JS.truthy org = false
                 ∨ ∃ validated, Validation.validateGitHubName org = Ok validated)
                ∧ ∃ trb trp op tr',
                    tr = tr0 ++ trb ++ trp ++ tr'
                    ∧ runs (banner name' (target_dir rt options name')
                              (resolve_visibility options config) org) trb (Returned tt)
                    ∧ runs (preflight name' org) trp op
                    ∧ ((op = Returned tt
                        ∧ runs (after_preflight rt options name' config) tr' o)
                       ∨ (op ≠ Returned tt ∧ tr' = [] ∧ o = op)))))).
Proof.
  intros Hrun. unfold initCommand in Hrun.
  apply runs_bind in Hrun
    as [(config & tr0 & tr1 & H0 & Hrun & ->) | [(e & H0 & _) | (n & H0 & _)]];
    [| by apply runs_load in H0 as [? ?] ..].
  exists config, tr0. split; [done |]. cbv zeta.
  unfold validate_name in Hrun.
  destruct (Validation.validateProjectName (VStr name)) as [validated | message] eqn:Hname.
  2:{ left. exists message. split; [done |].
      destruct Hrun as ([] & tr' & -> & -> & ->). done. }
  right. apply validateProjectName_trim in Hname as Htrim. subst validated.
  split; [done |].
  change (mret (JS.trim name) ≫= ?f) with (f (JS.trim name)) in Hrun.
  cbv zeta in Hrun.
  apply runs_seq in Hrun
    as [([] & tr2 & tr3 & H2 & Hrun & ->) | [(e & H2 & ->) | (n & H2 & ->)]].
  - right. unfold validate_org, when in H2.
    split.
    { destruct (JS.truthy _); [| by left]. right.
      destruct (Validation.validateGitHubName _) as [v|m]; [by eexists |].
      by destruct H2 as ([] & tr' & -> & _ & [=]). }
    assert (tr2 = []) as ->.
    { destruct (JS.truthy _); [| by destruct H2].
      destruct (Validation.validateGitHubName _) as [v|m]; [by destruct H2 |].
      by destruct H2 as ([] & tr' & -> & _ & [=]). }
    apply runs_seq in Hrun
      as [([] & trb & tr4 & Hb & Hrun & ->) | [(e & Hb & ->) | (n & Hb & ->)]];
      [| by apply runs_banner in Hb ..].
    apply runs_seq in Hrun
      as [([] & trp & tr' & Hp & Hrun & ->) | [(e & Hp & ->) | (n & Hp & ->)]].
    + exists trb, trp, (Returned tt), tr'. split; [done |]. split; [done |].
      split; [done |]. left. done.
    + exists trb, tr4, (Thrown e), []. rewrite app_nil_r. split; [done |].
      split; [done |]. split; [done |]. right. done.
    + exists trb, tr4, (Exited n), []. rewrite app_nil_r. split; [done |].
      split; [done |]. split; [done |]. right. done.
  - unfold validate_org, when in H2. exfalso.
    destruct (JS.truthy _); [| by destruct H2].
    destruct (Validation.validateGitHubName _) as [v|m]; [by destruct H2 |].
    by destruct H2 as ([] & tr' & -> & _ & [=]).
  - left. unfold validate_org, when in H2.
    destruct (JS.truthy _) eqn:Ht; [| by destruct H2].
    destruct (Validation.validateGitHubName _) as [v|m] eqn:Hv; [by destruct H2 |].
    exists m. by destruct H2 as ([] & tr' & -> & -> & [= <-]).
Qed.

End InitRuns.

(** ** A run of [init] whose calls succeed returns *)

Section GoesOnRules.
Import WorkflowNotions.
Context (dir : string).

Lemma goes_on_ret {A : Type} (a : A) : goes_on dir (mret a).
Proof. apply spec_ret. intros _. by exists a. Qed.

Lemma goes_on_call c : goes_on dir (call c).
Proof. apply spec_call. intros r _. by exists r. Qed.

Lemma goes_on_bind {A B : Type} (p : Prog A) (f : A → Prog B) :
  goes_on dir p → (∀ a, goes_on dir (f a)) → goes_on dir (p ≫= f).
Proof.
  intros Hp Hf tr o Hrun Hfine.
  apply runs_bind in Hrun
    as [(a & tr1 & tr2 & H1 & H2 & ->) | [(e & H1 & ->) | (n & H1 & ->)]].
  - apply Forall_app in Hfine as [_ Hfine]. by apply (Hf a _ _ H2).
  - by destruct (Hp _ _ H1 Hfine).
  - by destruct (Hp _ _ H1 Hfine).
Qed.

Lemma goes_on_try_catch {A : Type} (p : Prog A) (h : string → Prog A) :
  goes_on dir p → goes_on dir (try_catch p h).
Proof.
  intros Hp tr o Hrun Hfine.
  apply runs_try_catch in Hrun
    as [(a & H1 & ->) | [(e & tr1 & tr2 & H1 & _ & ->) | (n & H1 & ->)]].
  - by exists a.
  - apply Forall_app in Hfine as [Hfine _]. by destruct (Hp _ _ H1 Hfine).
  - by destruct (Hp _ _ H1 Hfine).
Qed.

Lemma goes_on_when (b : bool) (p : Prog unit) : goes_on dir p → goes_on dir (when b p).
Proof. intros Hp. destruct b; [done | apply goes_on_ret]. Qed.

End GoesOnRules.

(** A call whose failure is an exception: when it is fine, it returns. *)
Ltac goes_on_throwing :=
  unfold WorkflowNotions.goes_on; spec_run;
  [ intros _; by eexists
  | intros [[Hs _] _]%Forall_cons; discriminate Hs ].

Ltac goes_on_step :=
  lazymatch goal with
  | |- WorkflowNotions.goes_on _ (call _ ≫= throwing) => goes_on_throwing
  | |- WorkflowNotions.goes_on _ (_ ≫= _) => apply goes_on_bind; [| intros ?]
  | |- WorkflowNotions.goes_on ?d (call ?c) => apply (goes_on_call d c)
  | |- WorkflowNotions.goes_on _ (mret _) => apply goes_on_ret
  | |- WorkflowNotions.goes_on _ (try_catch _ _) => apply goes_on_try_catch
  | |- WorkflowNotions.goes_on _ (when _ _) => apply goes_on_when
  | |- WorkflowNotions.goes_on _ (if ?b then _ else _) => destruct b
  | |- WorkflowNotions.goes_on _ (match ?x with _ => _ end) => destruct x
  | |- WorkflowNotions.goes_on _ (let _ := _ in _) => cbv zeta
  | |- WorkflowNotions.goes_on _ _ => progress autounfold with prog
  end.

Ltac goes_on_run := repeat goes_on_step.

Section ProgressFacts.
Import Init InitSpec InitNotions WorkflowNotions.
Context (rt : Runtime).

Lemma step_directory_goes_on options name dir :
  opt_here options = false → goes_on dir (step_directory options name dir).
Proof.
  intros Hhere. unfold goes_on, step_directory. rewrite Hhere. cbn [negb].
  spec_run; intros Hfine; rewrite ?Forall_cons in Hfine.
  - destruct Hfine as (_ & [_ Hne] & _). by destruct Hne.
  - by eexists.
  - destruct Hfine as (_ & _ & [Hs _] & _). discriminate Hs.
Qed.

(** After the preflight checks, in a new directory: when every call
    succeeds and the directory is not found, the run returns. *)
Lemma after_preflight_goes_on options name config :
  opt_here options = false →
  goes_on (target_dir rt options name) (after_preflight rt options name config).
Proof.
  intros Hhere. unfold after_preflight. cbv zeta.
  apply goes_on_bind; [| intros _].
  { unfold safety_checks. rewrite Hhere. apply goes_on_ret. }
  apply goes_on_bind; [| intros _; goes_on_run].
  unfold steps.
  apply goes_on_bind; [by apply step_directory_goes_on | intros _].
  goes_on_run.
Qed.

End ProgressFacts.

(** ** The repository that [init] creates *)

Section CancelFacts.
Implicit Types (s t u : string).

Lemma chars_append s t : JS.chars (s +:+ t) = JS.chars s ++ JS.chars t.
Proof.
  unfold JS.chars. induction s as [|c s IH]; [done |].
  rewrite append_cons. simpl. by rewrite IH.
Qed.

Lemma chars_inj s t : JS.chars s = JS.chars t → s = t.
Proof.
  unfold JS.chars. intros H.
  by rewrite <- (string_of_list_ascii_of_string s), H,
    string_of_list_ascii_of_string.
Qed.

Lemma append_inj_r s t u : s +:+ u = t +:+ u → s = t.
Proof.
  intros H. apply chars_inj. apply (f_equal JS.chars) in H.
  rewrite !chars_append in H. by apply app_inv_tail in H.
Qed.

End CancelFacts.

Section CreationRules.
Import InitSpec WorkflowNotions.
Context (name : string) (org : value) (isPublic : bool).

Lemma owner_in_app tr1 tr2 owner :
  owner_in org tr1 owner ∨ owner_in org tr2 owner →
  owner_in org (tr1 ++ tr2) owner.
Proof.
  unfold owner_in. destruct (JS.truthy org); [by intros [? | ?] |].
  intros [(out & Hin & ->) | (out & Hin & ->)]; exists out;
    (split; [| done]); apply elem_of_app; auto.
Qed.

Lemma creations_named_nil : creations_named name org isPublic [].
Proof. intros c r Hin. by apply elem_of_nil in Hin. Qed.

Lemma creations_named_app tr1 tr2 :
  creations_named name org isPublic tr1 →
  creations_named name org isPublic tr2 →
  creations_named name org isPublic (tr1 ++ tr2).
Proof.
  intros H1 H2 c r [Hin | Hin]%elem_of_app Hc.
  - destruct (H1 c r Hin Hc) as (owner & -> & Ho).
    exists owner. split; [done |]. apply owner_in_app. by left.
  - destruct (H2 c r Hin Hc) as (owner & -> & Ho).
    exists owner. split; [done |]. apply owner_in_app. by right.
Qed.

(** A run that creates nothing. *)
Lemma creations_named_none tr :
  Forall (λ c, is_create c = false) (calls tr) →
  creations_named name org isPublic tr.
Proof.
  intros Hall c r Hin Hc. exfalso.
  rewrite Forall_forall in Hall.
  assert (c ∈ calls tr) as Hcall.
  { unfold calls. apply list_elem_of_fmap. by exists (Ev c r). }
  specialize (Hall c Hcall). congruence.
Qed.

Lemma creates_named_always {A : Type} (p : Prog A) :
  always (λ c, is_create c = false) p → creates_named name org isPublic p.
Proof.
  intros Hp tr o Hrun. apply creations_named_none. by apply (Hp tr o).
Qed.

Lemma creates_named_bind {A B : Type} (p : Prog A) (f : A → Prog B) :
  creates_named name org isPublic p → (∀ a, creates_named name org isPublic (f a)) → creates_named name org isPublic (p ≫= f).
Proof.
  intros Hp Hf. apply spec_bind. eapply spec_mono; [apply Hp |].
  intros tr1 o1 H1. destruct o1 as [a|e|n]; try done.
  eapply spec_mono; [apply Hf |]. intros tr2 o2 H2.
  by apply creations_named_app.
Qed.

Lemma creates_named_try_catch {A : Type} (p : Prog A) (h : string → Prog A) :
  creates_named name org isPublic p → (∀ e, creates_named name org isPublic (h e)) → creates_named name org isPublic (try_catch p h).
Proof.
  intros Hp Hh. apply spec_try_catch. eapply spec_mono; [apply Hp |].
  intros tr1 o1 H1. destruct o1 as [a|e|n]; try done.
  eapply spec_mono; [apply Hh |]. intros tr2 o2 H2.
  by apply creations_named_app.
Qed.

End CreationRules.

Section Creations.
Import Init InitSpec InitNotions WorkflowNotions.
Context (rt : Runtime).

(** The only creation of [createRepoOnly] is that of [<owner>/<name>]. *)
Lemma createRepoOnly_creates name isPublic org :
  creates_named name org isPublic (Github.createRepoOnly name isPublic org).
Proof.
  unfold creates_named, Github.createRepoOnly, Github.getGhUsername, Github.exec.
  cbv zeta. unfold creations_named, owner_in.
  destruct (JS.truthy org); spec_run.
  all: intros c ? Hin Hc.
  all: repeat (apply elem_of_cons in Hin as [Hin | Hin];
    [apply (f_equal (λ e, match e with Ev c _ => c end)) in Hin; simpl in Hin;
     subst c; try discriminate Hc |]).
  all: try (by apply elem_of_nil in Hin).
  all: first
    [ by eexists
    | eexists; split; [reflexivity |];
      eexists; split; [apply list_elem_of_here | reflexivity] ].
Qed.

Lemma after_preflight_creates options name config :
  creates_named name (resolve_org options config)
    (resolve_visibility options config)
    (after_preflight rt options name config).
Proof.
  unfold after_preflight. cbv zeta.
  apply creates_named_bind; [| intros _].
  { apply creates_named_always. always_run; reflexivity. }
  apply creates_named_bind; [| intros _].
  2: { apply creates_named_always. always_run; reflexivity. }
  unfold steps.
  do 4 (apply creates_named_bind;
        [apply creates_named_always; always_run; reflexivity | intros _]).
  apply creates_named_bind; [| intros url].
  - unfold step_github.
    apply creates_named_bind;
      [apply creates_named_always; always_run; reflexivity | intros _].
    apply creates_named_try_catch.
    + apply creates_named_bind; [apply createRepoOnly_creates | intros ?].
      apply creates_named_always; always_run; reflexivity.
    + intros e. apply creates_named_always; always_run; reflexivity.
  - apply creates_named_always. always_run; reflexivity.
Qed.

End Creations.

(** ** The workflow of [init] in a new directory *)

Section WorkflowFacts.
Import Init InitSpec InitNotions WorkflowNotions.
Context (rt : Runtime).

(** A run of the preflight checks that returns ends with the line
    [Preflight checks passed], which it prints once. *)
Lemma preflight_ends name org :
  spec (preflight name org) (λ tr o,
    o = Returned tt →
    ∃ tr', tr = tr' ++ [preflight_passed] ∧ before_preflight tr').
Proof.
  unfold preflight, Github.isGhInstalled, Github.isGhAuthenticated,
    Github.repoExists, Github.exec.
  spec_run.
  all: repeat match goal with r : Resp _ |- _ => destruct r end.
  all: try match goal with H : negb _ = _ |- _ => by simpl in H end.
  all: intros Ho; try discriminate Ho.
  all: match goal with |- ∃ tr', ?tr = _ ∧ _ => exists (removelast tr) end.
  all: split; reflexivity.
Qed.

Lemma after_passed_app tr0 tr' :
  before_preflight tr0 → after_passed (tr0 ++ preflight_passed :: tr') = tr'.
Proof.
  unfold before_preflight. induction tr0 as [|e tr0 IH]; [done |].
  simpl. destruct (is_preflight_passed e); [done | apply IH].
Qed.

(** An effect of a run is a call of the run. *)
Lemma effects_elem c b tr : (c, b) ∈ effects tr → ∃ r, Ev c r ∈ tr.
Proof.
  unfold effects. intros ([c' r] & [= -> _] & Hin)%list_elem_of_fmap.
  apply list_elem_of_filter in Hin as [_ Hin]. by exists r.
Qed.

(** The phases of a run of [init] that passes the preflight checks: the
    preferences are loaded first; nothing is done before the line that ends
    the checks; what follows it is a run of [after_preflight]. *)
Lemma initCommand_phases name options tr o :
  runs (initCommand rt name options) tr o →
  preflight_passed ∈ tr →
  ∃ config tr0 tr1 tr',
    runs (Config.loadConfig rt) tr0 (Returned config)
    ∧ tr = (tr0 ++ tr1) ++ preflight_passed :: tr'
    ∧ before_preflight (tr0 ++ tr1)
    ∧ effects (tr0 ++ tr1) = []
    ∧ runs (after_preflight rt options (JS.trim name) config) tr' o.
Proof.
  intros Hrun Hpassed.
  destruct (initCommand_prelude rt name options tr o Hrun)
    as (config & tr0 & H0 & Hcases). cbv zeta in Hcases.
  pose proof (loadConfig_quiet rt _ _ H0) as (_ & He0 & Hb0).
  assert (∀ text, before_preflight [Ev (console_error text) tt]) as Herr by done.
  destruct Hcases as [(message & Hname & -> & ->) | (Hname & Hcases)].
  { exfalso. eapply before_preflight_not_passed; [| exact Hpassed].
    apply before_preflight_app. split; [done | apply Herr]. }
  destruct Hcases as [(message & _ & _ & -> & ->) | (_ & Hcases)].
  { exfalso. eapply before_preflight_not_passed; [| exact Hpassed].
    apply before_preflight_app. split; [done | apply Herr]. }
  destruct Hcases as (trb & trp & op & tr' & -> & Hb & Hp & Hrest).
  pose proof (banner_spec _ _ _ _ _ _ Hb) as (Heb & Hbb & _).
  pose proof (preflight_spec _ _ _ _ Hp) as (Hep & Hpc).
  destruct Hrest as [[-> Hrest] | (Hne & -> & ->)].
  - destruct (preflight_ends _ _ _ _ Hp eq_refl) as (trp' & -> & Hbp).
    rewrite effects_app in Hep. apply app_eq_nil in Hep as [Hep _].
    exists config, tr0, (trb ++ trp'), tr'.
    split; [done |]. split; [by rewrite <- !app_assoc |].
    split; [by rewrite !before_preflight_app |].
    by rewrite !effects_app, He0, Heb, Hep.
  - exfalso. destruct Hpc as [-> | (_ & Hbp)]; [done |].
    eapply before_preflight_not_passed; [| exact Hpassed].
    rewrite !before_preflight_app. done.
Qed.

(** What follows the preflight checks, in a new directory: the effects of
    the run follow the workflow, with the visibility in force. *)
Lemma after_preflight_conforms options name config :
  opt_here options = false →
  let dir := resolve rt (cwd rt) name in
  spec (after_preflight rt options name config) (λ tr o,
    (∀ b, Ev (existsSync dir) b ∈ tr → b = false) →
    ∃ isRepo fullName,
      conforms (workflow rt name dir fullName
                  (visibility_flag (resolve_visibility options config)) isRepo)
        (effects tr) o
      ∧ (2 < length (effects tr) →
         Ev (existsSync (join rt dir ".git")) isRepo ∈ tr)).
Proof.
  intros Hhere dir. unfold after_preflight. cbv zeta.
  assert (target_dir rt options name = dir) as ->
    by (unfold target_dir; by rewrite Hhere).
  apply spec_bind. eapply spec_mono; [by apply safety_checks_new |].
  intros tr1 o1 [-> ->].
  apply spec_bind. eapply spec_mono; [by apply steps_spec |].
  intros tr2 o2 H2.
  assert (∀ tr, (∀ b, Ev (existsSync dir) b ∈ [] ++ tr2 ++ tr → b = false) →
                ∀ b, Ev (existsSync dir) b ∈ tr2 → b = false) as Hsub.
  { intros tr H b Hb. apply H. rewrite !elem_of_app. auto. }
  assert (∀ tr isRepo,
            Ev (existsSync (join rt dir ".git")) isRepo ∈ tr2 →
            Ev (existsSync (join rt dir ".git")) isRepo ∈ [] ++ tr2 ++ tr) as Hin.
  { intros tr isRepo Hb. rewrite !elem_of_app. auto. }
  destruct o2 as [[]|e|n].
  - eapply spec_mono; [apply report_spec |].
    intros tr3 o3 [He3 Ho3] Hdir.
    destruct (H2 (Hsub _ Hdir)) as (isRepo & fullName & Hc & Hgit).
    exists isRepo, fullName.
    rewrite !effects_app, He3, app_nil_r. simpl.
    split; [| intros Hl; by apply Hin, Hgit].
    apply conforms_after; [done |].
    intros n ->. by destruct Ho3 as [? | [? ?]].
  - intros Hdir. rewrite <- (app_nil_r tr2) in Hdir.
    destruct (H2 (Hsub _ Hdir)) as (isRepo & fullName & Hc & Hgit).
    exists isRepo, fullName. simpl.
    split; [done | intros Hl; rewrite <- (app_nil_r tr2); by apply (Hin []), Hgit].
  - intros Hdir. rewrite <- (app_nil_r tr2) in Hdir.
    destruct (H2 (Hsub _ Hdir)) as (isRepo & fullName & Hc & Hgit).
    exists isRepo, fullName. simpl.
    split; [done | intros Hl; rewrite <- (app_nil_r tr2); by apply (Hin []), Hgit].
Qed.

(** C1. A run of [init] that passes the preflight checks and finds no
    directory of the name of the project (so without [--here]).  The
    preferences [config] are loaded first.  The effects of the run are the
    first steps of the workflow, in the order of the workflow: create the
    directory, write the README [# <name>], initialise version control
    unless the directory is a repository already and rename the branch to
    [main], stage all and commit with the message [Initial commit], create
    the remote repository [fullName] with the visibility that the options
    and [config] give, add its URL as the remote [origin], push [main].  A
    step that fails is the last effect of the run, and the run then exits
    with status 1; the run never exits with another status; when the run
    returns, every step has been done and has succeeded.  The run goes on to
    the end: when every call after the preflight checks succeeds, the run
    returns.  The repository that is created is [<owner>/<name>], where the
    owner is the organisation in force, or else the user name that
    [gh api user] answered in the run.  No other effect occurs, and the
    other child processes of the run are the queries of [is_query]: nothing
    that was done is undone. *)
Theorem init_workflow name options tr o :
  runs (initCommand rt name options) tr o →
  opt_here options = false →
  preflight_passed ∈ tr →
  (∀ b, Ev (existsSync (resolve rt (cwd rt) (JS.trim name))) b ∈ tr → b = false) →
  ∃ config tr0 isRepo fullName,
    let dir := resolve rt (cwd rt) (JS.trim name) in
    let org := resolve_org options config in
    let visibility := visibility_flag (resolve_visibility options config) in
    let W := workflow rt (JS.trim name) dir fullName visibility isRepo in
    let E := effects tr in
    tr0 `prefix_of` tr
    ∧ runs (Config.loadConfig rt) tr0 (Returned config)
    ∧ E.*1 `prefix_of` W
    ∧ (∀ i c, E !! i = Some (c, false) → S i = length E ∧ o = Exited 1)
    ∧ (o = Returned tt → E = (λ c, (c, true)) <$> W)
    ∧ (∀ n, o = Exited n → n = 1%Z)
    ∧ (Forall (λ e, succeeded e = true) (after_passed tr) → o = Returned tt)
    ∧ (2 < length E → Ev (existsSync (join rt dir ".git")) isRepo ∈ tr)
    ∧ (∀ b, (execSync ("gh repo create " +:+ fullName +:+ " " +:+ visibility) None, b)
              ∈ E →
         ∃ owner, fullName = owner +:+ "/" +:+ JS.trim name
                  ∧ owner_in org tr owner)
    ∧ Forall accounted (calls tr).
Proof.
  intros Hrun Hhere Hpassed Hdir.
  destruct (initCommand_phases name options tr o Hrun Hpassed)
    as (config & tr0 & tr1 & tr' & H0 & -> & Hbefore & He & Hafter).
  set (dir := resolve rt (cwd rt) (JS.trim name)) in *.
  assert (∀ b, Ev (existsSync dir) b ∈ tr' → b = false) as Hdir'.
  { intros b Hb. apply Hdir. apply elem_of_app. right. by right. }
  destruct (after_preflight_conforms options (JS.trim name) config Hhere
              tr' o Hafter Hdir') as (isRepo & fullName & Hc & Hgit).
  fold dir in Hc, Hgit.
  assert (effects ((tr0 ++ tr1) ++ preflight_passed :: tr') = effects tr') as HE.
  { change (preflight_passed :: tr') with ([preflight_passed] ++ tr').
    by rewrite (effects_app (tr0 ++ tr1)), He. }
  exists config, tr0, isRepo, fullName. cbv zeta. rewrite HE.
  split; [exists (tr1 ++ preflight_passed :: tr'); by rewrite <- app_assoc |].
  split; [done |].
  split; [by eapply conforms_prefix |].
  split; [intros i c; by eapply conforms_failed |].
  split; [intros ->; by apply conforms_returned |].
  split; [intros n ->; by eapply conforms_exit |].
  split.
  { rewrite after_passed_app by done. intros Hall.
    destruct (after_preflight_goes_on rt options (JS.trim name) config Hhere
                tr' o Hafter) as [[] ->]; [| done].
    assert (target_dir rt options (JS.trim name) = dir) as ->
      by (unfold target_dir; by rewrite Hhere).
    rewrite Forall_forall in Hall. apply Forall_forall. intros e Hin.
    split; [by apply Hall |]. intros ->. by specialize (Hdir' true Hin). }
  split.
  { intros Hl. apply elem_of_app. right. right. by apply Hgit. }
  split; [| exact (initCommand_accounted rt name options _ o Hrun)].
  intros b [r Hin]%effects_elem.
  destruct (after_preflight_creates rt options (JS.trim name) config
              tr' o Hafter _ r Hin) as (owner & Heq & Howner).
  { apply startsWith_spec. by eexists. }
  exists owner. split.
  - injection Heq as Heq. apply (inj (String.app _)) in Heq.
    by apply append_inj_r in Heq.
  - apply owner_in_app. right.
    change (preflight_passed :: tr') with ([preflight_passed] ++ tr').
    apply owner_in_app. by right.
Qed.

End WorkflowFacts.

Lemma forallb_Forall {A : Type} (f : A → bool) (l : list A) :
  forallb f l = true → Forall (λ x, f x = true) l.
Proof.
  induction l as [|x l IH]; [constructor |]. simpl.
  intros [Hx Hl]%andb_true_iff. constructor; auto.
Qed.

(** The theorem for [init demo] on a machine where everything succeeds: the
    run returns, having done the whole workflow for a repository
    [<owner>/demo]. *)
Lemma init_workflow_witness :
  let r := run world (Init.initCommand node "demo" Examples.init_plain)
             Examples.fresh in
  r.1.1 = Returned tt
  ∧ ∃ config isRepo owner,
      effects r.1.2
      = (λ c, (c, true))
          <$> InitSpec.workflow node "demo" "/work/demo" (owner +:+ "/demo")
                (InitSpec.visibility_flag
                   (Init.resolve_visibility Examples.init_plain config))
                isRepo.
Proof.
  intros r.
  assert (InitSpec.preflight_passed ∈ r.1.2) as Hpassed.
  { vm_compute. repeat first [apply list_elem_of_here | apply list_elem_of_further]. }
  assert (∀ b, Ev (existsSync (resolve node (cwd node) (JS.trim "demo"))) b ∈ r.1.2
               → b = false) as Hdir.
  { clear. intros b Hb. vm_compute in Hb.
    repeat (apply elem_of_cons in Hb as [Hb | Hb];
            [try discriminate Hb; by apply Ev_inj in Hb |]).
    by apply elem_of_nil in Hb. }
  assert (Forall (λ e, succeeded e = true) (WorkflowNotions.after_passed r.1.2))
    as Hfine.
  { apply forallb_Forall. vm_compute. reflexivity. }
  assert (runs (Init.initCommand node "demo" Examples.init_plain) r.1.2 r.1.1)
    as Hrun.
  { apply run_runs. }
  pose proof (init_workflow node "demo" Examples.init_plain r.1.2 r.1.1
                Hrun eq_refl Hpassed Hdir) as H.
  destruct H as (config & tr0 & isRepo & fullName & _ & _ & _ & _ & Hall & _
                 & Hprogress & _ & Howner & _).
  pose proof (Hprogress Hfine) as Ho. clear Hprogress Hfine Hdir Hpassed Hrun.
  specialize (Hall Ho). split; [exact Ho |].
  destruct (Howner true) as (owner & -> & _).
  { rewrite Hall. apply list_elem_of_fmap. eexists. split; [reflexivity |].
    unfold InitSpec.workflow. destruct isRepo;
      repeat first [apply list_elem_of_here | apply list_elem_of_further]. }
  exists config, isRepo, owner. exact Hall.
Defined.

(* ================================================================== *)
(** * Further properties *)
(* ================================================================== *)

Section ActionFacts.
Implicit Types (tr : list Event) (P : Cmd → Prop).

Lemma actions_app tr1 tr2 : actions (tr1 ++ tr2) = actions tr1 ++ actions tr2.
Proof. unfold actions. by rewrite calls_app, filter_app. Qed.

Lemma no_action_actions tr :
  Forall (λ c, is_action c = false) (calls tr) → actions tr = [].
Proof.
  unfold actions. induction 1 as [|c l Hc _ IH]; [done |].
  rewrite filter_cons, Hc. done.
Qed.

Lemma no_action_effects tr :
  Forall (λ c, is_action c = false) (calls tr) → effects tr = [].
Proof.
  induction tr as [|[c r] tr IH]; [done |].
  intros [Hc Htr]%Forall_cons. rewrite effects_cons, (IH Htr). simpl.
  by destruct c.
Qed.

Lemma no_check_failed tr :
  Forall (λ c, is_check c = false) (calls tr) → existsb failed_check tr = false.
Proof.
  induction tr as [|[c r] tr IH]; [done |].
  intros [Hc Htr]%Forall_cons. simpl. rewrite (IH Htr), orb_false_r.
  destruct c as [| | | |command [dir|]| | | | | | |]; try done.
  simpl in Hc. apply orb_false_iff in Hc as [[H1 H2]%orb_false_iff H3].
  destruct r; simpl; [done | by rewrite H1, H2].
Qed.

Lemma no_action_no_check c : is_action c = false → is_check c = false.
Proof. by destruct c. Qed.

End ActionFacts.

Section PreflightFacts.
Import Init InitSpec InitNotions.
Context (rt : Runtime).

Lemma loadConfig_no_action : always (λ c, is_action c = false) (Config.loadConfig rt).
Proof. always_run; reflexivity. Qed.

Lemma banner_no_action name dir isPublic org :
  always (λ c, is_action c = false) (banner name dir isPublic org).
Proof. always_run; reflexivity. Qed.

(** The preflight checks: they pass when [gh] is found, is logged in and
    does not find the repository; if not, the run exits with status 1. *)
Lemma preflight_cases name org :
  spec (preflight name org) (λ tr o,
    effects tr = []
    ∧ ((o = Returned tt ∧ preflight_passed ∈ tr ∧ existsb failed_check tr = false)
       ∨ (o = Exited 1 ∧ before_preflight tr ∧ existsb failed_check tr = true))).
Proof.
  unfold preflight, Github.isGhInstalled, Github.isGhAuthenticated,
    Github.repoExists, Github.exec.
  spec_run.
  all: repeat match goal with r : Resp _ |- _ => destruct r end.
  all: split; [reflexivity |].
  all: try match goal with H : negb _ = _ |- _ => by simpl in H end.
  all: first
    [ right; split; [reflexivity |]; split; reflexivity
    | left; split; [reflexivity |]; split; [| reflexivity];
      repeat first [apply list_elem_of_here | apply list_elem_of_further] ].
Qed.

Lemma after_preflight_no_check options name config :
  always (λ c, is_check c = false) (after_preflight rt options name config).
Proof. unfold after_preflight. always_run; reflexivity. Qed.

End PreflightFacts.

(** ** The exits of [init] before its first step *)

Section EarlyExits.
Import Init InitSpec InitNotions.
Context (rt : Runtime).

Lemma existsb_failed_app tr1 tr2 :
  existsb failed_check (tr1 ++ tr2) = existsb failed_check tr1 || existsb failed_check tr2.
Proof. apply existsb_app. Qed.

(** A run of [init] in which the preflight checks have passed: what came
    before had no effect, and the run goes on after the checks. *)
Lemma initCommand_passed name options tr o :
  runs (initCommand rt name options) tr o →
  preflight_passed ∈ tr →
  ∃ config tr0 tr',
    tr = tr0 ++ tr'
    ∧ effects tr0 = []
    ∧ existsb failed_check tr0 = false
    ∧ Validation.validateProjectName (VStr name) = Ok (JS.trim name)
    ∧ runs (after_preflight rt options (JS.trim name) config) tr' o.
Proof.
  intros Hrun Hpassed.
  destruct (initCommand_prelude rt name options tr o Hrun)
    as (config & tr0 & H0 & Hcases). cbv zeta in Hcases.
  pose proof (loadConfig_quiet rt _ _ H0) as (_ & He0 & Hb0).
  pose proof (loadConfig_no_action rt _ _ H0) as Ha0.
  assert (∀ text, effects [Ev (console_error text) tt] = []
                  ∧ before_preflight [Ev (console_error text) tt]) as Herr by done.
  destruct Hcases as [(message & Hname & -> & ->) | (Hname & Hcases)].
  { exfalso. eapply before_preflight_not_passed; [| exact Hpassed].
    apply before_preflight_app. split; [done | apply Herr]. }
  destruct Hcases as [(message & _ & _ & -> & ->) | (_ & Hcases)].
  { exfalso. eapply before_preflight_not_passed; [| exact Hpassed].
    apply before_preflight_app. split; [done | apply Herr]. }
  destruct Hcases as (trb & trp & op & tr' & -> & Hb & Hp & Hrest).
  pose proof (banner_spec _ _ _ _ _ _ Hb) as (Heb & Hbb & _).
  pose proof (banner_no_action _ _ _ _ _ _ Hb) as Hab.
  pose proof (preflight_cases _ _ _ _ Hp) as (Hep & Hpc).
  destruct Hrest as [[-> Hrest] | (Hne & -> & ->)].
  - destruct Hpc as [(_ & _ & Hfp) | ([=] & _)].
    exists config, (tr0 ++ trb ++ trp), tr'. rewrite <- !app_assoc.
    split; [done |]. split; [by rewrite !effects_app, He0, Heb, Hep |].
    split; [| done]. rewrite !existsb_failed_app, Hfp.
    rewrite !no_check_failed; [done | |].
    + eapply Forall_impl; [exact Hab | apply no_action_no_check].
    + eapply Forall_impl; [exact Ha0 | apply no_action_no_check].
  - exfalso. destruct Hpc as [(-> & _) | (_ & Hbp & _)]; [done |].
    eapply before_preflight_not_passed; [| exact Hpassed].
    rewrite !before_preflight_app. done.
Qed.

(** X1. A run of [init] with a project name that the validator rejects
    prints the message of the validator, exits with status 1, and has
    started no child process and written nothing. *)
Theorem init_invalid_name name options message tr o :
  runs (initCommand rt name options) tr o →
  Validation.validateProjectName (VStr name) = Error message →
  o = Exited 1
  ∧ last tr = Some (Ev (console_error (nl +:+ "Error: " +:+ message)) tt)
  ∧ actions tr = [].
Proof.
  intros Hrun Hname.
  destruct (initCommand_prelude rt name options tr o Hrun)
    as (config & tr0 & H0 & Hcases). cbv zeta in Hcases.
  destruct Hcases as [(message' & Hname' & -> & ->) | (Hname' & _)];
    [| congruence].
  assert (message' = message) as -> by congruence.
  split; [done |]. split; [by rewrite last_snoc |].
  rewrite actions_app, no_action_actions; [done |].
  by apply (loadConfig_no_action rt) in H0.
Qed.

(** X2. A run of [init] with a valid project name and an organisation in
    force (the option [--org], or else the stored default) that is truthy
    and that the validator rejects prints the message, exits with status 1,
    and has started no child process and written nothing. *)
Theorem init_invalid_org name options validated tr o :
  runs (initCommand rt name options) tr o →
  Validation.validateProjectName (VStr name) = Ok validated →
  ∃ config tr0,
    tr0 `prefix_of` tr
    ∧ runs (Config.loadConfig rt) tr0 (Returned config)
    ∧ ∀ message,
        JS.truthy (resolve_org options config) = true →
        Validation.validateGitHubName (resolve_org options config) = Error message →
        o = Exited 1
        ∧ last tr = Some (Ev (console_error
                               (nl +:+ "Error: Invalid organization name - "
                                +:+ message)) tt)
        ∧ actions tr = [].
Proof.
  intros Hrun Hname.
  destruct (initCommand_prelude rt name options tr o Hrun)
    as (config & tr0 & H0 & Hcases). cbv zeta in Hcases.
  exists config, tr0.
  destruct Hcases as [(message' & Hname' & -> & ->) | (_ & Hcases)];
    [congruence |].
  destruct Hcases as [(message' & _ & Horg' & -> & ->) | ([Horg' | [v Horg']] & Hrest)].
  - split; [by apply prefix_app_r |]. split; [done |].
    intros message _ Horg. assert (message' = message) as -> by congruence.
    split; [done |]. split; [by rewrite last_snoc |].
    rewrite actions_app, no_action_actions; [done |].
    by apply (loadConfig_no_action rt) in H0.
  - destruct Hrest as (trb & trp & op & tr' & -> & _).
    split; [by apply prefix_app_r |]. split; [done |]. congruence.
  - destruct Hrest as (trb & trp & op & tr' & -> & _).
    split; [by apply prefix_app_r |]. split; [done |]. congruence.
Qed.

(** X3. The preflight checks are a gate.  A run of [init] in which
    [which gh] or [gh auth status] fails, or in which [gh repo view] finds
    the repository, does not pass them; and a run that does not pass them
    exits with status 1 and has no effect: no directory, no file, no [git]
    command, no repository created. *)
Theorem init_preflight_gate name options tr o :
  runs (initCommand rt name options) tr o →
  (existsb failed_check tr = true → preflight_passed ∉ tr)
  ∧ (preflight_passed ∉ tr →
     o = Exited 1 ∧ effects tr = []
     ∧ Forall (λ c, is_write c = false) (calls tr)).
Proof.
  intros Hrun. split.
  - intros Hfailed Hpassed.
    destruct (initCommand_passed name options tr o Hrun Hpassed)
      as (config & tr0 & tr' & -> & _ & Hf0 & _ & Hrest).
    rewrite existsb_failed_app, Hf0 in Hfailed. simpl in Hfailed.
    apply after_preflight_no_check, no_check_failed in Hrest. congruence.
  - intros Hnot.
    cut (o = Exited 1 ∧ effects tr = []).
    { intros [-> He]. split; [done |]. split; [done |].
      by apply effects_nil_no_write. }
    destruct (initCommand_prelude rt name options tr o Hrun)
      as (config & tr0 & H0 & Hcases). cbv zeta in Hcases.
    pose proof (loadConfig_quiet rt _ _ H0) as (_ & He0 & Hb0).
    destruct Hcases as [(message & Hname & -> & ->) | (Hname & Hcases)].
    { by rewrite effects_app, He0. }
    destruct Hcases as [(message & _ & _ & -> & ->) | (_ & Hcases)].
    { by rewrite effects_app, He0. }
    destruct Hcases as (trb & trp & op & tr' & -> & Hb & Hp & Hrest).
    pose proof (banner_spec _ _ _ _ _ _ Hb) as (Heb & Hbb & _).
    pose proof (preflight_cases _ _ _ _ Hp) as (Hep & Hpc).
    destruct Hpc as [(-> & Hin & _) | (-> & _ & _)].
    + exfalso. apply Hnot. rewrite !elem_of_app. auto.
    + destruct Hrest as [[[=] _] | (_ & -> & ->)].
      by rewrite !effects_app, He0, Heb, Hep.
Qed.

End EarlyExits.

(** ** The first step, and the steps in the working directory *)

Section HereFacts.
Import Init InitSpec InitNotions.
Context (rt : Runtime).

Lemma last_app_cons {A : Type} (l1 l2 : list A) x :
  last (l1 ++ x :: l2) = last (x :: l2).
Proof. induction l1 as [|y [|z l1] IH]; try done. Qed.

(** Step 1 when the directory is there already: the run stops before it has
    any effect. *)
Lemma step_directory_cases options name dir :
  opt_here options = false →
  spec (step_directory options name dir) (λ tr o,
    (Ev (existsSync dir) true ∈ tr ∧ o = Exited 1 ∧ effects tr = []
     ∧ last tr = Some (Ev (ora_fail ("Directory " +:+ JS.quoted name
                                      +:+ " already exists")) tt))
    ∨ Ev (existsSync dir) false ∈ tr).
Proof.
  intros Hhere. unfold step_directory. rewrite Hhere. cbn [negb].
  spec_run.
  all: repeat match goal with r : Resp _ |- _ => destruct r end.
  all: first
    [ right; apply list_elem_of_further, list_elem_of_here
    | left; split; [apply list_elem_of_further, list_elem_of_here |];
      split; [reflexivity |]; split; reflexivity ].
Qed.

(** X4. A run of [init] without [--here] that has passed the preflight
    checks and finds the directory of the project already there reports it
    and exits with status 1; it has no effect: nothing is written, no [git]
    command is run and no repository is created. *)
Theorem init_directory_exists name options tr o :
  runs (initCommand rt name options) tr o →
  opt_here options = false →
  preflight_passed ∈ tr →
  (∀ b, Ev (existsSync (resolve rt (cwd rt) (JS.trim name))) b ∈ tr → b = true) →
  o = Exited 1
  ∧ last tr = Some (Ev (ora_fail ("Directory " +:+ JS.quoted (JS.trim name)
                                   +:+ " already exists")) tt)
  ∧ effects tr = []
  ∧ Forall (λ c, is_write c = false) (calls tr).
Proof.
  intros Hrun Hhere Hpassed Hdir.
  destruct (initCommand_passed rt name options tr o Hrun Hpassed)
    as (config & tr0 & tr' & -> & He0 & _ & _ & Hrest).
  unfold after_preflight in Hrest. cbv zeta in Hrest.
  assert (target_dir rt options (JS.trim name) = resolve rt (cwd rt) (JS.trim name))
    as Htarget by (unfold target_dir; by rewrite Hhere).
  rewrite Htarget in Hrest.
  apply runs_seq in Hrest
    as [([] & tr1 & tr2 & H1 & Hrest & ->) | [(e & H1 & ->) | (n & H1 & ->)]];
    [| by apply (safety_checks_new rt options _ Hhere) in H1 as [_ [=]] ..].
  apply (safety_checks_new rt options _ Hhere) in H1 as [-> _].
  apply runs_seq in Hrest
    as [([] & ts & tr3 & H2 & Hrest & ->) | [(e & H2 & ->) | (n & H2 & ->)]].
  all: unfold steps in H2.
  all: apply runs_seq in H2
    as [([] & trd & tr4 & Hd & H2 & ->) | [(e' & Hd & Ho) | (n' & Hd & Ho)]].
  all: apply (step_directory_cases options _ _ Hhere) in Hd
    as [(Hin & Hod & Hed & Hlast) | Hin].
  all: try (specialize (Hdir false); discriminate Hdir;
            rewrite !elem_of_app; by auto 10).
  all: try discriminate Hod.
  injection Hod as <-. injection Ho as <-.
  assert (effects (tr0 ++ [] ++ tr2) = []) as He.
  { by rewrite !effects_app, He0, Hed. }
  split; [done |]. split; [| split; [done | by apply effects_nil_no_write]].
  simpl. destruct tr2 as [|ev tr2]; [done |].
  by rewrite last_app_cons.
Qed.





End HereFacts.

(** ** The characters of the commands *)

Section PlainStrings.

Lemma all_chars_app f (s t : string) :
  JS.all_chars f (s +:+ t) = JS.all_chars f s && JS.all_chars f t.
Proof.
  induction s as [|c s IH]; [done |].
  rewrite append_cons. simpl. by rewrite IH, andb_assoc.
Qed.

Lemma all_chars_impl (f g : ascii → bool) s :
  (∀ c, f c = true → g c = true) →
  JS.all_chars f s = true → JS.all_chars g s = true.
Proof.
  intros Hfg. induction s as [|c s IH]; [done |]. simpl.
  intros [Hc Hs]%andb_true_iff. by rewrite (Hfg c Hc), IH.
Qed.

Lemma plain_app s t : plain (s +:+ t) = plain s && plain t.
Proof. apply all_chars_app. Qed.

Lemma all_chars_trimEnd f s :
  JS.all_chars f (JS.trimEnd s) = true →
  JS.all_chars (λ c, f c || JS.is_white_space c) s = true.
Proof.
  induction s as [|c s IH]; [done |]. simpl.
  destruct (JS.trimEnd s) as [|c' t] eqn:Ht.
  - intros Hc. rewrite IH by done. rewrite andb_true_r.
    destruct (JS.is_white_space c); [by rewrite orb_true_r |].
    simpl in Hc. by rewrite andb_true_r in Hc; rewrite Hc.
  - intros [Hc Hs]%andb_true_iff. by rewrite Hc, IH.
Qed.

Lemma all_chars_trimStart f s :
  JS.all_chars (λ c, f c || JS.is_white_space c) (JS.trimStart s) = true →
  JS.all_chars (λ c, f c || JS.is_white_space c) s = true.
Proof.
  induction s as [|c s IH]; [done |]. simpl.
  destruct (JS.is_white_space c) eqn:Hc.
  - intros H. by rewrite orb_true_r, IH.
  - simpl. by rewrite Hc.
Qed.

(** A string whose trimmed form is made of characters of [f] is made of
    characters of [f] and of white space. *)
Lemma all_chars_trim f s :
  JS.all_chars f (JS.trim s) = true →
  JS.all_chars (λ c, f c || JS.is_white_space c) s = true.
Proof. intros H. by apply all_chars_trimStart, all_chars_trimEnd. Qed.

Lemma name_class_plain c : Validation.name_class c = true → plain_char c = true.
Proof. unfold plain_char. by intros ->. Qed.

(** A name the validator accepts is made of the characters of the class. *)
Lemma validateProjectName_class name validated :
  Validation.validateProjectName name = Ok validated →
  ∃ s, name = VStr s ∧ validated = JS.trim s
       ∧ JS.all_chars Validation.name_class validated = true.
Proof.
  destruct name as [| | | |s| |]; try done. intros H. exists s.
  split; [done |]. apply validateProjectName_trim in H as Ht. split; [done |].
  subst validated. unfold Validation.validateProjectName in H.
  repeat match type of H with
         | (if ?b then _ else _) = _ => destruct b eqn:?; try done
         end.
  match goal with
  | Hv : negb (Validation.VALID_NAME_PATTERN_test _) = false |- _ =>
      apply negb_false_iff in Hv; unfold Validation.VALID_NAME_PATTERN_test in Hv;
      by apply andb_true_iff in Hv as [_ Hv]
  end.
Qed.

Lemma validated_plain name validated :
  Validation.validateProjectName name = Ok validated → plain validated = true.
Proof.
  intros (s & _ & _ & H)%validateProjectName_class.
  eapply all_chars_impl; [apply name_class_plain | done].
Qed.

(** An organisation the validator accepts is used as it was given: with the
    white space around it. *)
Lemma validated_org_plain org validated :
  Validation.validateGitHubName org = Ok validated →
  plain (JS.to_string org) = true.
Proof.
  intros (s & -> & -> & H)%validateProjectName_class. simpl.
  apply all_chars_trim in H.
  eapply all_chars_impl; [| exact H]. intros c. unfold plain_char.
  intros [-> | ->]%orb_true_iff; [done |]. by rewrite orb_true_r.
Qed.

End PlainStrings.

Section PlainRules.

Lemma plainly_always {A : Type} (p : Prog A) :
  always plain_command p → plainly p (λ _, True).
Proof. intros Hp tr o Hrun _. split; [by apply Hp in Hrun | done]. Qed.

Lemma plainly_bind {A B : Type} (p : Prog A) (f : A → Prog B) R R' :
  plainly p R → (∀ a, R a → plainly (f a) R') → plainly (p ≫= f) R'.
Proof.
  intros Hp Hf tr o Hrun Hans.
  apply runs_bind in Hrun
    as [(a & tr1 & tr2 & H1 & H2 & ->) | [(e & H1 & ->) | (n & H1 & ->)]].
  - apply Forall_app in Hans as [Hans1 Hans2].
    destruct (Hp _ _ H1 Hans1) as [Hc1 Ha].
    destruct (Hf a (Ha a eq_refl) _ _ H2 Hans2) as [Hc2 Hb].
    split; [| done]. rewrite calls_app. by apply Forall_app.
  - destruct (Hp _ _ H1 Hans) as [Hc1 _]. done.
  - destruct (Hp _ _ H1 Hans) as [Hc1 _]. done.
Qed.

Lemma plainly_try_catch {A : Type} (p : Prog A) (h : string → Prog A) R :
  plainly p R → (∀ e, plainly (h e) R) → plainly (try_catch p h) R.
Proof.
  intros Hp Hh. apply spec_try_catch. intros tr1 o1 H1.
  destruct o1 as [a|e|n].
  - by apply Hp.
  - intros tr2 o2 H2 Hans. apply Forall_app in Hans as [Hans1 Hans2].
    destruct (Hp _ _ H1 Hans1) as [Hc1 _].
    destruct (Hh e _ _ H2 Hans2) as [Hc2 Hb].
    split; [| done]. rewrite calls_app. by apply Forall_app.
  - by apply Hp.
Qed.

End PlainRules.

Section PlainCommands.
Import Init InitSpec.
Context (rt : Runtime).

Lemma plainly_ret {A : Type} (a : A) (R : A → Prop) : R a → plainly (mret a) R.
Proof. intros Ha tr o [-> ->] _. split; [constructor |]. by intros ? [= <-]. Qed.

(** A call of the code is plain: a fixed command, or one built from plain
    parts. *)
Ltac plain_leaf :=
  lazymatch goal with
  | |- plain_command (execSync _ _) =>
      first
        [ left; reflexivity
        | right;
          repeat match goal with
                 | |- context [if ?b then _ else _] => destruct b eqn:?
                 end;
          rewrite ?plain_app;
          repeat (apply andb_true_intro; split);
          first [reflexivity | assumption | auto] ]
  | |- plain_command _ => exact I
  end.

Ltac plain_phase := apply plainly_always; always_run; plain_leaf.

Lemma getGhUsername_plainly :
  plainly Github.getGhUsername (λ username, plain username = true).
Proof.
  unfold plainly, Github.getGhUsername, Github.exec. spec_run.
  - intros [Hout _]%Forall_cons. simpl in Hout.
    split; [repeat constructor; by right |]. by intros ? [= <-].
  - intros _. split; [repeat constructor; by right | done].
Qed.

Lemma createRepoOnly_plainly name isPublic org :
  plain name = true →
  (JS.truthy org = true → plain (JS.to_string org) = true) →
  plainly (Github.createRepoOnly name isPublic org) (λ url, plain url = true).
Proof.
  intros Hname Horg. unfold Github.createRepoOnly. cbv zeta.
  eapply (plainly_bind _ _ (λ fullName, plain fullName = true)).
  - destruct (JS.truthy org).
    + apply plainly_ret. rewrite !plain_app, Hname, Horg by done. reflexivity.
    + eapply plainly_bind; [apply getGhUsername_plainly |].
      intros username Hu. apply plainly_ret. rewrite !plain_app, Hname, Hu.
      reflexivity.
  - intros fullName Hfull.
    eapply plainly_bind; [plain_phase |].
    intros _ _. apply plainly_ret. rewrite !plain_app, Hfull. reflexivity.
Qed.

Lemma validate_name_plainly name :
  plainly (validate_name name) (λ validated, plain validated = true).
Proof.
  unfold validate_name.
  destruct (Validation.validateProjectName _) eqn:Hv.
  - apply plainly_ret. by eapply validated_plain.
  - unfold plainly. spec_run. intros _. by repeat constructor.
Qed.

Lemma validate_org_plainly org :
  plainly (validate_org org)
    (λ _, JS.truthy org = true → plain (JS.to_string org) = true).
Proof.
  unfold validate_org, when. destruct (JS.truthy org); [| by apply plainly_ret].
  destruct (Validation.validateGitHubName org) eqn:Hv.
  - apply plainly_ret. intros _. by eapply validated_org_plain.
  - unfold plainly. spec_run. intros _. by repeat constructor.
Qed.

Lemma step_github_plainly name isPublic org :
  plain name = true →
  (JS.truthy org = true → plain (JS.to_string org) = true) →
  plainly (step_github name isPublic org) (λ url, plain url = true).
Proof.
  intros Hname Horg. unfold step_github.
  eapply plainly_bind; [plain_phase |]. intros _ _.
  apply plainly_try_catch.
  - eapply plainly_bind; [by apply createRepoOnly_plainly |].
    intros url Hurl. eapply plainly_bind; [plain_phase |].
    intros _ _. by apply plainly_ret.
  - intros e. unfold plainly. spec_run. intros _. by repeat constructor.
Qed.

(** X6. The commands of [init] are made of plain characters.  In a run in
    which the user name that [gh api user] answers is made, once trimmed, of
    the characters of names, white space, [/], [:] and [@], every child
    process has a command made of these characters only, but for the fixed
    commit command with its quoted message: what the user gives as project
    name or as organisation brings no other character into a command.  The
    white space is there because the organisation is validated in trimmed
    form and used as it was given. *)
Theorem init_commands_plain name options tr o :
  runs (initCommand rt name options) tr o →
  Forall (λ e, plain_answer e = true) tr →
  Forall plain_command (calls tr).
Proof.
  intros Hrun Hans. revert tr o Hrun Hans.
  cut (plainly (initCommand rt name options) (λ _, True)).
  { intros H tr o Hrun Hans. by apply H in Hrun as [? _]. }
  unfold initCommand.
  eapply plainly_bind; [plain_phase |]. intros config _.
  eapply plainly_bind; [apply validate_name_plainly |]. intros validated Hname.
  cbv zeta.
  eapply plainly_bind; [apply validate_org_plainly |]. intros ? Horg.
  cbv beta in Hname, Horg.
  eapply plainly_bind; [plain_phase |]. intros _ _.
  eapply plainly_bind; [plain_phase |]. intros _ _.
  eapply plainly_bind; [plain_phase |]. intros _ _.
  eapply plainly_bind; [| intros _ _; plain_phase].
  unfold steps.
  eapply plainly_bind; [plain_phase |]. intros _ _.
  eapply plainly_bind; [plain_phase |]. intros _ _.
  eapply plainly_bind; [plain_phase |]. intros _ _.
  eapply plainly_bind; [plain_phase |]. intros _ _.
  eapply plainly_bind; [by apply step_github_plainly |]. intros url Hurl.
  plain_phase.
Qed.

End PlainCommands.

(** ** The exceptions that [init] does not catch *)

Section NothrowRules.

Lemma nothrow_ret {A : Type} (a : A) : nothrow (mret a).
Proof. by apply spec_ret. Qed.

Lemma nothrow_exit {A : Type} n : nothrow (process_exit n : Prog A).
Proof. by apply (spec_exit (A:=A)). Qed.

Lemma nothrow_call c : nothrow (call c).
Proof. by apply spec_call. Qed.

Lemma nothrow_bind {A B : Type} (p : Prog A) (f : A → Prog B) :
  nothrow p → (∀ a, nothrow (f a)) → nothrow (p ≫= f).
Proof.
  intros Hp Hf. apply spec_bind. eapply spec_mono; [apply Hp |].
  intros tr1 o1 H1. destruct o1 as [a|e|n]; [| by destruct (H1 e) | done].
  eapply spec_mono; [apply Hf | done].
Qed.

Lemma nothrow_try_catch {A : Type} (p : Prog A) (h : string → Prog A) :
  (∀ e, nothrow (h e)) → nothrow (try_catch p h).
Proof.
  intros Hh. apply spec_try_catch. intros tr1 o1 _.
  destruct o1 as [a|e|n]; [done | | done].
  eapply spec_mono; [apply Hh | done].
Qed.

Lemma nothrow_when (b : bool) (p : Prog unit) : nothrow p → nothrow (when b p).
Proof. intros Hp. destruct b; [done | apply nothrow_ret]. Qed.

End NothrowRules.

(** A goal [nothrow p] for a program given by its code; what is inside a
    [try] is not looked at. *)
Ltac nothrow_step :=
  lazymatch goal with
  | |- nothrow (_ ≫= _) => apply nothrow_bind; [| intros ?]
  | |- nothrow (call ?c) => apply (nothrow_call c)
  | |- nothrow (mret _) => apply nothrow_ret
  | |- nothrow (process_exit _) => apply nothrow_exit
  | |- nothrow (try_catch _ _) => apply nothrow_try_catch; intros ?
  | |- nothrow (when _ _) => apply nothrow_when
  | |- nothrow (if ?b then _ else _) => destruct b
  | |- nothrow (match ?x with _ => _ end) => destruct x
  | |- nothrow (let _ := _ in _) => cbv zeta
  | |- nothrow _ => progress autounfold with prog
  end.

Ltac nothrow_run := repeat nothrow_step.

Section LateThrows.
Import Init InitSpec InitNotions.
Context (rt : Runtime).

Lemma throws_late_prefix {A : Type} (p : Prog A) (f : A → Prog unit) :
  nothrow p → (∀ a, spec (f a) (throws_late rt)) → spec (p ≫= f) (throws_late rt).
Proof.
  intros Hp Hf tr o Hrun.
  apply runs_bind in Hrun
    as [(a & tr1 & tr2 & H1 & H2 & ->) | [(e & H1 & ->) | (n & H1 & ->)]].
  - destruct (Hf a _ _ H2) as [Hret Hthrow]. split.
    + intros Ho. apply elem_of_app. right. by apply Hret.
    + intros e Ho. destruct (Hthrow e Ho) as (Hin & ev & Hlast & Hev).
      split; [apply elem_of_app; by right |]. exists ev. split; [| done].
      destruct tr2 as [|x tr2]; [done |]. by rewrite last_app_cons.
  - by destruct (Hp _ _ H1 e).
  - split; [done |]. intros e [=].
Qed.

Lemma step_remote_late dir url :
  spec (step_remote dir url) (λ tr o,
    (o = Returned tt → remote_set_up ∈ tr) ∧ ∀ e, o ≠ Thrown e).
Proof.
  unfold step_remote, Git.gitAddRemote, Git.exec. spec_run.
  all: repeat match goal with r : Resp _ |- _ => destruct r end.
  all: split; [| done]; try done.
  intros _. repeat first [apply list_elem_of_here | apply list_elem_of_further].
Qed.

Lemma select_identity_late :
  spec (select_identity rt) (λ tr o,
    ∀ e, o = Thrown e → ∃ ev, last tr = Some ev ∧ uncaught rt e ev).
Proof.
  unfold select_identity, SshIO.getGitHubSSHKeys. spec_run.
  all: repeat match goal with r : Resp _ |- _ => destruct r end.
  all: intros e' [= <-] || (intros e' Ho; try discriminate Ho).
  all: eexists; (split; [reflexivity |]).
  all: unfold uncaught; eauto.
Qed.

Lemma report_late options name dir org :
  spec (report options name dir org) (λ tr o,
    ∀ e, o = Thrown e → ∃ ev, last tr = Some ev ∧ uncaught rt e ev).
Proof.
  unfold report, Github.getGhUsername, Github.exec. spec_run.
  all: repeat match goal with r : Resp _ |- _ => destruct r end.
  all: intros e' [= <-] || (intros e' Ho; try discriminate Ho).
  all: eexists; (split; [reflexivity |]).
  all: unfold uncaught; eauto.
Qed.

Lemma push_late dir :
  spec (select_identity rt ≫= step_push dir) (λ tr o,
    ∀ e, o = Thrown e → ∃ ev, last tr = Some ev ∧ uncaught rt e ev).
Proof.
  intros tr o Hrun e ->.
  apply runs_bind in Hrun
    as [(a & tr1 & tr2 & H1 & H2 & ->) | [(e' & H1 & [= <-]) | (n & H1 & [=])]].
  - assert (nothrow (step_push dir a)) as Hn by nothrow_run.
    by destruct (Hn _ _ H2 e).
  - exact (select_identity_late _ _ H1 e eq_refl).
Qed.

Lemma steps_late options name dir isPublic org :
  spec (steps rt options name dir isPublic org) (throws_late rt).
Proof.
  unfold steps.
  apply throws_late_prefix; [nothrow_run | intros _].
  apply throws_late_prefix; [nothrow_run | intros _].
  apply throws_late_prefix; [nothrow_run | intros _].
  apply throws_late_prefix; [nothrow_run | intros _].
  apply throws_late_prefix; [nothrow_run | intros url].
  intros tr o Hrun.
  apply runs_bind in Hrun
    as [([] & tr1 & tr2 & H1 & H2 & ->) | [(e & H1 & ->) | (n & H1 & ->)]].
  - apply step_remote_late in H1 as [Hin _]. specialize (Hin eq_refl).
    split; [intros _; apply elem_of_app; by left |].
    intros e ->. split; [apply elem_of_app; by left |].
    destruct (push_late dir _ _ H2 e eq_refl) as (ev & Hlast & Hev).
    exists ev. split; [| done].
    destruct tr2 as [|x tr2]; [done |]. by rewrite last_app_cons.
  - apply step_remote_late in H1 as [_ Hno]. by destruct (Hno e).
  - split; [done |]. intros e [=].
Qed.

Lemma steps_report_late options name dir isPublic org :
  spec (steps rt options name dir isPublic org;; report options name dir org)
    (throws_late rt).
Proof.
  intros tr o Hrun.
  apply runs_bind in Hrun
    as [([] & tr1 & tr2 & H1 & H2 & ->) | [(e & H1 & ->) | (n & H1 & ->)]].
  - apply steps_late in H1 as [Hin _]. specialize (Hin eq_refl).
    split; [intros _; apply elem_of_app; by left |].
    intros e ->. split; [apply elem_of_app; by left |].
    destruct (report_late _ _ _ _ _ _ H2 e eq_refl) as (ev & Hlast & Hev).
    exists ev. split; [| done].
    destruct tr2 as [|x tr2]; [done |]. by rewrite last_app_cons.
  - apply steps_late in H1 as [_ Hthrow]. split; [done |].
    intros e' [= <-]. by apply Hthrow.
  - split; [done |]. intros e [=].
Qed.

(** X7. The exceptions of [init] that nothing catches.  A run of [init]
    that ends with an exception has set up the remote [origin] before
    (steps 1 to 6 are done), and its last call is the read of the SSH
    configuration, the prompt for the SSH key, or the lookup of the user
    name for the report, which threw that exception.  A failure anywhere
    else ends the run with [process.exit]. *)
Theorem init_throws_late name options tr o e :
  runs (initCommand rt name options) tr o →
  o = Thrown e →
  remote_set_up ∈ tr ∧ ∃ ev, last tr = Some ev ∧ uncaught rt e ev.
Proof.
  intros Hrun Ho. revert tr o Hrun e Ho.
  cut (spec (initCommand rt name options) (throws_late rt)).
  { intros H tr o Hrun e Ho. by apply H in Hrun as [_ Hrun]; apply Hrun. }
  unfold initCommand.
  apply throws_late_prefix; [nothrow_run | intros config].
  apply throws_late_prefix; [nothrow_run | intros validated]. cbv zeta.
  apply throws_late_prefix; [nothrow_run | intros _].
  apply throws_late_prefix; [nothrow_run | intros _].
  apply throws_late_prefix; [nothrow_run | intros _].
  apply throws_late_prefix; [nothrow_run | intros _].
  apply steps_report_late.
Qed.

End LateThrows.

(** ** The identity files of the lister; the validator applied twice *)

Section IdentityFacts.
Import Ssh SshSpec IdentitySpec.
Implicit Types (home line : string) (h : host_block).

#[local] Arguments absorb_line : simpl never.

(** A line is not both a [HostName] and an [IdentityFile] line. *)
Lemma hostname_not_identity line v :
  hostname_line line = Some v → identity_line line = None.
Proof.
  unfold hostname_line, identity_line, JS.match_directive.
  destruct (JS.trim line) as [|c s]; [done |]. simpl.
  destruct (decide (JS.canonicalize "H" = JS.canonicalize c)) as [Hc|]; [| done].
  intros _. rewrite decide_False; [done |]. by rewrite <- Hc.
Qed.

Lemma absorb_identity home h line :
  identityFile (absorb_line home h line)
  = match identity_line line with
    | Some path => Some (JS.replace "~" home path)
    | None => identityFile h
    end.
Proof.
  unfold absorb_line. destruct (hostname_line line) as [v|] eqn:Hv.
  - rewrite (hostname_not_identity line v Hv). by case_decide.
  - unfold identity_line. by destruct (JS.match_directive "IdentityFile" _).
Qed.

Lemma absorb_identity_last home ls : ∀ h,
  identityFile (foldl (absorb_line home) h ls)
  = match last (omap identity_line ls) with
    | Some path => Some (JS.replace "~" home path)
    | None => identityFile h
    end.
Proof.
  induction ls as [|l ls IH]; intros h; [done |].
  cbn [foldl]. rewrite IH, absorb_identity.
  change (omap identity_line (l :: ls))
    with (match identity_line l with
          | Some p => p :: omap identity_line ls
          | None => omap identity_line ls
          end).
  destruct (identity_line l) as [p|]; [| done].
  destruct (omap identity_line ls) as [|q qs] eqn:Hq; [done |].
  change (last (p :: q :: qs)) with (last (q :: qs)).
  destruct (last (q :: qs)) eqn:Hlast; [done |].
  by apply last_None in Hlast.
Qed.

(** X8. The identity file of an entry the lister returns is that of the
    last [IdentityFile] line of its block, with the first [~] replaced by the
    home directory; it is [null] for a block without such a line.  With a
    home directory whose name has no [$], a path [~<rest>] is recorded as
    [<home><rest>] and a path without [~] as it is. *)
Theorem getGitHubSSHKeys_identity home content :
  key_identityFile <$> parse_config home content
  = (λ b, JS.replace "~" home <$> last (identity_paths b))
      <$> filter (λ b, related b = true) (blocks (JS.split_lines content))
  ∧ (∀ rest, "$"%char ∉ JS.chars home →
       JS.replace "~" home (String "~" rest) = home +:+ rest)
  ∧ (∀ path, "~"%char ∉ JS.chars path → JS.replace "~" home path = path).
Proof.
  split; [| split; [intros; by apply replace_leading_tilde
                   | intros; by apply replace_no_tilde]].
  rewrite parse_config_blocks. rewrite <- list_fmap_compose.
  induction (blocks _) as [|b bs IH]; [done |].
  rewrite fmap_cons, !filter_cons, close_block_related.
  destruct (related b) eqn:Hb.
  - rewrite !decide_True by done. rewrite !fmap_cons, IH. f_equal.
    simpl. unfold close_block, identity_paths.
    rewrite absorb_identity_last. by destruct (last _).
  - rewrite !decide_False by done. apply IH.
Qed.

End IdentityFacts.

Section IdempotenceFacts.
Import Validation.

Lemma name_class_not_space c : name_class c = true → JS.is_white_space c = false.
Proof. by destruct c as [[] [] [] [] [] [] [] []]. Qed.

Lemma trimEnd_class s :
  JS.all_chars name_class s = true → JS.trimEnd s = s.
Proof.
  induction s as [|c s IH]; [done |]. simpl.
  intros [Hc Hs]%andb_true_iff. rewrite IH by done.
  rewrite (name_class_not_space c Hc). by destruct s.
Qed.

Lemma trim_class s : JS.all_chars name_class s = true → JS.trim s = s.
Proof.
  intros H. unfold JS.trim.
  assert (JS.trimStart s = s) as ->; [| by apply trimEnd_class].
  destruct s as [|c s]; [done |]. simpl in *.
  apply andb_true_iff in H as [Hc _]. by rewrite (name_class_not_space c Hc).
Qed.

(** X9. The validator is idempotent: a name it returns is made of the
    characters of the class [[a-zA-Z0-9._-]] only, and the validator accepts
    it and returns it again. *)
Theorem validateProjectName_idempotent name validated :
  validateProjectName name = Ok validated →
  JS.all_chars name_class validated = true
  ∧ validateGitHubName (VStr validated) = Ok validated.
Proof.
  intros H. destruct (validateProjectName_class name validated H)
    as (s & -> & Ht & Hclass).
  split; [done |].
  unfold validateGitHubName, validateProjectName in *.
  rewrite (trim_class validated Hclass). rewrite <- Ht in H.
  destruct (String.eqb s ""); [done |].
  destruct (String.eqb validated "") eqn:He.
  { apply String.eqb_eq in He. by rewrite He in H. }
  cbv zeta in H. by rewrite H.
Qed.

End IdempotenceFacts.

(** ** The fields of the configuration that is loaded *)

Section LoadFacts.
Import Config.
Context (rt : Runtime).

Lemma spread_lookup_absent (m : object) (l : list (string * value)) k :
  k ∉ l.*1 → foldl (λ o kv, <[kv.1 := kv.2]> o) m l !! k = m !! k.
Proof.
  revert m. induction l as [|[k' v'] l IH]; intros m; [done |].
  simpl. intros [Hk Hl]%not_elem_of_cons. rewrite IH by done.
  by rewrite lookup_insert_ne.
Qed.

Lemma spread_lookup_last (m : object) (l : list (string * value)) k v :
  (k, v) ∈ l → NoDup l.*1 →
  foldl (λ o kv, <[kv.1 := kv.2]> o) m l !! k = Some v.
Proof.
  revert m. induction l as [|[k' v'] l IH]; intros m Hin Hnd.
  { by apply elem_of_nil in Hin. }
  simpl in *. apply NoDup_cons in Hnd as [Hk' Hnd].
  apply elem_of_cons in Hin as [[= -> ->] | Hin].
  - rewrite spread_lookup_absent by done. by rewrite lookup_insert_eq.
  - by apply IH.
Qed.

Lemma DEFAULT_CONFIG_org : DEFAULT_CONFIG !! "defaultOrg" = Some VNull.
Proof. unfold DEFAULT_CONFIG. apply lookup_insert_eq. Qed.

Lemma DEFAULT_CONFIG_visibility :
  DEFAULT_CONFIG !! "defaultVisibility" = Some (VStr "private").
Proof.
  unfold DEFAULT_CONFIG. rewrite lookup_insert_ne by discriminate.
  apply lookup_insert_eq.
Qed.

Lemma Returned_inj {A : Type} (a b : A) : Returned a = Returned b → a = b.
Proof. by intros [= ->]. Qed.

Lemma spread_null (m : object) : spread m VNull = m.
Proof. reflexivity. Qed.

Lemma spread_keeps (m : object) (source : value) k :
  is_Some (m !! k) → is_Some (spread m source !! k).
Proof.
  unfold spread. generalize (own_properties source). intros l. revert m.
  induction l as [|[k' v'] l IH]; intros m Hk; [exact Hk |]. simpl.
  apply IH. destruct (decide (k' = k)) as [-> | Hne].
  - rewrite lookup_insert_eq. by eexists.
  - by rewrite lookup_insert_ne.
Qed.

(** What [loadConfig] returns is the defaults with the fields of the value
    that was read from the file, if one was. *)
Lemma loadConfig_spread :
  spec (loadConfig rt) (λ tr o,
    ∀ config, o = Returned config →
      ∃ userConfig,
        config = spread DEFAULT_CONFIG userConfig
        ∧ ∀ content userConfig',
            Ev (readFileSync (CONFIG_FILE rt)) (Ok content) ∈ tr →
            JSON_parse rt content = Ok userConfig' → userConfig' = userConfig).
Proof.
  unfold loadConfig. spec_run.
  all: intros cfg <-%Returned_inj; rewrite ?spread_default.
  - exists VNull. split; [by rewrite spread_null |]. intros content u Hin.
    apply elem_of_cons in Hin as [Hin | Hin]; [discriminate Hin |].
    by apply elem_of_nil in Hin.
  - eexists. split; [reflexivity |]. intros content u Hin Hu.
    apply elem_of_cons in Hin as [Hin | Hin]; [discriminate Hin |].
    apply elem_of_cons in Hin as [Hin | Hin]; [| by apply elem_of_nil in Hin].
    apply Ev_inj in Hin. congruence.
  - exists VNull. split; [by rewrite spread_null |]. intros content u Hin Hu.
    apply elem_of_cons in Hin as [Hin | Hin]; [discriminate Hin |].
    apply elem_of_cons in Hin as [Hin | Hin].
    { apply Ev_inj in Hin. congruence. }
    apply elem_of_cons in Hin as [Hin | Hin]; [discriminate Hin |].
    by apply elem_of_nil in Hin.
  - exists VNull. split; [by rewrite spread_null |]. intros content u Hin Hu.
    apply elem_of_cons in Hin as [Hin | Hin]; [discriminate Hin |].
    apply elem_of_cons in Hin as [Hin | Hin].
    { apply Ev_inj in Hin. congruence. }
    apply elem_of_cons in Hin as [Hin | Hin]; [discriminate Hin |].
    by apply elem_of_nil in Hin.
Qed.

(** X10. What [loadConfig] returns for a file that [JSON.parse] reads: the
    fields of the file, and for a name that the file does not have the
    built-in default; so the two fields of the defaults are always there. *)
Theorem loadConfig_fields tr config :
  runs (loadConfig rt) tr (Returned config) →
  is_Some (config !! "defaultOrg") ∧ is_Some (config !! "defaultVisibility")
  ∧ ∀ content userConfig,
      Ev (readFileSync (CONFIG_FILE rt)) (Ok content) ∈ tr →
      JSON_parse rt content = Ok userConfig →
      (∀ k, k ∉ (own_properties userConfig).*1 →
            config !! k = DEFAULT_CONFIG !! k)
      ∧ (NoDup (own_properties userConfig).*1 →
         ∀ k v, (k, v) ∈ own_properties userConfig → config !! k = Some v).
Proof.
  intros Hrun.
  destruct (loadConfig_spread _ _ Hrun config eq_refl) as (userConfig & -> & Hread).
  split; [apply spread_keeps; rewrite DEFAULT_CONFIG_org; by eexists |].
  split; [apply spread_keeps; rewrite DEFAULT_CONFIG_visibility; by eexists |].
  intros content userConfig' Hin Hparse.
  rewrite (Hread content userConfig' Hin Hparse). split.
  - intros k Hk. by apply spread_lookup_absent.
  - intros Hnd k v Hkv. by apply spread_lookup_last.
Qed.

End LoadFacts.

(** ** The prompt for the SSH key; the organisations of the user *)

Section PromptFacts.
Import Init.
Context (rt : Runtime).

Lemma read_in_trace path content (r : bool) (a : result string) tr' :
  Ev (readFileSync path) (Ok content) ∈ Ev (existsSync path) r :: Ev (readFileSync path) a :: tr' →
  (∀ c' r', Ev c' r' ∈ tr' → ∀ p, c' ≠ readFileSync p) →
  a = Ok content.
Proof.
  intros Hin Hno.
  apply elem_of_cons in Hin as [Hin | Hin]; [discriminate Hin |].
  apply elem_of_cons in Hin as [Hin | Hin]; [by apply Ev_inj in Hin |].
  by destruct (Hno _ _ Hin path).
Qed.

(** X11. The choice of the SSH key in step 7.  Without a configuration file
    nothing is read and no key is chosen.  With a configuration that has at
    most one GitHub key there is no prompt, and the identity file of the key,
    if there is one, is chosen.  With more keys the user is asked once, with
    one choice for each key, in the order of the file, whose value is the
    identity file of the key; the answer is what is chosen, and a prompt that
    fails ends the step with its exception. *)
Theorem select_identity_prompt tr o :
  runs (select_identity rt) tr o →
  (Ev (existsSync (SshIO.SSH_CONFIG_PATH rt)) false ∈ tr →
     o = Returned None ∧ length tr = 1)
  ∧ ∀ content,
      Ev (readFileSync (SshIO.SSH_CONFIG_PATH rt)) (Ok content) ∈ tr →
      let keys := Ssh.parse_config (homedir rt) content in
      (length keys ≤ 1 →
         o = Returned (head keys ≫= Ssh.key_identityFile)
         ∧ Forall (λ c, ∀ message choices, c ≠ select message choices) (calls tr))
      ∧ (1 < length keys →
         ∃ answer,
           Ev (select "Select SSH key to use for push:" (choice_of <$> keys)) answer
             ∈ tr
           ∧ o = match answer with
                 | Ok selected => Returned selected
                 | Error e => Thrown e
                 end).
Proof.
  revert tr o. change (spec (select_identity rt) (λ tr o,
    (Ev (existsSync (SshIO.SSH_CONFIG_PATH rt)) false ∈ tr →
       o = Returned None ∧ length tr = 1)
    ∧ ∀ content,
        Ev (readFileSync (SshIO.SSH_CONFIG_PATH rt)) (Ok content) ∈ tr →
        let keys := Ssh.parse_config (homedir rt) content in
        (length keys ≤ 1 →
           o = Returned (head keys ≫= Ssh.key_identityFile)
           ∧ Forall (λ c, ∀ message choices, c ≠ select message choices) (calls tr))
        ∧ (1 < length keys →
           ∃ answer,
             Ev (select "Select SSH key to use for push:" (choice_of <$> keys)) answer
               ∈ tr
             ∧ o = match answer with
                   | Ok selected => Returned selected
                   | Error e => Thrown e
                   end))).
  unfold select_identity, SshIO.getGitHubSSHKeys. spec_run.
  all: repeat match goal with r : Resp (existsSync _) |- _ => destruct r end;
    try done.
  all: repeat match goal with r : unit |- _ => destruct r end.
  all: repeat match goal with
         | H : (_ <? _)%nat = true |- _ => apply Nat.ltb_lt in H
         | H : (_ <? _)%nat = false |- _ => apply Nat.ltb_ge in H
         | H : (_ =? _)%nat = true |- _ => apply Nat.eqb_eq in H
         | H : (_ =? _)%nat = false |- _ => apply Nat.eqb_neq in H
         end.
  all: split;
    [ intros Hin; try (split; reflexivity);
      repeat (apply elem_of_cons in Hin as [Hin | Hin];
              [try discriminate Hin; by apply Ev_inj in Hin |]);
      by apply elem_of_nil in Hin
    | intros content Hin ].
  all: try (apply elem_of_cons in Hin as [Hin | Hin]; [discriminate Hin |];
            by apply elem_of_nil in Hin).
  all: apply read_in_trace in Hin;
    [| intros c' r' Hc' p ->;
       repeat (apply elem_of_cons in Hc' as [Hc' | Hc']; [discriminate Hc' |]);
       by apply elem_of_nil in Hc' ].
  all: try discriminate Hin.
  all: injection Hin as ->; cbv zeta.
  all: split; intros Hlen; try lia.
  all: try (split; [| by repeat constructor]).
  all: try (eexists; split;
            [ repeat first [apply list_elem_of_here | apply list_elem_of_further]
            | reflexivity ]).
  all: destruct (Ssh.parse_config _ _) as [|key [|key' keys]]; simpl in *;
    try done; lia.
Qed.

End PromptFacts.

Section OrganizationsFacts.
Import Github.

Lemma split_lines_no_newline s :
  Forall (λ line, "010"%char ∉ JS.chars line) (JS.split_lines s).
Proof.
  induction s as [|c s IH]; simpl.
  - repeat constructor. by intros ?%elem_of_nil.
  - case_decide as Hc.
    + constructor; [by intros ?%elem_of_nil | done].
    + destruct (JS.split_lines s) as [|l ls]; inversion IH; subst.
      * repeat constructor. unfold JS.chars. simpl.
        intros [?|?%elem_of_nil]%elem_of_cons; done.
      * constructor; [| done]. unfold JS.chars in *. simpl.
        intros [?|?]%elem_of_cons; done.
Qed.

(** X12. [getOrganizations] never fails its caller: when [gh] fails it
    returns the empty list.  It starts one child process, and the names it
    returns are the lines of the trimmed output that are not empty, in
    order: no name is empty and none spans a line break. *)
Theorem getOrganizations_lines tr o :
  runs getOrganizations tr o →
  ∃ answer,
    tr = [Ev (execSync ("gh api user/orgs --jq " +:+ JS.quoted ".[].login") None) answer]
    ∧ match answer with
      | Ok out =>
          ∃ names,
            o = Returned names
            ∧ names = filter (λ s, s ≠ "") (JS.split_lines (JS.trim out))
            ∧ Forall (λ s, s ≠ "" ∧ "010"%char ∉ JS.chars s) names
      | Error _ => o = Returned []
      end.
Proof.
  revert tr o.
  change (spec getOrganizations (λ tr o,
    ∃ answer,
      tr = [Ev (execSync ("gh api user/orgs --jq " +:+ JS.quoted ".[].login") None)
              answer]
      ∧ match answer with
        | Ok out =>
            ∃ names,
              o = Returned names
              ∧ names = filter (λ s, s ≠ "") (JS.split_lines (JS.trim out))
              ∧ Forall (λ s, s ≠ "" ∧ "010"%char ∉ JS.chars s) names
        | Error _ => o = Returned []
        end)).
  unfold getOrganizations, Github.exec. spec_run.
  - eexists (Ok _). split; [reflexivity |]. eexists. split; [reflexivity |].
    assert (∀ l : list string,
              filter (λ s, JS.truthy (VStr s) = true) l = filter (λ s, s ≠ "") l)
      as Hfilter.
    { intros l. apply list_filter_iff. intros s. simpl.
      rewrite negb_true_iff. by rewrite String.eqb_neq. }
    split; [apply Hfilter |]. rewrite Hfilter.
    apply Forall_forall. intros s [Hs Hin]%list_elem_of_filter. split; [done |].
    by eapply Forall_forall in Hin; [| apply split_lines_no_newline].
  - by eexists (Error _).
Qed.

End OrganizationsFacts.

(** ** The [config] command: showing, and failing to save *)

Section RunBind.
Context {S A B : Type} (h : ∀ c : Cmd, S → Resp c * S).

(** The interpreter on a sequence. *)
Lemma run_bind (p : Prog A) (f : A → Prog B) (s : S) :
  run h (p ≫= f) s
  = match run h p s with
    | (Returned a, tr, s1) =>
        let '(o, tr2, s2) := run h (f a) s1 in (o, tr ++ tr2, s2)
    | (Thrown e, tr, s1) => (Thrown e, tr, s1)
    | (Exited n, tr, s1) => (Exited n, tr, s1)
    end.
Proof.
  change (p ≫= f) with (bind p f).
  revert s. induction p as [a|e|n|c k IH]; intros s; simpl.
  - by destruct (run h (f a) s) as [[o tr] s2].
  - done.
  - done.
  - destruct (h c s) as [r s1]. rewrite IH.
    destruct (run h (k r) s1) as [[[a|e|n] tr] s2]; [| done..].
    by destruct (run h (f a) s2) as [[o tr2] s3].
Qed.

End RunBind.

Section ConfigCommand.
Import Config Cli ConfigSpec.
Context (rt : Runtime).

Lemma show_config_no_action config :
  always (λ c, is_action c = false) (show_config rt config).
Proof. unfold show_config. always_run; reflexivity. Qed.

Lemma show_config_returns config :
  spec (show_config rt config) (λ tr o,
    o = Returned tt
    ∧ Ev (console_log
            ("  Default org:        " +:+
             (if JS.truthy (get config "defaultOrg")
              then JS.to_string (get config "defaultOrg")
              else "(personal account)"))) tt ∈ tr
    ∧ Ev (console_log
            ("  Default visibility: " +:+
             JS.to_string (get config "defaultVisibility"))) tt ∈ tr).
Proof.
  unfold show_config, configExists. spec_run.
  repeat match goal with r : Resp _ |- _ => destruct r end.
  all: split; [reflexivity |].
  all: split; repeat first [apply list_elem_of_here | apply list_elem_of_further].
Qed.

(** X13. [config --show], and [config] without an organisation and a
    visibility, only shows: the command loads the configuration, prints its
    organisation, or [(personal account)] for none, and its visibility, and
    returns; it starts no child process and writes nothing, whatever the
    other options are. *)
Theorem config_show_only options tr o :
  runs (configAction rt options) tr o →
  cfg_show options = true
  ∨ (given (cfg_org options) = false ∧ given (cfg_visibility options) = false) →
  o = Returned tt
  ∧ actions tr = []
  ∧ ∃ config trl trs,
      tr = trl ++ trs
      ∧ runs (loadConfig rt) trl (Returned config)
      ∧ Ev (console_log
              ("  Default org:        " +:+
               (if JS.truthy (get config "defaultOrg")
                then JS.to_string (get config "defaultOrg")
                else "(personal account)"))) tt ∈ trs
      ∧ Ev (console_log
              ("  Default visibility: " +:+
               JS.to_string (get config "defaultVisibility"))) tt ∈ trs.
Proof.
  intros Hrun Hshow. unfold configAction in Hrun.
  apply runs_bind in Hrun
    as [(config & trl & trs & Hl & Hrun & ->) | [(e & Hl & _) | (n & Hl & _)]];
    [| by apply (runs_load rt) in Hl as [? ?] ..].
  assert (cfg_show options
          || negb (given (cfg_org options)) && negb (given (cfg_visibility options))
          = true) as Hb.
  { destruct Hshow as [-> | [-> ->]]; [done | by rewrite orb_true_r]. }
  rewrite Hb in Hrun.
  pose proof (show_config_returns config _ _ Hrun) as (-> & Horg & Hvis).
  split; [done |]. split.
  - rewrite actions_app, !no_action_actions; [done | |].
    + by apply show_config_no_action in Hrun.
    + by apply (loadConfig_no_action rt) in Hl.
  - by exists config, trl, trs.
Qed.

Lemma no_action_no_write_event tr path text r :
  Forall (λ c, is_action c = false) (calls tr) →
  Ev (writeFileSync path text) r ∉ tr.
Proof.
  intros Hall Hin. apply (list_elem_of_fmap_2 cmd_of) in Hin.
  change (cmd_of <$> tr) with (calls tr) in Hin.
  by eapply Forall_forall in Hall; [| exact Hin].
Qed.

Lemma update_org_no_action options config :
  always (λ c, is_action c = false) (update_org options config).
Proof.
  unfold update_org. always_run; try reflexivity.
  all: case_decide; always_run; reflexivity.
Qed.

Lemma update_visibility_no_action options config :
  always (λ c, is_action c = false) (update_visibility options config).
Proof. unfold update_visibility. always_run; reflexivity. Qed.

Lemma saveConfig_cases config :
  spec (saveConfig rt config) (λ tr o,
    ∃ r, tr = [Ev (writeFileSync (CONFIG_FILE rt)
                     (JSON_stringify rt (to_value config))) r]
         ∧ o = match r with
               | Ok _ => Returned tt
               | Error message => Thrown ("Failed to save config: " +:+ message)
               end).
Proof.
  unfold saveConfig. spec_run.
  - exists (Ok a). by destruct a.
  - by eexists (Error _).
Qed.

(** X14. When the write of the preferences file fails, [config] ends with
    the exception [Failed to save config: <message>]: the failure is not
    turned into an exit status by the command. *)
Theorem config_save_fails options tr o text message :
  runs (configAction rt options) tr o →
  Ev (writeFileSync (CONFIG_FILE rt) text) (Error message) ∈ tr →
  o = Thrown ("Failed to save config: " +:+ message).
Proof.
  intros Hrun Hin. unfold configAction in Hrun.
  apply runs_bind in Hrun
    as [(config & trl & trs & Hl & Hrun & ->) | [(e & Hl & _) | (n & Hl & _)]];
    [| by apply (runs_load rt) in Hl as [? ?] ..].
  apply elem_of_app in Hin as [Hin | Hin].
  { by apply no_action_no_write_event in Hin;
      [| by apply (loadConfig_no_action rt) in Hl]. }
  destruct (_ || _).
  { by apply no_action_no_write_event in Hin;
      [| by apply show_config_no_action in Hrun]. }
  apply runs_bind in Hrun
    as [(c1 & tr1 & tr2 & H1 & Hrun & ->) | [(e & H1 & _) | (n & H1 & _)]].
  2,3: by apply no_action_no_write_event in Hin;
    [| by apply update_org_no_action in H1].
  apply elem_of_app in Hin as [Hin | Hin].
  { by apply no_action_no_write_event in Hin;
      [| by apply update_org_no_action in H1]. }
  apply runs_bind in Hrun
    as [(c2 & tr3 & tr4 & H2 & Hrun & ->) | [(e & H2 & _) | (n & H2 & _)]].
  2,3: by apply no_action_no_write_event in Hin;
    [| by apply update_visibility_no_action in H2].
  apply elem_of_app in Hin as [Hin | Hin].
  { by apply no_action_no_write_event in Hin;
      [| by apply update_visibility_no_action in H2]. }
  apply saveConfig_cases in Hrun as (r & -> & ->).
  apply elem_of_cons in Hin as [Hin | Hin]; [| by apply elem_of_nil in Hin].
  assert (text = JSON_stringify rt (to_value c2)) as -> by congruence.
  by apply Ev_inj in Hin as <-.
Qed.

End ConfigCommand.

(** ** The [config] command, then loading *)

Section ConfigRoundTrip.
Import Config Cli ConfigSpec UpdateSpec.
Context (rt : Runtime).

Lemma valid_DEFAULT_CONFIG : valid_preferences DEFAULT_CONFIG.
Proof.
  intros k v. unfold DEFAULT_CONFIG.
  intros [[<- <-] | [_ [[<- <-] | [_ H]]%lookup_insert_Some]]%lookup_insert_Some.
  - left. eauto.
  - right. eauto.
  - by rewrite lookup_empty in H.
Qed.

Lemma valid_merge p : valid_preferences p → valid_preferences (merge DEFAULT_CONFIG p).
Proof.
  intros Hp k v. unfold merge.
  intros [H | [_ H]]%lookup_union_Some_raw; [by apply Hp | by apply valid_DEFAULT_CONFIG].
Qed.

Lemma merge_has_defaults p k :
  is_Some (DEFAULT_CONFIG !! k) → is_Some (merge DEFAULT_CONFIG p !! k).
Proof.
  intros [v Hv]. unfold merge. rewrite lookup_union.
  destruct (p !! k); rewrite ?Hv; by eexists.
Qed.

Lemma run_load_absent w :
  files w !! CONFIG_FILE rt = None →
  ∃ tr, run world (loadConfig rt) w = (Returned DEFAULT_CONFIG, tr, w).
Proof.
  intros Hfile. unfold loadConfig. cbn -[spread]. rewrite Hfile.
  destruct (bool_decide _); cbn -[spread]; rewrite ?Hfile; cbn -[spread];
    rewrite spread_default; by eexists.
Qed.

Lemma run_load_stored w p :
  JSON_round_trip rt → valid_preferences p →
  files w !! CONFIG_FILE rt = Some (JSON_stringify rt (to_value p)) →
  ∃ tr, run world (loadConfig rt) w = (Returned (merge DEFAULT_CONFIG p), tr, w).
Proof.
  intros Hjson Hp Hfile. unfold loadConfig. cbn -[spread]. rewrite Hfile.
  rewrite bool_decide_eq_true_2 by (left; by eexists).
  cbn -[spread]. rewrite Hfile. cbn -[spread].
  rewrite Hjson by done. cbn -[spread].
  rewrite spread_default, spread_to_value. by eexists.
Qed.

(** Loading in a world whose preferences file is valid. *)
Lemma run_load_valid w :
  JSON_round_trip rt → stored_valid rt w →
  ∃ config tr,
    run world (loadConfig rt) w = (Returned config, tr, w)
    ∧ valid_preferences config
    ∧ is_Some (config !! "defaultOrg") ∧ is_Some (config !! "defaultVisibility").
Proof.
  intros Hjson [Hfile | (p & Hp & Hfile)].
  - destruct (run_load_absent w Hfile) as [tr Hrun].
    exists DEFAULT_CONFIG, tr. split; [done |].
    split; [apply valid_DEFAULT_CONFIG |].
    rewrite DEFAULT_CONFIG_org, DEFAULT_CONFIG_visibility. split; by eexists.
  - destruct (run_load_stored w p Hjson Hp Hfile) as [tr Hrun].
    exists (merge DEFAULT_CONFIG p), tr. split; [done |].
    split; [by apply valid_merge |].
    split; apply merge_has_defaults;
      rewrite ?DEFAULT_CONFIG_org, ?DEFAULT_CONFIG_visibility; by eexists.
Qed.

Lemma run_update_org options config w :
  ∃ tr,
    run world (update_org options config) w
    = (Returned (match cfg_org options with
                 | Some org =>
                     if given (Some org) then <["defaultOrg" := org_value org]> config
                     else config
                 | None => config
                 end), tr, w).
Proof.
  unfold update_org, given, org_value.
  destruct (cfg_org options) as [org|]; [| by eexists].
  destruct (JS.truthy (VStr org)); [| by eexists].
  case_decide; by eexists.
Qed.

Lemma run_update_visibility options config w :
  (∀ v, cfg_visibility options = Some v → v = "" ∨ v = "public" ∨ v = "private") →
  ∃ tr,
    run world (update_visibility options config) w
    = (Returned (match cfg_visibility options with
                 | Some visibility =>
                     if given (Some visibility)
                     then <["defaultVisibility" := VStr visibility]> config
                     else config
                 | None => config
                 end), tr, w).
Proof.
  intros Hvalid. unfold update_visibility, given.
  destruct (cfg_visibility options) as [v|]; [| by eexists].
  destruct (Hvalid v eq_refl) as [-> | [-> | ->]]; by eexists.
Qed.

Lemma valid_updated options config :
  valid_preferences config →
  (∀ v, cfg_visibility options = Some v → v = "" ∨ v = "public" ∨ v = "private") →
  valid_preferences (updated options config).
Proof.
  intros Hc Hvalid. unfold updated. cbv zeta.
  assert (valid_preferences
            (match cfg_org options with
             | Some org =>
                 if given (Some org) then <["defaultOrg" := org_value org]> config
                 else config
             | None => config
             end)) as Hc'.
  { destruct (cfg_org options) as [org|]; [| done].
    destruct (given _); [| done].
    intros k v [[<- <-] | [_ H]]%lookup_insert_Some; [| by apply Hc].
    left. split; [done |]. unfold org_value. case_decide; eauto. }
  destruct (cfg_visibility options) as [v|]; [| done].
  destruct (given (Some v)) eqn:Hg; [| done].
  intros k x [[<- <-] | [_ H]]%lookup_insert_Some; [| by apply Hc'].
  right. split; [done |].
  destruct (Hvalid v eq_refl) as [-> | [-> | ->]]; [done | eauto..].
Qed.

Lemma updated_has_defaults options config k :
  is_Some (config !! k) → is_Some (updated options config !! k).
Proof.
  intros Hk. unfold updated. cbv zeta.
  assert (is_Some
            (match cfg_org options with
             | Some org =>
                 if given (Some org) then <["defaultOrg" := org_value org]> config
                 else config
             | None => config
             end !! k)) as Hk'.
  { destruct (cfg_org options) as [org|]; [| done].
    destruct (given _); [| done].
    destruct (decide ("defaultOrg" = k)) as [<- |];
      [rewrite lookup_insert_eq; by eexists | by rewrite lookup_insert_ne]. }
  destruct (cfg_visibility options) as [v|]; [| done].
  destruct (given _); [| done].
  destruct (decide ("defaultVisibility" = k)) as [<- |];
    [rewrite lookup_insert_eq; by eexists | by rewrite lookup_insert_ne].
Qed.

Lemma get_insert (config : object) k v : get (<[k := v]> config) k = v.
Proof. unfold get. by rewrite lookup_insert_eq. Qed.

Lemma get_insert_ne (config : object) k k' v :
  k ≠ k' → get (<[k := v]> config) k' = get config k'.
Proof. intros Hk. unfold get. by rewrite lookup_insert_ne. Qed.

Lemma given_nonempty s : s ≠ "" → given (Some s) = true.
Proof. by destruct s. Qed.

Lemma get_updated_org options config org :
  cfg_org options = Some org → org ≠ "" →
  get (updated options config) "defaultOrg" = org_value org.
Proof.
  intros Horg Hne. unfold updated. rewrite Horg, (given_nonempty org Hne).
  cbv zeta. destruct (cfg_visibility options) as [v|]; [destruct (given (Some v)) |];
    rewrite ?get_insert_ne by discriminate; apply get_insert.
Qed.

Lemma get_updated_org_none options config :
  given (cfg_org options) = false →
  get (updated options config) "defaultOrg" = get config "defaultOrg".
Proof.
  intros Hnone. unfold updated.
  assert (match cfg_org options with
          | Some org =>
              if given (Some org) then <["defaultOrg" := org_value org]> config
              else config
          | None => config
          end = config) as ->.
  { destruct (cfg_org options); [by rewrite Hnone | done]. }
  cbv zeta. destruct (cfg_visibility options) as [v|]; [destruct (given (Some v)) |];
    by rewrite ?get_insert_ne by discriminate.
Qed.

Lemma get_updated_visibility options config v :
  cfg_visibility options = Some v → v ≠ "" →
  get (updated options config) "defaultVisibility" = VStr v.
Proof.
  intros Hvis Hne. unfold updated. rewrite Hvis, (given_nonempty v Hne).
  cbv zeta. apply get_insert.
Qed.

Lemma get_updated_visibility_none options config :
  given (cfg_visibility options) = false →
  get (updated options config) "defaultVisibility" = get config "defaultVisibility".
Proof.
  intros Hnone. unfold updated. cbv zeta.
  destruct (cfg_visibility options) as [v|]; [rewrite Hnone |];
    (destruct (cfg_org options) as [org|]; [destruct (given (Some org)) |];
     by rewrite ?get_insert_ne by discriminate).
Qed.

(** X15. [config] sets what it is given and keeps the rest.  In a world
    whose preferences file is absent or valid and can be written, and whose
    [JSON] reads back what it writes: a [config] command without [--show],
    with an organisation or a visibility, the visibility being [public] or
    [private], returns; and loading afterwards returns a configuration
    whose organisation is the one given, none for [personal], or the one
    loaded before if none is given, and whose visibility is the one given,
    or the one loaded before. *)
Theorem config_then_load options w :
  JSON_round_trip rt →
  stored_valid rt w →
  CONFIG_FILE rt ∉ locked w →
  cfg_show options = false →
  given (cfg_org options) || given (cfg_visibility options) = true →
  (∀ v, cfg_visibility options = Some v → v = "" ∨ v = "public" ∨ v = "private") →
  ∃ before after,
    (run world (loadConfig rt) w).1.1 = Returned before
    ∧ (run world (configAction rt options) w).1.1 = Returned tt
    ∧ (run world (loadConfig rt) (run world (configAction rt options) w).2).1.1
      = Returned after
    ∧ (∀ org, cfg_org options = Some org → org ≠ "" →
         get after "defaultOrg" = org_value org)
    ∧ (given (cfg_org options) = false →
         get after "defaultOrg" = get before "defaultOrg")
    ∧ (∀ v, cfg_visibility options = Some v → v ≠ "" →
         get after "defaultVisibility" = VStr v)
    ∧ (given (cfg_visibility options) = false →
         get after "defaultVisibility" = get before "defaultVisibility").
Proof.
  intros Hjson Hstored Hfree Hshow Hgiven Hvalid.
  destruct (run_load_valid w Hjson Hstored) as (c0 & tr0 & Hload & Hc0 & Horg0 & Hvis0).
  destruct (run_update_org options c0 w) as [tr1 Hrun1].
  destruct (run_update_visibility options
              (match cfg_org options with
               | Some org =>
                   if given (Some org) then <["defaultOrg" := org_value org]> c0
                   else c0
               | None => c0
               end) w Hvalid) as [tr2 Hrun2].
  fold (updated options c0) in Hrun2.
  set (text := JSON_stringify rt (to_value (updated options c0))) in *.
  assert (run world (configAction rt options) w
          = (Returned tt,
             tr0 ++ tr1 ++ tr2 ++ [Ev (writeFileSync (CONFIG_FILE rt) text) (Ok tt)],
             set_files w (<[CONFIG_FILE rt := text]> (files w)))) as Hrun.
  { unfold configAction. rewrite run_bind, Hload. rewrite Hshow.
    assert (negb (given (cfg_org options)) && negb (given (cfg_visibility options))
            = false) as ->.
    { by destruct (given (cfg_org options)), (given (cfg_visibility options)). }
    cbn [orb]. rewrite run_bind, Hrun1. rewrite run_bind, Hrun2.
    unfold saveConfig. cbn. rewrite decide_False by done. done. }
  assert (valid_preferences (updated options c0)) as Hc1 by (by apply valid_updated).
  destruct (run_load_stored (set_files w (<[CONFIG_FILE rt := text]> (files w)))
              (updated options c0) Hjson Hc1) as [tr3 Hafter].
  { cbn. apply lookup_insert_eq. }
  exists c0, (merge DEFAULT_CONFIG (updated options c0)).
  rewrite Hload, Hrun. cbn [fst snd]. rewrite Hafter. cbn [fst snd].
  split; [done |]. split; [done |]. split; [done |].
  assert (∀ k, is_Some (c0 !! k) →
               get (merge DEFAULT_CONFIG (updated options c0)) k
               = get (updated options c0) k) as Hget.
  { intros k Hk. rewrite get_merge. unfold get.
    by destruct (updated_has_defaults options c0 k Hk) as [v ->]. }
  rewrite !Hget by done.
  split; [intros org Horg Hne; by apply get_updated_org |].
  split; [by apply get_updated_org_none |].
  split; [intros v Hv Hne; by apply get_updated_visibility |].
  by apply get_updated_visibility_none.
Qed.

End ConfigRoundTrip.

(** ** What the commands leave alone *)

Section FrameFacts.
Import Init InitSpec FrameSpec.
Context (rt : Runtime).

Lemma always_bind_returned {A B : Type} P (R : A → Prop) (p : Prog A) (f : A → Prog B) :
  always P p → spec p (λ _ o, ∀ a, o = Returned a → R a) →
  (∀ a, R a → always P (f a)) → always P (p ≫= f).
Proof.
  intros Hp HR Hf tr o Hrun.
  apply runs_bind in Hrun
    as [(a & tr1 & tr2 & H1 & H2 & ->) | [(e & H1 & ->) | (n & H1 & ->)]].
  - rewrite calls_app. apply Forall_app. split; [by apply Hp in H1 |].
    apply (Hf a (HR _ _ H1 a eq_refl) _ _ H2).
  - by apply Hp in H1.
  - by apply Hp in H1.
Qed.

Ltac within_leaf :=
  lazymatch goal with
  | |- within _ _ _ (writeFileSync _ _) => split; reflexivity
  | |- within _ _ _ (mkdirSync _) => reflexivity
  | |- within _ _ _ (execSync _ (Some _)) => reflexivity
  | |- within _ _ _ _ => exact I
  end.

(** X16. A run of [init] stays within the project.  With [dir] the target
    directory (the working directory with [--here], else the directory of
    the trimmed name inside it): the only directory it creates is [dir], the
    only file it writes is the README of [dir], with the title of the
    trimmed name, and every child process that is given a working directory,
    so every [git] command, runs in [dir]. *)
Theorem init_within name options tr o :
  runs (initCommand rt name options) tr o →
  Forall (within rt (target_dir rt options (JS.trim name)) (JS.trim name)) (calls tr).
Proof.
  revert tr o.
  change (always (within rt (target_dir rt options (JS.trim name)) (JS.trim name))
            (initCommand rt name options)).
  unfold initCommand.
  apply always_bind; [always_run; within_leaf | intros config].
  apply (always_bind_returned _ (λ validated, validated = JS.trim name)).
  - always_run; within_leaf.
  - intros tr o Hrun a ->.
    apply validate_name_spec in Hrun as (_ & _ & [[= ->] | [=]]). done.
  - intros validated ->. always_run; within_leaf.
Qed.

Ltac preferences_leaf :=
  lazymatch goal with
  | |- preferences_only _ (writeFileSync _ _) => reflexivity
  | |- preferences_only _ _ => exact I
  end.

(** X17. The [config] command touches the preferences file only: it starts
    no child process, creates no directory, and a file it writes is the
    preferences file. *)
Theorem config_preferences_only options tr o :
  runs (Cli.configAction rt options) tr o →
  Forall (preferences_only rt) (calls tr).
Proof.
  revert tr o.
  change (always (preferences_only rt) (Cli.configAction rt options)).
  unfold Cli.configAction, Cli.show_config, Cli.update_org, Cli.update_visibility.
  always_run; preferences_leaf.
Qed.

End FrameFacts.

(** ** The theorems at concrete inputs *)

(** The theorem for [init "my project"]. *)
Lemma init_invalid_name_witness :
  let r := run world (Init.initCommand node "my project" Examples.init_plain)
             Examples.fresh in
  r.1.1 = Exited 1
  ∧ last r.1.2
    = Some (Ev (console_error
                  (nl +:+ "Error: " +:+
                   "Project name can only contain letters, numbers, hyphens, underscores, and periods"))
              tt)
  ∧ actions r.1.2 = [].
Proof.
  intros r.
  apply (init_invalid_name node "my project" Examples.init_plain _ r.1.2 r.1.1);
    [apply run_runs | reflexivity].
Defined.

(** The theorem for [init demo --org "my org"]. *)
Lemma init_invalid_org_witness :
  let r := run world (Init.initCommand node "demo" MoreExamples.init_bad_org)
             Examples.fresh in
  r.1.1 = Exited 1 ∧ actions r.1.2 = [].
Proof.
  intros r.
  destruct (init_invalid_org node "demo" MoreExamples.init_bad_org "demo" r.1.2 r.1.1)
    as (config & tr0 & _ & _ & H); [apply run_runs | reflexivity |].
  destruct (H "Project name can only contain letters, numbers, hyphens, underscores, and periods")
    as (Ho & _ & Ha); [reflexivity | reflexivity |].
  split; [exact Ho | exact Ha].
Defined.

(** The theorem on a machine without [gh]. *)
Lemma init_preflight_gate_witness :
  let r := run world (Init.initCommand node "demo" Examples.init_plain)
             MoreExamples.without_gh in
  r.1.1 = Exited 1 ∧ effects r.1.2 = []
  ∧ Forall (λ c, is_write c = false) (calls r.1.2).
Proof.
  intros r.
  destruct (init_preflight_gate node "demo" Examples.init_plain r.1.2 r.1.1)
    as [Hfailed Hgate]; [apply run_runs |].
  apply Hgate, Hfailed. vm_compute. reflexivity.
Defined.

(** The theorem for [init demo] where [/work/demo] is there already. *)
Lemma init_directory_exists_witness :
  let r := run world (Init.initCommand node "demo" Examples.init_plain)
             MoreExamples.with_directory in
  r.1.1 = Exited 1 ∧ effects r.1.2 = [].
Proof.
  intros r.
  assert (InitSpec.preflight_passed ∈ r.1.2) as Hpassed.
  { vm_compute. repeat first [apply list_elem_of_here | apply list_elem_of_further]. }
  assert (∀ b, Ev (existsSync (resolve node (cwd node) (JS.trim "demo"))) b ∈ r.1.2
               → b = true) as Hdir.
  { clear. intros b Hb. vm_compute in Hb.
    repeat (apply elem_of_cons in Hb as [Hb | Hb];
            [try discriminate Hb; by apply Ev_inj in Hb |]).
    by apply elem_of_nil in Hb. }
  assert (runs (Init.initCommand node "demo" Examples.init_plain) r.1.2 r.1.1)
    as Hrun.
  { apply run_runs. }
  pose proof (init_directory_exists node "demo" Examples.init_plain r.1.2 r.1.1
                Hrun eq_refl Hpassed Hdir) as (Ho & _ & He & _).
  split; [exact Ho | exact He].
Defined.


(** The theorem for [init demo] on a machine where everything succeeds. *)
Lemma init_commands_plain_witness :
  let r := run world (Init.initCommand node "demo" Examples.init_plain)
             Examples.fresh in
  Forall plain_command (calls r.1.2).
Proof.
  intros r.
  apply (init_commands_plain node "demo" Examples.init_plain r.1.2 r.1.1);
    [apply run_runs |].
  apply forallb_Forall. vm_compute. reflexivity.
Defined.

(** The theorem for a user who closes the prompt for the key. *)
Lemma init_throws_late_witness :
  let r := run world (Init.initCommand node "demo" Examples.init_plain)
             MoreExamples.with_two_identities in
  r.1.1 = Thrown "User force closed the prompt"
  ∧ InitNotions.remote_set_up ∈ r.1.2.
Proof.
  intros r.
  assert (r.1.1 = Thrown "User force closed the prompt") as Ho
    by (vm_compute; reflexivity).
  split; [exact Ho |].
  assert (runs (Init.initCommand node "demo" Examples.init_plain) r.1.2 r.1.1)
    as Hrun.
  { apply run_runs. }
  exact (proj1 (init_throws_late node "demo" Examples.init_plain r.1.2 r.1.1 _
                  Hrun Ho)).
Defined.

(** The theorem at the home directory [/home/u]. *)
Lemma getGitHubSSHKeys_identity_witness :
  JS.replace "~" "/home/u" "~/.ssh/work" = "/home/u" +:+ "/.ssh/work"
  ∧ JS.replace "~" "/home/u" "/keys/work" = "/keys/work".
Proof.
  destruct (getGitHubSSHKeys_identity "/home/u" SshSpec.example_config)
    as (_ & Htilde & Hplain).
  split.
  - apply Htilde. vm_compute.
    intros H. by repeat (apply elem_of_cons in H as [H|H]; [discriminate H |]);
      apply elem_of_nil in H.
  - apply Hplain. vm_compute.
    intros H. by repeat (apply elem_of_cons in H as [H|H]; [discriminate H |]);
      apply elem_of_nil in H.
Defined.

(** The theorem for a name given with white space around it. *)
Lemma validateProjectName_idempotent_witness :
  Validation.validateGitHubName (VStr "demo") = Ok "demo".
Proof.
  apply (validateProjectName_idempotent (VStr " demo ") "demo"). reflexivity.
Defined.

(** The theorem for a file that sets the organisation only. *)
Lemma loadConfig_fields_witness :
  let r := run world (Config.loadConfig node) MoreExamples.with_preferences in
  ∃ config,
    r.1.1 = Returned config
    ∧ config !! "defaultOrg" = Some (VStr "acme")
    ∧ config !! "defaultVisibility" = Some (VStr "private").
Proof.
  intros r.
  assert (runs (Config.loadConfig node) r.1.2 r.1.1) as Hrun by apply run_runs.
  destruct (runs_load node _ _ Hrun) as [config Hconfig].
  exists config. split; [exact Hconfig |].
  rewrite Hconfig in Hrun.
  destruct (loadConfig_fields node r.1.2 config Hrun) as (_ & _ & Hfields).
  destruct (Hfields (Json.stringify (VObj [("defaultOrg", VStr "acme")]))
              (VObj [("defaultOrg", VStr "acme")])) as [Habsent Hgiven].
  { vm_compute. repeat first [apply list_elem_of_here | apply list_elem_of_further]. }
  { vm_compute. reflexivity. }
  split.
  - apply Hgiven; [repeat constructor; by intros ?%elem_of_nil |].
    apply list_elem_of_here.
  - rewrite Habsent; [apply DEFAULT_CONFIG_visibility |].
    simpl. intros [H | H%elem_of_nil]%elem_of_cons; [discriminate H | done].
Defined.

(** The theorem on a machine with one GitHub identity. *)
Lemma select_identity_prompt_witness :
  let r := run world (Init.select_identity node) Examples.with_identity in
  r.1.1 = Returned (Some "/home/user/.ssh/work")
  ∧ Forall (λ c, ∀ message choices, c ≠ select message choices) (calls r.1.2).
Proof.
  intros r.
  assert (runs (Init.select_identity node) r.1.2 r.1.1) as Hrun by apply run_runs.
  destruct (select_identity_prompt node r.1.2 r.1.1 Hrun) as [_ Hread].
  destruct (Hread ("Host github.com-work" +:+ nl +:+
                   "  IdentityFile ~/.ssh/work" +:+ nl)) as [Hone _].
  { vm_compute. repeat first [apply list_elem_of_here | apply list_elem_of_further]. }
  destruct Hone as [Ho Hno]; [vm_compute; lia |].
  split; [| exact Hno]. rewrite Ho. vm_compute. reflexivity.
Defined.

(** The theorem for a user of two organisations. *)
Lemma getOrganizations_lines_witness :
  let r := run world Github.getOrganizations MoreExamples.with_organizations in
  r.1.1 = Returned ["acme"; "octo-org"]
  ∧ ∃ names, r.1.1 = Returned names
             ∧ Forall (λ s, s ≠ "" ∧ "010"%char ∉ JS.chars s) names.
Proof.
  intros r. split; [vm_compute; reflexivity |].
  assert (runs Github.getOrganizations r.1.2 r.1.1) as Hrun by apply run_runs.
  destruct (getOrganizations_lines r.1.2 r.1.1 Hrun) as ([out | e] & _ & H).
  - destruct H as (names & Ho & _ & Hnames). by exists names.
  - exists []. split; [exact H | constructor].
Defined.

(** The theorem for [config --show --visibility staging]. *)
Lemma config_show_only_witness :
  let r := run world (Cli.configAction node CliSpec.show_staging) Examples.fresh in
  r.1.1 = Returned tt ∧ actions r.1.2 = [].
Proof.
  intros r.
  destruct (config_show_only node CliSpec.show_staging r.1.2 r.1.1)
    as (Ho & Ha & _); [apply run_runs | by left |].
  split; [exact Ho | exact Ha].
Defined.

(** The theorem for [config --org acme --visibility public] where the file
    cannot be written. *)
Lemma config_save_fails_witness :
  let r := run world (Cli.configAction node MoreExamples.acme_public)
             MoreExamples.read_only in
  r.1.1 = Thrown ("Failed to save config: " +:+
                  "EACCES: permission denied, open '/home/user/.repokitrc'").
Proof.
  intros r.
  apply (config_save_fails node MoreExamples.acme_public r.1.2 r.1.1
           (Json.stringify
              (to_value (UpdateSpec.updated MoreExamples.acme_public Config.DEFAULT_CONFIG))));
    [apply run_runs |].
  vm_compute. repeat first [apply list_elem_of_here | apply list_elem_of_further].
Defined.

(** The theorem for [config --org acme --visibility public] on a machine
    without a preferences file. *)
Lemma config_then_load_witness :
  ∃ after,
    (run world (Config.loadConfig node)
       (run world (Cli.configAction node MoreExamples.acme_public) Examples.fresh).2).1.1
    = Returned after
    ∧ get after "defaultOrg" = VStr "acme"
    ∧ get after "defaultVisibility" = VStr "public".
Proof.
  destruct (config_then_load node MoreExamples.acme_public Examples.fresh)
    as (before & after & _ & _ & Hafter & Horg & _ & Hvis & _).
  - apply node_round_trip.
  - left. apply lookup_empty.
  - apply not_elem_of_empty.
  - reflexivity.
  - reflexivity.
  - intros v [= <-]. auto.
  - exists after. split; [exact Hafter |]. split.
    + by apply (Horg "acme").
    + by apply (Hvis "public").
Defined.

(** The theorem for [init " demo "]. *)
Lemma init_within_witness :
  let r := run world (Init.initCommand node " demo " Examples.init_plain)
             Examples.fresh in
  Forall (FrameSpec.within node "/work/demo" "demo") (calls r.1.2).
Proof.
  intros r.
  apply (init_within node " demo " Examples.init_plain r.1.2 r.1.1).
  apply run_runs.
Defined.

(** The theorem for [config --org acme --visibility public]. *)
Lemma config_preferences_only_witness :
  let r := run world (Cli.configAction node MoreExamples.acme_public)
             Examples.fresh in
  Forall (FrameSpec.preferences_only node) (calls r.1.2).
Proof.
  intros r.
  apply (config_preferences_only node MoreExamples.acme_public r.1.2 r.1.1).
  apply run_runs.
Defined.
